(** * Moltslack: access control and message ledger

    A shallow embedding of the channel registry (ChannelService), the message
    ledger (MessageService) and the capability check (AuthService) of the
    Moltslack coordination server, with the properties its specification
    states about them, and of the relay client they call (RelayDaemonClient
    and its FrameParser), with further properties of the code.

    Conventions of the embedding.
    - A JavaScript [Map] is a [gmap], a [Set] a [gset]; both are keyed by
      strings.  An object held in a map and mutated in place is modelled by
      re-inserting the updated record under the same key.
    - A method that can [throw] returns an [Outcome]; the state it returns
      next to a [Thrown] is the state at the moment of the throw.
    - Calls made on collaborators (relay client, storage adapter, analytics,
      and the channel service as seen from the message service) are returned
      as a list of [Call]s in program order.  [console.log] is not modelled.
    - [uuid()] and [new Date()] are read from an explicit environment.
    - Timestamps are kept as epoch milliseconds: the code stores
      [toISOString()] and compares [new Date(s).getTime()], which is the same
      integer.
    - A string is the sequence of its code units, and an index into a string
      counts code units, as in JavaScript.  The code inspects a text only for
      the at-sign and the ASCII word characters.
    - A [Buffer] is the list of its bytes; a length read from the wire is a
      natural number below 2^32. *)

From Stdlib Require Import ZArith NArith String Ascii List Lia Sorted Permutation.
From Stdlib.Strings Require Import Byte.
From stdpp Require Import base gmap sets list strings.
From Equations Require Import Equations.
Import ListNotations.

Local Open Scope string_scope.
Local Open Scope Z_scope.
Local Open Scope list_scope.

(** ** Results of methods that may throw *)

(** The messages of the [Error]s the services throw. *)
Inductive Error :=
| ChannelAlreadyExists (name : string)
    (* Channel <name> already exists *)
| PermissionDenied (detail : string).
    (* Permission denied: <detail> *)

Inductive Outcome (A : Type) :=
| Returned (a : A)
| Thrown (e : Error).
Arguments Returned {A} a.
Arguments Thrown {A} e.

(** What [uuid()] and [new Date()] yield at one call site. *)
Record Env := { uuid : string; now : Z }.

(** ** schemas/models: channels *)

Inductive ChannelType := PUBLIC | PRIVATE | BROADCAST | DIRECT.

Inductive AccessLevel := READ | WRITE | ADMIN.

(** [ChannelAccessLevelValue]: a level or [null]. *)
Definition ChannelAccessLevelValue := option AccessLevel.

#[export] Instance AccessLevel_eq_dec : EqDecision AccessLevel.
Proof. solve_decision. Defined.

#[export] Instance ChannelType_eq_dec : EqDecision ChannelType.
Proof. solve_decision. Defined.

(** Modelled from the spec: the declaration of [ChannelAccessRule] (schemas/models)
    is not among the sources.  The spec gives a rule a principal, a principal
    kind (identity or everyone) and a level; the code tests the kind against
    the literals 'all' and 'agent' and leaves role matching as a TODO, hence the
    third kind. *)
Inductive PrincipalType := PrincipalAll | PrincipalAgent | PrincipalRole.

Module AccessRule.
Record t := mk { principal : string; principalType : PrincipalType; level : AccessLevel }.
End AccessRule.

Module Metadata.
Record t := mk {
  displayName : string;
  topic : option string;
  isArchived : bool;
  allowExternal : bool }.

(** [Partial<ChannelMetadata>] *)
Record partial := mkPartial {
  p_displayName : option string;
  p_topic : option (option string);
  p_isArchived : option bool;
  p_allowExternal : option bool }.

Definition none : partial := mkPartial None None None None.

(** [{ ...base, ...over }] *)
Definition spread (base : t) (over : partial) : t :=
  mk (default (displayName base) (p_displayName over))
     (default (topic base) (p_topic over))
     (default (isArchived base) (p_isArchived over))
     (default (allowExternal base) (p_allowExternal over)).
End Metadata.

Module Channel.
Record t := mk {
  id : string;
  name : string;
  projectId : string;
  type : ChannelType;
  accessRules : list AccessRule.t;
  defaultAccess : ChannelAccessLevelValue;
  metadata : Metadata.t;
  createdBy : string;
  createdAt : Z;
  memberCount : nat }.

Definition with_memberCount (n : nat) (c : t) : t :=
  mk (id c) (name c) (projectId c) (type c) (accessRules c) (defaultAccess c)
     (metadata c) (createdBy c) (createdAt c) n.

Definition with_metadata (m : Metadata.t) (c : t) : t :=
  mk (id c) (name c) (projectId c) (type c) (accessRules c) (defaultAccess c)
     m (createdBy c) (createdAt c) (memberCount c).

Definition with_accessRules (r : list AccessRule.t) (c : t) : t :=
  mk (id c) (name c) (projectId c) (type c) r (defaultAccess c)
     (metadata c) (createdBy c) (createdAt c) (memberCount c).
End Channel.

(** storage/storage-interface: [StoredChannel], after the casts that
    [loadFromStorage] applies to its fields. *)
Module StoredChannel.
Record t := mk {
  id : string;
  name : string;
  projectId : string;
  type : ChannelType;
  accessRules : list AccessRule.t;
  defaultAccess : ChannelAccessLevelValue;
  metadata : Metadata.t;
  createdBy : string;
  createdAt : Z;
  memberCount : option nat }.
End StoredChannel.

(** ** services/channel-service *)

Module ChannelService.

Record ChannelCreateInput := {
  name : string;
  type : option ChannelType;
  topic : option string;
  isPrivate : option bool;
  metadata : Metadata.partial }.

(** Calls on the collaborators of the service. *)
Inductive Call :=
| SaveChannel (c : StoredChannel.t)
| SubscribeToChannel (agentId channelId : string)
| UnsubscribeFromChannel (agentId channelId : string)
| Track (distinctId event : string).

(** The fields of the service.  [relayClient] and [storage] say whether the
    optional collaborator is attached. *)
Record t := mk {
  channels : gmap string Channel.t;
  nameIndex : gmap string string;
  memberships : gmap string (gset string);
  projectId : string;
  relayClient : bool;
  storage : bool }.

(** [new ChannelService(projectId, relayClient?, storage?)] *)
Definition new (projectId : string) (relayClient storage : bool) : t :=
  mk ∅ ∅ ∅ projectId relayClient storage.

Definition with_channels (m : gmap string Channel.t) (cs : t) : t :=
  mk m (nameIndex cs) (memberships cs) (projectId cs) (relayClient cs) (storage cs).

(** [createDefaultAccessRules] *)
Definition createDefaultAccessRules (type : ChannelType) : list AccessRule.t :=
  match type with
  | PUBLIC => [AccessRule.mk "*" PrincipalAll WRITE]
  | PRIVATE => []
  | BROADCAST => [AccessRule.mk "*" PrincipalAll READ]
  | DIRECT => []
  end.

(** [create] *)
Definition create (input : ChannelCreateInput) (createdBy : string) (env : Env) (cs : t)
  : Outcome Channel.t * t * list Call :=
  match nameIndex cs !! name input with
  | Some _ => (Thrown (ChannelAlreadyExists (name input)), cs, [])
  | None =>
    let id := String.append "ch-" (uuid env) in
    let channel :=
      Channel.mk id (name input) (projectId cs)
        (default PUBLIC (type input))
        (createDefaultAccessRules (default PUBLIC (type input)))
        (if decide (type input = Some PRIVATE) then None else Some READ)
        (Metadata.spread (Metadata.mk (name input) (topic input) false false) (metadata input))
        createdBy (now env) 0%nat in
    let cs' :=
      mk (<[id := channel]> (channels cs))
         (<[name input := id]> (nameIndex cs))
         (<[id := ∅]> (memberships cs))
         (projectId cs) (relayClient cs) (storage cs) in
    let saved :=
      StoredChannel.mk (Channel.id channel) (Channel.name channel) (Channel.projectId channel)
        (Channel.type channel) (Channel.accessRules channel)
        (Some (default READ (Channel.defaultAccess channel)))
        (Channel.metadata channel) (Channel.createdBy channel) (Channel.createdAt channel)
        (Some (Channel.memberCount channel)) in
    (Returned channel, cs',
     (if storage cs then [SaveChannel saved] else []) ++ [Track createdBy "channel_created"])
  end.

(** [loadFromStorage], given what [storage.getAllChannels()] resolved to.
    It fills [channels] and [nameIndex]; it does not touch [memberships]. *)
Definition loadChannel (stored : StoredChannel.t) (cs : t) : t :=
  let channel :=
    Channel.mk (StoredChannel.id stored) (StoredChannel.name stored)
      (StoredChannel.projectId stored) (StoredChannel.type stored)
      (StoredChannel.accessRules stored) (StoredChannel.defaultAccess stored)
      (StoredChannel.metadata stored) (StoredChannel.createdBy stored)
      (StoredChannel.createdAt stored) (default 0%nat (StoredChannel.memberCount stored)) in
  mk (<[Channel.id channel := channel]> (channels cs))
     (<[Channel.name channel := Channel.id channel]> (nameIndex cs))
     (memberships cs) (projectId cs) (relayClient cs) (storage cs).

Definition loadFromStorage (storedChannels : list StoredChannel.t) (cs : t) : t :=
  if storage cs then fold_left (fun acc stored => loadChannel stored acc) storedChannels cs
  else cs.

(** [createDefaultChannels]; [create] cannot throw here, the name being free. *)
Definition createDefaultChannels (env1 env2 : Env) (cs : t) : t * list Call :=
  let general :=
    match nameIndex cs !! "general" with
    | None =>
      let r := create
        {| name := "general"; type := Some PUBLIC;
           topic := Some "General discussion for all agents";
           isPrivate := None; metadata := Metadata.none |} "system" env1 cs in
      (r.1.2, r.2)
    | Some _ => (cs, [])
    end in
  let announcements :=
    match nameIndex general.1 !! "announcements" with
    | None =>
      let r := create
        {| name := "announcements"; type := Some BROADCAST;
           topic := Some "System-wide announcements";
           isPrivate := None; metadata := Metadata.none |} "system" env2 general.1 in
      (r.1.2, r.2)
    | Some _ => (general.1, [])
    end in
  (announcements.1, general.2 ++ announcements.2).

(** [initializeChannels], given what the storage adapter resolved to. *)
Definition initializeChannels (storedChannels : list StoredChannel.t) (env1 env2 : Env)
    (cs : t) : t * list Call :=
  createDefaultChannels env1 env2 (loadFromStorage storedChannels cs).

(** [matchRule] *)
Definition matchRule (rule : AccessRule.t) (agentId : string) : bool :=
  match AccessRule.principalType rule with
  | PrincipalAll => true
  | PrincipalAgent => bool_decide (AccessRule.principal rule = agentId)
  | PrincipalRole => false
  end.

(** [levels.indexOf(v)] for [levels = ['read', 'write', 'admin']]; [-1]
    when [v] is not in the array. *)
Definition levels : list AccessLevel := [READ; WRITE; ADMIN].

Fixpoint indexOfFrom (v : AccessLevel) (l : list AccessLevel) (i : Z) : Z :=
  match l with
  | [] => -1
  | x :: rest => if decide (x = v) then i else indexOfFrom v rest (i + 1)
  end.

Definition indexOf (v : ChannelAccessLevelValue) : Z :=
  match v with
  | Some a => indexOfFrom a levels 0
  | None => -1
  end.

(** [accessLevelSatisfies] *)
Definition accessLevelSatisfies (actual required : ChannelAccessLevelValue) : bool :=
  indexOf actual >=? indexOf required.

(** The [for] loop of [checkAccess]: [Some b] when it returns [b] from
    inside the loop, [None] when it falls through. *)
Fixpoint checkRules (rules : list AccessRule.t) (agentId : string)
    (requiredLevel : ChannelAccessLevelValue) : option bool :=
  match rules with
  | [] => None
  | rule :: rest =>
    if matchRule rule agentId
    then Some (accessLevelSatisfies (Some (AccessRule.level rule)) requiredLevel)
    else checkRules rest agentId requiredLevel
  end.

(** [checkAccess] *)
Definition checkAccess (channelId agentId : string)
    (requiredLevel : ChannelAccessLevelValue) (cs : t) : bool :=
  match channels cs !! channelId with
  | None => false
  | Some channel =>
    match checkRules (Channel.accessRules channel) agentId requiredLevel with
    | Some b => b
    | None =>
      match Channel.defaultAccess channel with
      | Some d => accessLevelSatisfies (Some d) requiredLevel
      | None => false
      end
    end
  end.

(** [join] *)
Definition join (channelId agentId : string) (cs : t) : Outcome bool * t * list Call :=
  match channels cs !! channelId with
  | None => (Returned false, cs, [])
  | Some channel =>
    if negb (checkAccess channelId agentId (Some READ) cs)
    then (Thrown (PermissionDenied "cannot join channel"), cs, [])
    else
      match memberships cs !! channelId with
      | None => (Returned false, cs, [])
      | Some members =>
        if decide (agentId ∈ members) then (Returned true, cs, [])
        else
          let members' := members ∪ {[agentId]} in
          let channel' := Channel.with_memberCount (size members') channel in
          (Returned true,
           mk (<[channelId := channel']> (channels cs)) (nameIndex cs)
              (<[channelId := members']> (memberships cs))
              (projectId cs) (relayClient cs) (storage cs),
           (if relayClient cs then [SubscribeToChannel agentId channelId] else [])
             ++ [Track agentId "channel_joined"])
      end
  end.

(** [leave] *)
Definition leave (channelId agentId : string) (cs : t) : bool * t * list Call :=
  match channels cs !! channelId with
  | None => (false, cs, [])
  | Some channel =>
    match memberships cs !! channelId with
    | None => (false, cs, [])
    | Some members =>
      if decide (agentId ∈ members) then
        let members' := members ∖ {[agentId]} in
        let channel' := Channel.with_memberCount (size members') channel in
        (true,
         mk (<[channelId := channel']> (channels cs)) (nameIndex cs)
            (<[channelId := members']> (memberships cs))
            (projectId cs) (relayClient cs) (storage cs),
         (if relayClient cs then [UnsubscribeFromChannel agentId channelId] else [])
           ++ [Track agentId "channel_left"])
      else (true, cs, [])
    end
  end.

(** [isMember] and [getById] *)
Definition isMember (channelId agentId : string) (cs : t) : bool :=
  match memberships cs !! channelId with
  | Some members => bool_decide (agentId ∈ members)
  | None => false
  end.

Definition getById (id : string) (cs : t) : option Channel.t := channels cs !! id.

(** [update] *)
Definition update (channelId : string) (updates : Metadata.partial) (cs : t) : bool * t :=
  match channels cs !! channelId with
  | None => (false, cs)
  | Some channel =>
    (true,
     with_channels
       (<[channelId :=
            Channel.with_metadata (Metadata.spread (Channel.metadata channel) updates) channel]>
          (channels cs)) cs)
  end.

(** [addAccessRule]: [channel.accessRules.push(rule)] *)
Definition addAccessRule (channelId : string) (rule : AccessRule.t) (cs : t) : bool * t :=
  match channels cs !! channelId with
  | None => (false, cs)
  | Some channel =>
    (true,
     with_channels
       (<[channelId := Channel.with_accessRules (Channel.accessRules channel ++ [rule]) channel]>
          (channels cs)) cs)
  end.

(** [delete] *)
Definition delete (channelId : string) (cs : t) : bool * t :=
  match channels cs !! channelId with
  | None => (false, cs)
  | Some channel =>
    (true,
     mk (base.delete channelId (channels cs))
        (base.delete (Channel.name channel) (nameIndex cs))
        (base.delete channelId (memberships cs))
        (projectId cs) (relayClient cs) (storage cs))
  end.

(** [getByName]: the id found in the name index, when it is a non-empty
    string, is looked up in [channels]. *)
Definition getByName (name : string) (cs : t) : option Channel.t :=
  match nameIndex cs !! name with
  | Some EmptyString => None
  | Some id => channels cs !! id
  | None => None
  end.

(** [getCount] *)
Definition getCount (cs : t) : nat := size (channels cs).

End ChannelService.

(** ** schemas/models: messages *)

Inductive TargetType := TargetChannel | TargetAgent | TargetBroadcast.

(** Modelled from the spec: the enumeration [MessageDeliveryStatus]
    (schemas/models) is not among the sources; the spec lists the delivery
    states sent, delivered and read. *)
Module MessageDeliveryStatus.
Inductive t := SENT | DELIVERED | READ.
End MessageDeliveryStatus.

(** Modelled from the spec: the enumeration [MessageType] (schemas/models) is
    not among the sources; a message type is kept as its string value. *)
Module MessageType.
Definition t := string.
Definition TEXT : t := "text".
End MessageType.

Inductive MentionType := MentionAll | MentionAgent.

Module Mention.
Record t := mk { type : MentionType; startIndex : nat; length : nat }.
End Mention.

Module MessageContent.
Record t := mk {
  text : string;
  data : option string;          (* an opaque JSON object *)
  mentions : list Mention.t;
  attachments : list string }.

Definition with_text (s : string) (c : t) : t :=
  mk s (data c) (mentions c) (attachments c).
End MessageContent.

Module Message.
Record t := mk {
  id : string;
  projectId : string;
  targetId : string;
  targetType : TargetType;
  senderId : string;
  type : MessageType.t;
  content : MessageContent.t;
  threadId : option string;
  correlationId : option string;
  signature : string;
  deliveryStatus : MessageDeliveryStatus.t;
  sentAt : Z;
  editedAt : option Z;
  deletedAt : option Z }.

Definition with_deliveryStatus (s : MessageDeliveryStatus.t) (m : t) : t :=
  mk (id m) (projectId m) (targetId m) (targetType m) (senderId m) (type m) (content m)
     (threadId m) (correlationId m) (signature m) s (sentAt m) (editedAt m) (deletedAt m).

Definition with_deletedAt (d : option Z) (m : t) : t :=
  mk (id m) (projectId m) (targetId m) (targetType m) (senderId m) (type m) (content m)
     (threadId m) (correlationId m) (signature m) (deliveryStatus m) (sentAt m) (editedAt m) d.

Definition with_content (c : MessageContent.t) (m : t) : t :=
  mk (id m) (projectId m) (targetId m) (targetType m) (senderId m) (type m) c
     (threadId m) (correlationId m) (signature m) (deliveryStatus m) (sentAt m)
     (editedAt m) (deletedAt m).

(** The assignments of [edit]: text, [editedAt], then the signature. *)
Definition edited (c : MessageContent.t) (at_ : Z) (sig : string) (m : t) : t :=
  mk (id m) (projectId m) (targetId m) (targetType m) (senderId m) (type m) c
     (threadId m) (correlationId m) sig (deliveryStatus m) (sentAt m)
     (Some at_) (deletedAt m).
End Message.

(** The object [{ id, senderId, content, sentAt }] that [signMessage] serialises. *)
Record SignedFields := {
  signed_id : string;
  signed_senderId : string;
  signed_content : MessageContent.t;
  signed_sentAt : Z }.

(** What the service takes from the JavaScript platform: [JSON.stringify] on
    the signed object, and, from Node's crypto module,
    [createHmac('sha256', key).update(payload).digest('base64')]. *)
Record Platform := {
  JSON_stringify : SignedFields -> string;
  hmacSha256Base64 : string -> string -> string }.

(** ** JavaScript arrays and strings *)

(** [a.slice(0, e)] for an integer [e]: a negative [e] counts from the end. *)
Definition slice0 {A : Type} (a : list A) (e : Z) : list A :=
  if e <? 0 then firstn (Z.to_nat (Z.max (Z.of_nat (List.length a) + e) 0)) a
  else firstn (Z.to_nat e) a.

(** [a.sort(cmp)]: a stable sort; [x] is placed before [y] when [cmp x y <= 0]
    and [x] preceded [y] in [a]. *)
Fixpoint insertSorted {A : Type} (cmp : A -> A -> Z) (x : A) (a : list A) : list A :=
  match a with
  | [] => [x]
  | y :: rest => if cmp x y <=? 0 then x :: y :: rest else y :: insertSorted cmp x rest
  end.

Fixpoint Array_sort {A : Type} (cmp : A -> A -> Z) (a : list A) : list A :=
  match a with
  | [] => []
  | x :: rest => insertSorted cmp x (Array_sort cmp rest)
  end.

(** Truthiness of an optional string: [undefined] and the empty string are falsy. *)
Definition truthy (s : option string) : option string :=
  match s with
  | Some EmptyString => None
  | other => other
  end.

(** The class [\w] of a regular expression without the unicode flag. *)
Definition isWordChar (c : ascii) : bool :=
  let n := nat_of_ascii c in
  ((48 <=? n) && (n <=? 57) || (65 <=? n) && (n <=? 90)
   || (97 <=? n) && (n <=? 122) || (n =? 95))%nat.

Definition isAt (c : ascii) : bool := (nat_of_ascii c =? 64)%nat.

(** The longest prefix of word characters: what [\w+] consumes. *)
Fixpoint takeWord (s : string) : string :=
  match s with
  | EmptyString => EmptyString
  | String c rest => if isWordChar c then String c (takeWord rest) else EmptyString
  end.

Fixpoint dropString (n : nat) (s : string) : string :=
  match n, s with
  | O, _ => s
  | S k, EmptyString => EmptyString
  | S k, String _ rest => dropString k rest
  end.

(** The leftmost match of [/@(\w+)/] in [s], the suffix of the text that
    starts at index [pos]: the index of the match and its group 1. *)
Fixpoint findMatch (s : string) (pos : nat) : option (nat * string) :=
  match s with
  | EmptyString => None
  | String c rest =>
    if isAt c then
      match takeWord rest with
      | EmptyString => findMatch rest (S pos)
      | word => Some (pos, word)
      end
    else findMatch rest (S pos)
  end.

(** [regex.exec(text)] for the global regex [/@(\w+)/g] whose [lastIndex] is
    [lastIndex]. *)
Definition regexExec (text : string) (lastIndex : nat) : option (nat * string) :=
  findMatch (dropString lastIndex text) lastIndex.

(** A match lies at or after the position the search starts from and ends
    within the text: the loop of [extractMentions] terminates. *)
Lemma findMatch_bounds s pos index word :
  findMatch s pos = Some (index, word) ->
  (pos <= index /\ index + S (String.length word) <= pos + String.length s)%nat.
Proof.
  revert pos. induction s as [|c rest IH]; intros pos; simpl; [discriminate|].
  assert (Hlen : (String.length (takeWord rest) <= String.length rest)%nat).
  { clear. induction rest as [|d r IHr]; simpl; [lia|].
    destruct (isWordChar d); simpl; lia. }
  destruct (isAt c).
  - destruct (takeWord rest) as [|d w] eqn:Hw.
    + intros H. apply IH in H. lia.
    + intros H. injection H as <- <-. lia.
  - intros H. apply IH in H. lia.
Qed.

Lemma dropString_length n s :
  String.length (dropString n s) = (String.length s - n)%nat.
Proof.
  revert s. induction n as [|k IH]; intros s; simpl; [lia|].
  destruct s as [|c rest]; simpl; [reflexivity|]. apply IH.
Qed.

Lemma regexExec_bounds text lastIndex index word :
  regexExec text lastIndex = Some (index, word) ->
  (lastIndex <= index /\ index + S (String.length word) <= String.length text)%nat.
Proof.
  unfold regexExec. intros H. apply findMatch_bounds in H.
  rewrite dropString_length in H. lia.
Qed.

Definition inspect {A : Type} (a : A) : { b : A | a = b } := exist _ a eq_refl.

(** ** services/message-service *)

Module MessageService.

Record MessageSendInput := {
  targetId : string;
  targetType : TargetType;
  type : option MessageType.t;
  text : string;
  data : option string;
  threadId : option string;
  correlationId : option string }.

(** Calls on the collaborators of the service.  The relay calls carry the
    message of the [wsMessage] envelope. *)
Inductive Call :=
| CheckAccess (channelId agentId : string) (level : AccessLevel)
| SaveMessage (m : Message.t)
| LoadChannelMessages (channelId : string) (limit : Z)
| BroadcastToChannel (channelId : string) (m : Message.t)
| SendToAgent (agentId : string) (m : Message.t)
| Broadcast (m : Message.t)
| EmitRelayEvent (source target messageId action : string) (newText : option string).

(** The fields of the service.  [relayClient] and [storage] say whether the
    optional collaborator is attached; [channelService] is the attached
    registry, if any, in the state it has when a method of the ledger runs. *)
Record t := mk {
  messages : gmap string Message.t;
  channelMessages : gmap string (list string);
  threadMessages : gmap string (list string);
  projectId : string;
  relayClient : bool;
  channelService : option ChannelService.t;
  signingKey : string;
  storage : bool }.

(** [new MessageService(projectId, relayClient?, channelService?, storage?)];
    [envKey] is [process.env.MESSAGE_SIGNING_KEY]. *)
Definition new (projectId : string) (relayClient : bool)
    (channelService : option ChannelService.t) (storage : bool)
    (envKey : option string) (env : Env) : t :=
  mk ∅ ∅ ∅ projectId relayClient channelService
     (default (uuid env) (truthy envKey)) storage.

Definition with_messages (m : gmap string Message.t) (ms : t) : t :=
  mk m (channelMessages ms) (threadMessages ms) (projectId ms) (relayClient ms)
     (channelService ms) (signingKey ms) (storage ms).

(** One iteration of the [while] loop of [extractMentions] pushes this. *)
Definition mentionOf (index : nat) (word : string) : Mention.t :=
  Mention.mk
    (if bool_decide (word = "all") || bool_decide (word = "here")
     then MentionAll else MentionAgent)
    index
    (S (String.length word)).

(** The [while ((match = regex.exec(text)) !== null)] loop, from the
    current [lastIndex]; after a match [lastIndex] is the end of the match. *)
Equations? matchLoop (text : string) (lastIndex : nat) : list Mention.t
  by wf (String.length text - lastIndex)%nat lt :=
  matchLoop text lastIndex with inspect (regexExec text lastIndex) := {
    | exist _ (Some (index, word)) _ =>
        mentionOf index word :: matchLoop text (index + S (String.length word));
    | exist _ None _ => [] }.
Proof.
  match goal with H : regexExec _ _ = Some _ |- _ => apply regexExec_bounds in H end.
  lia.
Qed.

(** [extractMentions] *)
Definition extractMentions (text : string) : list Mention.t := matchLoop text 0.

Section WithPlatform.
Context (P : Platform).

(** [signMessage] *)
Definition signMessage (ms : t) (id senderId : string) (content : MessageContent.t)
    (sentAt : Z) : string :=
  let payload := JSON_stringify P (Build_SignedFields id senderId content sentAt) in
  hmacSha256Base64 P (signingKey ms) payload.

(** [verifySignature] *)
Definition verifySignature (ms : t) (message : Message.t) : bool :=
  let expectedSig :=
    signMessage ms (Message.id message) (Message.senderId message)
      (Message.content message) (Message.sentAt message) in
  bool_decide (Message.signature message = expectedSig).

(** [broadcastMessage] *)
Definition broadcastMessage (ms : t) (message : Message.t) : list Call :=
  if negb (relayClient ms) then []
  else
    match Message.targetType message with
    | TargetChannel => [BroadcastToChannel (Message.targetId message) message]
    | TargetAgent => [SendToAgent (Message.targetId message) message]
    | TargetBroadcast => [Broadcast message]
    end.

(** [a.push(id)] on the array stored under [key], created empty when absent. *)
Definition pushIndex (key id : string) (index : gmap string (list string))
  : gmap string (list string) :=
  <[key := default [] (index !! key) ++ [id]]> index.

(** The message that [send] builds. *)
Definition buildMessage (input : MessageSendInput) (senderId : string) (env : Env)
    (ms : t) : Message.t :=
  let id := String.append "msg-" (uuid env) in
  let now := now env in
  let content :=
    MessageContent.mk (text input) (data input) (extractMentions (text input)) [] in
  Message.mk id (projectId ms) (targetId input) (targetType input) senderId
    (default MessageType.TEXT (truthy (type input))) content
    (threadId input) (correlationId input)
    (signMessage ms id senderId content now)
    MessageDeliveryStatus.SENT now None None.

(** The body of [send] after the access check. *)
Definition store (input : MessageSendInput) (message : Message.t) (ms : t) : t :=
  let id := Message.id message in
  mk (<[id := message]> (messages ms))
     (match targetType input with
      | TargetChannel => pushIndex (targetId input) id (channelMessages ms)
      | _ => channelMessages ms
      end)
     (match truthy (threadId input) with
      | Some thread => pushIndex thread id (threadMessages ms)
      | None => threadMessages ms
      end)
     (projectId ms) (relayClient ms) (channelService ms) (signingKey ms) (storage ms).

(** [send] *)
Definition send (input : MessageSendInput) (senderId : string) (env : Env) (ms : t)
  : Outcome Message.t * t * list Call :=
  let proceed (checked : list Call) :=
    let message := buildMessage input senderId env ms in
    (Returned message, store input message ms,
     checked ++ (if storage ms then [SaveMessage message] else [])
             ++ broadcastMessage ms message) in
  match targetType input, channelService ms with
  | TargetChannel, Some cs =>
    let checked := [CheckAccess (targetId input) senderId WRITE] in
    if negb (ChannelService.checkAccess (targetId input) senderId (Some WRITE) cs)
    then (Thrown (PermissionDenied "cannot send to this channel"), ms, checked)
    else proceed checked
  | _, _ => proceed []
  end.

(** [getById] and [getCount] *)
Definition getById (id : string) (ms : t) : option Message.t := messages ms !! id.
Definition getCount (ms : t) : nat := size (messages ms).

(** [ids.map(id => this.messages.get(id)!).filter(Boolean)] *)
Definition lookupAll (ids : list string) (ms : t) : list Message.t :=
  omap (fun id => messages ms !! id) ids.

Definition notDeleted (m : Message.t) : bool :=
  match Message.deletedAt m with None => true | Some _ => false end.

(** The comparator of [getChannelMessages]: [sentAt] descending. *)
Definition bySentAtDesc (a b : Message.t) : Z := Message.sentAt b - Message.sentAt a.

(** [getChannelMessages].  When nothing is in memory and a storage adapter
    is attached, the method asks the adapter for the channel's messages;
    the answer arrives in a promise callback, after the method has
    returned, so the second read of the index sees the same arrays. *)
Definition getChannelMessages (channelId : string) (limit : option Z)
    (before : option string) (ms : t) : list Message.t * list Call :=
  let limit := default 50 limit in
  let ids := default [] (channelMessages ms !! channelId) in
  let messages0 := lookupAll ids ms in
  let reload := match messages0 with [] => storage ms | _ => false end in
  let messages1 :=
    if reload then lookupAll (default [] (channelMessages ms !! channelId)) ms
    else messages0 in
  let messages2 := List.filter notDeleted messages1 in
  let messages3 := Array_sort bySentAtDesc messages2 in
  let messages4 :=
    match truthy before with
    | Some b =>
      match messages ms !! b with
      | Some beforeMsg =>
        List.filter (fun m => Message.sentAt m <? Message.sentAt beforeMsg) messages3
      | None => messages3
      end
    | None => messages3
    end in
  (slice0 messages4 limit,
   if reload then [LoadChannelMessages channelId limit] else []).

(** [edit] *)
Definition edit (messageId newText editorId : string) (env : Env) (ms : t)
  : Outcome bool * t * list Call :=
  match messages ms !! messageId with
  | None => (Returned false, ms, [])
  | Some message =>
    if bool_decide (Message.senderId message = editorId) then
      let content := MessageContent.with_text newText (Message.content message) in
      let message' :=
        Message.edited content (now env)
          (signMessage ms (Message.id message) (Message.senderId message) content
             (Message.sentAt message))
          message in
      (Returned true, with_messages (<[messageId := message']> (messages ms)) ms,
       if relayClient ms
       then [EmitRelayEvent editorId (Message.targetId message) messageId "edited"
               (Some newText)]
       else [])
    else (Thrown (PermissionDenied "only sender can edit message"), ms, [])
  end.

(** [delete] *)
Definition delete (messageId deleterId : string) (env : Env) (ms : t)
  : Outcome bool * t * list Call :=
  match messages ms !! messageId with
  | None => (Returned false, ms, [])
  | Some message =>
    if bool_decide (Message.senderId message = deleterId) then
      (Returned true,
       with_messages
         (<[messageId := Message.with_deletedAt (Some (now env)) message]> (messages ms)) ms,
       if relayClient ms
       then [EmitRelayEvent deleterId (Message.targetId message) messageId "deleted" None]
       else [])
    else (Thrown (PermissionDenied "only sender can delete message"), ms, [])
  end.

(** [markDelivered] *)
Definition markDelivered (messageId recipientId : string) (ms : t) : t :=
  match messages ms !! messageId with
  | Some message =>
    match Message.deliveryStatus message with
    | MessageDeliveryStatus.SENT =>
      with_messages
        (<[messageId :=
             Message.with_deliveryStatus MessageDeliveryStatus.DELIVERED message]>
           (messages ms)) ms
    | _ => ms
    end
  | None => ms
  end.

(** [markRead] *)
Definition markRead (messageId readerId : string) (ms : t) : t :=
  match messages ms !! messageId with
  | Some message =>
    with_messages
      (<[messageId := Message.with_deliveryStatus MessageDeliveryStatus.READ message]>
         (messages ms)) ms
  | None => ms
  end.

End WithPlatform.

(** The comparator of [getThreadMessages]: [sentAt] ascending. *)
Definition bySentAtAsc (a b : Message.t) : Z := Message.sentAt a - Message.sentAt b.

(** [getThreadMessages] *)
Definition getThreadMessages (threadId : string) (ms : t) : list Message.t :=
  Array_sort bySentAtAsc
    (List.filter notDeleted (lookupAll (default [] (threadMessages ms !! threadId)) ms)).

(** The registry attached to the ledger is a shared object: between two
    calls on the ledger it may have changed. *)
Definition withRegistry (channelService : option ChannelService.t) (ms : t) : t :=
  mk (messages ms) (channelMessages ms) (threadMessages ms) (projectId ms) (relayClient ms)
     channelService (signingKey ms) (storage ms).

End MessageService.

(** ** services/auth-service *)

Module AuthService.

Inductive Action := read | write | admin.

#[export] Instance Action_eq_dec : EqDecision Action.
Proof. solve_decision. Defined.

Record Permission := { resource : string; actions : list Action }.

(** [Some prefix] when the pattern is [prefix] followed by a final star. *)
Fixpoint wildcardPrefix (pattern : string) : option string :=
  match pattern with
  | EmptyString => None
  | String c EmptyString => if bool_decide (c = "*"%char) then Some EmptyString else None
  | String c rest => option_map (String c) (wildcardPrefix rest)
  end.

(** Modelled from the spec: the resource matching of [checkPermissions]
    (services/auth-service is not among the sources, only its tests are).
    A pattern matches a resource when the two are the same string, or the
    pattern ends in a star and the resource starts with the pattern minus
    that star, or the pattern is the global star. *)
Definition matchResource (pattern resource : string) : bool :=
  bool_decide (pattern = resource)
  || match wildcardPrefix pattern with
     | Some prefix => String.prefix prefix resource
     | None => false
     end
  || bool_decide (pattern = "*").

(** Modelled from the spec: the action matching of [checkPermissions]
    (services/auth-service is not among the sources).  The action is in the
    capability's action set, or that set contains admin. *)
Definition matchAction (granted : list Action) (action : Action) : bool :=
  bool_decide (action ∈ granted) || bool_decide (admin ∈ granted).

(** Modelled from the spec: [checkPermissions], the spec's authorize
    (services/auth-service is not among the sources).  Any one capability
    that matches the resource and grants the action suffices; an empty
    capability set grants nothing. *)
Definition checkPermissions (permissions : list Permission) (resource_ : string)
    (action : Action) : bool :=
  existsb (fun p => matchResource (resource p) resource_ && matchAction (actions p) action)
    permissions.

End AuthService.

(** ** relay/relay-daemon-client: the frame parser *)

(** A byte of a [Buffer], from a number: the low eight bits. *)
Definition byteOfN (n : N) : byte :=
  match Byte.of_N (n mod 256)%N with
  | Some b => b
  | None => Byte.x00
  end.

(** [buf.readUInt32BE(0)] on a buffer that starts with the four bytes
    [b0 b1 b2 b3]. *)
Definition readUInt32BE (b0 b1 b2 b3 : byte) : N :=
  (((Byte.to_N b0 * 256 + Byte.to_N b1) * 256 + Byte.to_N b2) * 256 + Byte.to_N b3)%N.

(** [Buffer.alloc(4)] after [writeUInt32BE(value, 0)]; Node throws a
    [RangeError] when the value does not fit 32 bits. *)
Definition writeUInt32BE (value : N) : option (list byte) :=
  if (value <? 2 ^ 32)%N then
    Some [byteOfN (value / 2 ^ 24); byteOfN (value / 2 ^ 16); byteOfN (value / 2 ^ 8);
          byteOfN value]
  else None.

Definition MAX_FRAME_BYTES : N := 16 * 1024 * 1024.

Module FrameParser.

(** The fields of the parser. *)
Record t := mk { buffer : list byte; expectedLength : option N }.

(** [new FrameParser()] and the state after [reset()]. *)
Definition new : t := mk [] None.
Definition reset (p : t) : t := mk [] None.

(** The errors handed to [onError]: the parser's own, and the one that
    [JSON.parse] throws on the text of a frame. *)
Inductive ParseError :=
| FrameTooLarge (length : N)
| SyntaxError (frameData : list byte).

Section WithJSON.
Context {Envelope : Type}.

(** [JSON.parse(frameData.toString('utf-8'))]: the envelope, or nothing
    when it throws. *)
Context (JSON_parse : list byte -> option Envelope).

(** The calls on the two handlers, in program order. *)
Inductive Event :=
| OnFrame (envelope : Envelope)
| OnError (error : ParseError).

(** The [try] block at the end of the loop body.  The handlers are taken to
    return normally; an [onFrame] that throws would be reported to [onError]
    as well. *)
Definition dispatch (frameData : list byte) : Event :=
  match JSON_parse frameData with
  | Some envelope => OnFrame envelope
  | None => OnError (SyntaxError frameData)
  end.

(** How one run of the loop body ends: with a [return], or at the end of
    the body, from where the loop condition is tested again. *)
Inductive Step :=
| Return (p : t) (events : list Event)
| Again (p : t) (events : list Event).

(** The second half of the loop body, from the comment Read frame data
    on, with [this.expectedLength] equal to [length]. *)
Definition readFrameData (buffer : list byte) (length : N) : Step :=
  if (N.of_nat (List.length buffer) <? length)%N then Return (mk buffer (Some length)) []
  else
    Again (mk (skipn (N.to_nat length) buffer) None)
          [dispatch (firstn (N.to_nat length) buffer)].

(** The body of the [while] loop of [parseFrames]. *)
Definition body (p : t) : Step :=
  match expectedLength p with
  | None =>
    match buffer p with
    | b0 :: b1 :: b2 :: b3 :: rest =>
      let length := readUInt32BE b0 b1 b2 b3 in
      if (MAX_FRAME_BYTES <? length)%N
      then Return (mk [] None) [OnError (FrameTooLarge length)]
      else readFrameData rest length
    | _ => Return p []
    end
  | Some length => readFrameData (buffer p) length
  end.

(** What the loop has left to consume. *)
Definition fuel (p : t) : nat :=
  (2 * List.length (buffer p) + match expectedLength p with Some _ => 1 | None => 0 end)%nat.

Lemma body_Again p p' events :
  buffer p <> [] -> body p = Again p' events -> (fuel p' < fuel p)%nat.
Proof.
  unfold body, readFrameData, fuel. destruct p as [buf [len|]]; simpl.
  - intros Hne. destruct (N.of_nat (List.length buf) <? len)%N; [discriminate|].
    intros [= <- _]. simpl. rewrite length_skipn. lia.
  - intros _. destruct buf as [|b0 [|b1 [|b2 [|b3 rest]]]]; try discriminate.
    destruct (MAX_FRAME_BYTES <? _)%N; [discriminate|].
    destruct (N.of_nat (List.length rest) <? _)%N; [discriminate|].
    intros [= <- _]. simpl. rewrite length_skipn. lia.
Qed.

(** [parseFrames] *)
Equations? parseFrames (p : t) : t * list Event by wf (fuel p) lt :=
  parseFrames p with inspect (buffer p) := {
    | exist _ [] _ => (p, []);
    | exist _ (_ :: _) _ with inspect (body p) := {
        | exist _ (Return p' events) _ => (p', events);
        | exist _ (Again p' events) _ =>
            ((parseFrames p').1, events ++ (parseFrames p').2) } }.
Proof.
  all: eapply body_Again; [|eassumption]; congruence.
Qed.

(** [feed] *)
Definition feed (data : list byte) (p : t) : t * list Event :=
  parseFrames (mk (buffer p ++ data) (expectedLength p)).

(** [feed] on one chunk after another. *)
Fixpoint feedAll (chunks : list (list byte)) (p : t) : t * list Event :=
  match chunks with
  | [] => (p, [])
  | data :: rest =>
    let r := feed data p in
    let r' := feedAll rest r.1 in
    (r'.1, r.2 ++ r'.2)
  end.

End WithJSON.

Arguments Event : clear implicits.
Arguments Step : clear implicits.

End FrameParser.

(** ** relay/relay-daemon-client: the client *)

Module RelayDaemonClient.

Inductive ClientState := DISCONNECTED | CONNECTING | HANDSHAKING | READY | BACKOFF.

#[export] Instance ClientState_eq_dec : EqDecision ClientState.
Proof. solve_decision. Defined.

Definition PROTOCOL_VERSION : Z := 2.

Inductive MessageType :=
| HELLO | WELCOME | SEND | DELIVER | ACK | SUBSCRIBE | UNSUBSCRIBE | PING | PONG | ERROR
| CHANNEL_JOIN | CHANNEL_LEAVE | CHANNEL_MESSAGE.

Inductive PayloadKind := KindMessage | KindState | KindCommand | KindQuery | KindResponse.

Inductive EntityType := EntityAgent | EntityUser.

(** A [WSMessage] as the bridge methods inspect it: its type, its data
    and its timestamp.  The data of a message of type message is read as a
    [Message]; the data of a presence message is only serialised and is kept
    as its JSON text, as is a message of any other type. *)
Inductive WSMessage :=
| WsMessage (data : option Message.t) (timestamp : Z)
| WsPresence (data : option string) (timestamp : Z)
| WsOther (json : string).

(** A [RelayEvent]: the events that the message service emits have the type
    message.sent and carry a message id, an action and, for an edit, the new
    text. *)
Record RelayEvent := {
  event_source : string;
  event_target : option string;
  event_messageId : string;
  event_action : string;
  event_newText : option string;
  event_timestamp : Z }.

(** What is passed as the body of a payload: declared a string; the bridge
    methods pass the content object of a message, or what [JSON.stringify]
    returned, which is undefined for undefined. *)
Inductive Body :=
| BodyText (s : string)
| BodyContent (c : MessageContent.t)
| BodyUndefined.

(** The data of a send payload: the record that wraps a [WSMessage], or any
    other record, kept as its JSON text. *)
Inductive SendData :=
| WrappedWSMessage (message : WSMessage)
| RecordData (json : string).

(** The payloads of the envelopes that the client builds. *)
Inductive Payload :=
| HelloPayload (name cli : string) (entityType : EntityType) (version : Z)
| SendPayload (body : Body) (kind : PayloadKind) (data : option SendData)
    (thread : option string)
| AckPayload (correlationId status : string)
| PongPayload (correlationId : string)
| ChannelPayload (channel : string)
| ChannelMessagePayload (channel : string) (body : Body) (thread : option string)
    (mentions : option (list string))
| TopicPayload (topic : string).

Record Envelope := {
  id : string;
  v : Z;
  type : MessageType;
  from : option string;
  to : option string;
  ts : Z;
  payload : Payload }.

(** What the client takes from the JavaScript platform: [JSON.stringify] on
    the values it serialises, and, for an envelope, the bytes
    [Buffer.from(JSON.stringify(envelope), 'utf-8')]. *)
Record Json := {
  stringifyMessage : Message.t -> string;
  stringifyPresence : string -> string;
  stringifyWSMessage : WSMessage -> string;
  stringifyEvent : RelayEvent -> string;
  encode : Envelope -> list byte }.

(** Calls on the socket, the timers, the callbacks and the listeners. *)
Inductive Call :=
| StateChange (state : ClientState)
| CreateConnection (socketPath : string)
| SocketWrite (bytes : list byte)
| SocketEnd
| SocketDestroy
| SetWelcomeTimeout (ms : Z)
| SetReconnectTimer (ms : Z)
| ClearReconnectTimer
| EmitConnected (sessionId : option string)
| EmitDisconnected
| EmitChannelJoined (channel agentId : string)
| EmitChannelLeft (channel agentId : string).

(** The fields of the client.  [socket] is [None] for [null] and otherwise
    holds the flag [destroyed] of the socket; [reconnectTimer] says whether
    a timer is pending. *)
Record t := mk {
  socket : option bool;
  parser : FrameParser.t;
  state : ClientState;
  sessionId : option string;
  reconnectAttempts : Z;
  reconnectDelay : Z;
  reconnectTimer : bool;
  subscriptions : gset string;
  channelMembers : gmap string (gset string);
  socketPath : string;
  agentName : string;
  cli : string;
  reconnect : bool;
  maxReconnectAttempts : Z;
  reconnectDelayMs : Z;
  reconnectMaxDelayMs : Z;
  entityType : EntityType }.

Record RelayDaemonClientOptions := {
  opt_socketPath : option string;
  opt_agentName : option string;
  opt_cli : option string;
  opt_reconnect : option bool;
  opt_maxReconnectAttempts : option Z;
  opt_reconnectDelayMs : option Z;
  opt_reconnectMaxDelayMs : option Z;
  opt_entityType : option EntityType }.

(** [new RelayDaemonClient(options)] *)
Definition new (options : RelayDaemonClientOptions) : t :=
  mk None FrameParser.new DISCONNECTED None 0
     (default 1000 (opt_reconnectDelayMs options)) false ∅ ∅
     (default ".agent-relay/relay.sock" (truthy (opt_socketPath options)))
     (default "Moltslack" (truthy (opt_agentName options)))
     (default "moltslack" (truthy (opt_cli options)))
     (default true (opt_reconnect options))
     (default 10 (opt_maxReconnectAttempts options))
     (default 1000 (opt_reconnectDelayMs options))
     (default 30000 (opt_reconnectMaxDelayMs options))
     (default EntityAgent (opt_entityType options)).

Definition with_state (s : ClientState) (c : t) : t :=
  mk (socket c) (parser c) s (sessionId c) (reconnectAttempts c) (reconnectDelay c)
     (reconnectTimer c) (subscriptions c) (channelMembers c) (socketPath c) (agentName c)
     (cli c) (reconnect c) (maxReconnectAttempts c) (reconnectDelayMs c)
     (reconnectMaxDelayMs c) (entityType c).

Definition with_socket (s : option bool) (c : t) : t :=
  mk s (parser c) (state c) (sessionId c) (reconnectAttempts c) (reconnectDelay c)
     (reconnectTimer c) (subscriptions c) (channelMembers c) (socketPath c) (agentName c)
     (cli c) (reconnect c) (maxReconnectAttempts c) (reconnectDelayMs c)
     (reconnectMaxDelayMs c) (entityType c).

Definition with_parser (p : FrameParser.t) (c : t) : t :=
  mk (socket c) p (state c) (sessionId c) (reconnectAttempts c) (reconnectDelay c)
     (reconnectTimer c) (subscriptions c) (channelMembers c) (socketPath c) (agentName c)
     (cli c) (reconnect c) (maxReconnectAttempts c) (reconnectDelayMs c)
     (reconnectMaxDelayMs c) (entityType c).

Definition with_reconnectTimer (pending : bool) (c : t) : t :=
  mk (socket c) (parser c) (state c) (sessionId c) (reconnectAttempts c) (reconnectDelay c)
     pending (subscriptions c) (channelMembers c) (socketPath c) (agentName c)
     (cli c) (reconnect c) (maxReconnectAttempts c) (reconnectDelayMs c)
     (reconnectMaxDelayMs c) (entityType c).

(** The three assignments of [handleWelcome] besides the state. *)
Definition with_session (s : option string) (attempts delay : Z) (c : t) : t :=
  mk (socket c) (parser c) (state c) s attempts delay
     (reconnectTimer c) (subscriptions c) (channelMembers c) (socketPath c) (agentName c)
     (cli c) (reconnect c) (maxReconnectAttempts c) (reconnectDelayMs c)
     (reconnectMaxDelayMs c) (entityType c).

Definition with_subscriptions (s : gset string) (c : t) : t :=
  mk (socket c) (parser c) (state c) (sessionId c) (reconnectAttempts c) (reconnectDelay c)
     (reconnectTimer c) s (channelMembers c) (socketPath c) (agentName c)
     (cli c) (reconnect c) (maxReconnectAttempts c) (reconnectDelayMs c)
     (reconnectMaxDelayMs c) (entityType c).

Definition with_channelMembers (m : gmap string (gset string)) (c : t) : t :=
  mk (socket c) (parser c) (state c) (sessionId c) (reconnectAttempts c) (reconnectDelay c)
     (reconnectTimer c) (subscriptions c) m (socketPath c) (agentName c)
     (cli c) (reconnect c) (maxReconnectAttempts c) (reconnectDelayMs c)
     (reconnectMaxDelayMs c) (entityType c).

(** [setState] *)
Definition setState (s : ClientState) (c : t) : t * list Call :=
  if decide (state c = s) then (c, []) else (with_state s c, [StateChange s]).

(** [start], the executor of its promise, which runs at the call: it does
    nothing unless the client is disconnected.  The promise is settled by
    later events and is not modelled. *)
Definition start (c : t) : t * list Call :=
  if decide (state c = DISCONNECTED) then
    let r := setState CONNECTING c in
    (with_socket (Some false) r.1,
     r.2 ++ [CreateConnection (socketPath c); SetWelcomeTimeout 10000])
  else (c, []).

(** [stop] *)
Definition stop (c : t) : t * list Call :=
  let timer := if reconnectTimer c then [ClearReconnectTimer] else [] in
  let c1 := with_reconnectTimer false c in
  let closing := match socket c1 with Some _ => [SocketEnd; SocketDestroy] | None => [] end in
  let c2 := with_socket None c1 in
  let r := setState DISCONNECTED c2 in
  (r.1, timer ++ closing ++ r.2).

Section WithJson.
Context (J : Json).

(** [sendEnvelope].  Of the calls in its [try] block, [writeUInt32BE] is the
    one modelled as throwing. *)
Definition sendEnvelope (envelope : Envelope) (c : t) : bool * list Call :=
  match socket c with
  | None => (false, [])
  | Some true => (false, [])
  | Some false =>
    let buffer := encode J envelope in
    match writeUInt32BE (N.of_nat (List.length buffer)) with
    | Some lengthBuffer => (true, [SocketWrite (lengthBuffer ++ buffer)])
    | None => (false, [])
    end
  end.

(** [sendHello] *)
Definition sendHello (env : Env) (c : t) : bool * list Call :=
  sendEnvelope
    (Build_Envelope (uuid env) PROTOCOL_VERSION HELLO None None (now env)
       (HelloPayload (agentName c) (cli c) (entityType c) PROTOCOL_VERSION)) c.

(** The listener of the socket's connect event. *)
Definition onConnect (env : Env) (c : t) : t * list Call :=
  let r := setState HANDSHAKING c in
  (r.1, r.2 ++ (sendHello env r.1).2).

(** [handleWelcome], given [payload?.sessionId]. *)
Definition handleWelcome (payloadSessionId : option string) (c : t) : t * list Call :=
  let r := setState READY c in
  (with_session payloadSessionId 0 (reconnectDelayMs c) r.1,
   r.2 ++ [EmitConnected payloadSessionId]).

(** [scheduleReconnect].  The timer it sets runs [reconnectTimerFired]. *)
Definition scheduleReconnect (c : t) : t * list Call :=
  if reconnectTimer c then (c, [])
  else
    let c1 := with_session (sessionId c) (reconnectAttempts c + 1) (reconnectDelay c) c in
    let r := setState BACKOFF c1 in
    let c2 := with_reconnectTimer true r.1 in
    (with_session (sessionId c2) (reconnectAttempts c2)
       (Z.min (reconnectDelay c2 * 2) (reconnectMaxDelayMs c2)) c2,
     r.2 ++ [SetReconnectTimer (reconnectDelay c)]).

(** The callback of the timer of [scheduleReconnect]. *)
Definition reconnectTimerFired (c : t) : t * list Call :=
  start (with_reconnectTimer false c).

(** [handleDisconnect], the listener of the socket's close event. *)
Definition handleDisconnect (c : t) : t * list Call :=
  let wasReady := bool_decide (state c = READY) in
  let r := setState DISCONNECTED c in
  let c1 := with_parser (FrameParser.reset (parser r.1)) r.1 in
  let emitted := if wasReady then [EmitDisconnected] else [] in
  if reconnect c1 && (reconnectAttempts c1 <? maxReconnectAttempts c1) then
    let r' := scheduleReconnect c1 in
    (r'.1, r.2 ++ emitted ++ r'.2)
  else (c1, r.2 ++ emitted).

(** [sendMessage] *)
Definition sendMessage (to : string) (body : Body) (kind : PayloadKind)
    (data : option SendData) (thread : option string) (env : Env) (c : t)
  : bool * list Call :=
  if decide (state c = READY) then
    sendEnvelope
      (Build_Envelope (uuid env) PROTOCOL_VERSION SEND (Some (agentName c)) (Some to)
         (now env) (SendPayload body kind data thread)) c
  else (false, []).

(** [sendAck] *)
Definition sendAck (messageId to : string) (env : Env) (c : t) : bool * list Call :=
  sendEnvelope
    (Build_Envelope (uuid env) PROTOCOL_VERSION ACK (Some (agentName c)) (Some to)
       (now env) (AckPayload messageId "delivered")) c.

(** [broadcast], called with a [WSMessage] object. *)
Definition broadcast (message : WSMessage) (env : Env) (c : t) : bool * list Call :=
  match message with
  | WsMessage data _ =>
    sendMessage "*"
      (match data with Some m => BodyText (stringifyMessage J m) | None => BodyUndefined end)
      KindMessage (Some (WrappedWSMessage message)) None env c
  | WsPresence data _ =>
    sendMessage "*"
      (match data with Some p => BodyText (stringifyPresence J p) | None => BodyUndefined end)
      KindMessage (Some (WrappedWSMessage message)) None env c
  | WsOther _ =>
    sendMessage "*" (BodyText (stringifyWSMessage J message)) KindMessage None None env c
  end.

(** [broadcast], called with a string. *)
Definition broadcastText (body : string) (kind : PayloadKind) (data : option SendData)
    (env : Env) (c : t) : bool * list Call :=
  sendMessage "*" (BodyText body) kind data None env c.

(** [sendChannelMessage] *)
Definition sendChannelMessage (channel : string) (body : Body) (thread : option string)
    (mentions : option (list string)) (env : Env) (c : t) : bool * list Call :=
  if decide (state c = READY) then
    sendEnvelope
      (Build_Envelope (uuid env) PROTOCOL_VERSION CHANNEL_MESSAGE (Some (agentName c)) None
         (now env) (ChannelMessagePayload channel body thread mentions)) c
  else (false, []).

(** [joinChannel] *)
Definition joinChannel (channel : string) (env : Env) (c : t) : bool * t * list Call :=
  if decide (state c = READY) then
    let sent :=
      sendEnvelope
        (Build_Envelope (uuid env) PROTOCOL_VERSION CHANNEL_JOIN (Some (agentName c)) None
           (now env) (ChannelPayload channel)) c in
    if sent.1 then
      (true,
       with_channelMembers
         (<[channel := default ∅ (channelMembers c !! channel) ∪ {[agentName c]}]>
            (channelMembers c)) c,
       sent.2 ++ [EmitChannelJoined channel (agentName c)])
    else (false, c, sent.2)
  else (false, c, []).

(** [leaveChannel] *)
Definition leaveChannel (channel : string) (env : Env) (c : t) : bool * t * list Call :=
  if decide (state c = READY) then
    let sent :=
      sendEnvelope
        (Build_Envelope (uuid env) PROTOCOL_VERSION CHANNEL_LEAVE (Some (agentName c)) None
           (now env) (ChannelPayload channel)) c in
    if sent.1 then
      (true,
       match channelMembers c !! channel with
       | Some members =>
         with_channelMembers (<[channel := members ∖ {[agentName c]}]> (channelMembers c)) c
       | None => c
       end,
       sent.2 ++ [EmitChannelLeft channel (agentName c)])
    else (false, c, sent.2)
  else (false, c, []).

(** [subscribe] and [unsubscribe] *)
Definition subscribe (topic : string) (env : Env) (c : t) : bool * t * list Call :=
  if decide (state c = READY) then
    let sent :=
      sendEnvelope
        (Build_Envelope (uuid env) PROTOCOL_VERSION SUBSCRIBE (Some (agentName c)) None
           (now env) (TopicPayload topic)) c in
    if sent.1 then (true, with_subscriptions (subscriptions c ∪ {[topic]}) c, sent.2)
    else (false, c, sent.2)
  else (false, c, []).

Definition unsubscribe (topic : string) (env : Env) (c : t) : bool * t * list Call :=
  if decide (state c = READY) then
    let sent :=
      sendEnvelope
        (Build_Envelope (uuid env) PROTOCOL_VERSION UNSUBSCRIBE (Some (agentName c)) None
           (now env) (TopicPayload topic)) c in
    if sent.1 then (true, with_subscriptions (subscriptions c ∖ {[topic]}) c, sent.2)
    else (false, c, sent.2)
  else (false, c, []).

(** [sendToAgent] *)
Definition sendToAgent (agentId : string) (message : WSMessage) (env : Env) (c : t)
  : list Call :=
  match message with
  | WsMessage (Some data) _ =>
    (sendMessage agentId (BodyContent (Message.content data)) KindMessage None None env c).2
  | _ => []
  end.

(** [broadcastToChannel] *)
Definition broadcastToChannel (channelId : string) (message : WSMessage) (env : Env) (c : t)
  : list Call :=
  match message with
  | WsMessage (Some data) _ =>
    (sendChannelMessage channelId (BodyContent (Message.content data)) None None env c).2
  | WsPresence (Some data) _ =>
    (sendChannelMessage channelId (BodyText (stringifyPresence J data)) None None env c).2
  | _ => []
  end.

(** [emitRelayEvent] *)
Definition emitRelayEvent (event : RelayEvent) (env : Env) (c : t) : list Call :=
  match truthy (event_target event) with
  | Some target =>
    (sendChannelMessage target (BodyText (stringifyEvent J event)) None None env c).2
  | None => (broadcastText (stringifyEvent J event) KindMessage None env c).2
  end.

End WithJson.

(** [subscribeToChannel] and [unsubscribeFromChannel] *)
Definition subscribeToChannel (agentId channelId : string) (c : t) : t :=
  with_channelMembers
    (<[channelId := default ∅ (channelMembers c !! channelId) ∪ {[agentId]}]>
       (channelMembers c)) c.

Definition unsubscribeFromChannel (agentId channelId : string) (c : t) : t :=
  match channelMembers c !! channelId with
  | Some members =>
    with_channelMembers (<[channelId := members ∖ {[agentId]}]> (channelMembers c)) c
  | None => c
  end.

(** [getConnectionCount] *)
Definition getConnectionCount (c : t) : Z := if decide (state c = READY) then 1 else 0.

(** [getChannelSubscribers]: the elements of the set, or of the empty array. *)
Definition getChannelSubscribers (channelId : string) (c : t) : gset string :=
  default ∅ (channelMembers c !! channelId).

End RelayDaemonClient.

(** * The vocabulary of the specification, and concrete registries and ledgers *)

Section AccessVocabulary.
Import ChannelService.

(** The ordering read < write < admin of the specification. *)
Definition levelRank (l : AccessLevel) : nat :=
  match l with READ => 0 | WRITE => 1 | ADMIN => 2 end.

(** Satisfaction: the actual level is at least the required one. *)
Definition satisfies (actual required : AccessLevel) : bool :=
  (levelRank required <=? levelRank actual)%nat.

(** The access-resolution order in the words of the specification: the
    first matching rule wins; without one the default access applies; a
    default of none denies. *)
Definition resolveAccess (channel : Channel.t) (identity : string)
    (required : AccessLevel) : bool :=
  match List.find (fun rule => matchRule rule identity) (Channel.accessRules channel) with
  | Some rule => satisfies (AccessRule.level rule) required
  | None =>
    match Channel.defaultAccess channel with
    | Some d => satisfies d required
    | None => false
    end
  end.

(** A rule is about an identity, in the words of the specification: its
    principal is everyone, or its principal is that identity.  (A rule whose
    principal is a role is about nobody: the code leaves role matching as a
    TODO.) *)
Definition principalMatches (rule : AccessRule.t) (identity : string) : Prop :=
  AccessRule.principalType rule = PrincipalAll \/
  (AccessRule.principalType rule = PrincipalAgent /\ AccessRule.principal rule = identity).

(** [rule] is the first rule of [rules] that is about [identity]. *)
Definition FirstMatch (rules : list AccessRule.t) (identity : string)
    (rule : AccessRule.t) : Prop :=
  exists earlier later,
    rules = earlier ++ rule :: later /\
    (forall r, In r earlier -> ~ principalMatches r identity) /\
    principalMatches rule identity.

(** The access-resolution order, for the answer [answer] on [channel]: the
    first rule about the identity decides, by its level against the required
    one; when no rule is about the identity the default access decides the
    same way, and a default of none denies.  One of the two is the case. *)
Definition ResolvedInOrder (channel : Channel.t) (identity : string)
    (required : AccessLevel) (answer : bool) : Prop :=
  (forall rule,
     FirstMatch (Channel.accessRules channel) identity rule ->
     answer = (levelRank required <=? levelRank (AccessRule.level rule))%nat) /\
  ((forall r, In r (Channel.accessRules channel) -> ~ principalMatches r identity) ->
   answer = match Channel.defaultAccess channel with
            | Some d => (levelRank required <=? levelRank d)%nat
            | None => false
            end) /\
  ((exists rule, FirstMatch (Channel.accessRules channel) identity rule) \/
   (forall r, In r (Channel.accessRules channel) -> ~ principalMatches r identity)).

End AccessVocabulary.

Section CreationVocabulary.
Import ChannelService.

(** What [create] gives a channel of each kind: its rules and its default
    access. *)
Definition accessDefaults (type : ChannelType)
  : list AccessRule.t * ChannelAccessLevelValue :=
  match type with
  | PUBLIC => ([AccessRule.mk "*" PrincipalAll WRITE], Some READ)
  | PRIVATE => ([], None)
  | BROADCAST => ([AccessRule.mk "*" PrincipalAll READ], Some READ)
  | DIRECT => ([], Some READ)
  end.

(** What the kind of a created channel means for access, for a channel
    [channel] held by the registry [cs']: its rules, its default access, and
    the answer of [checkAccess] for any identity. *)
Definition CreatedAccess (kind : ChannelType) (channel : Channel.t) (cs' : t) : Prop :=
  match kind with
  | PRIVATE =>
    Channel.accessRules channel = [] /\ Channel.defaultAccess channel = None /\
    forall agentId required,
      checkAccess (Channel.id channel) agentId (Some required) cs' = false
  | DIRECT =>
    Channel.accessRules channel = [] /\ Channel.defaultAccess channel = Some READ /\
    forall agentId required,
      checkAccess (Channel.id channel) agentId (Some required) cs'
      = bool_decide (required = READ)
  | BROADCAST =>
    Channel.accessRules channel = [AccessRule.mk "*" PrincipalAll READ] /\
    Channel.defaultAccess channel = Some READ /\
    forall agentId required,
      checkAccess (Channel.id channel) agentId (Some required) cs'
      = bool_decide (required = READ)
  | PUBLIC =>
    Channel.accessRules channel = [AccessRule.mk "*" PrincipalAll WRITE] /\
    Channel.defaultAccess channel = Some READ /\
    forall agentId required,
      checkAccess (Channel.id channel) agentId (Some required) cs'
      = negb (bool_decide (required = ADMIN))
  end.

End CreationVocabulary.

Section MembershipVocabulary.
Import ChannelService.

(** The cached count of a channel agrees with its membership set. *)
Definition countConsistent (cs : t) (channelId : string) : Prop :=
  exists channel members,
    channels cs !! channelId = Some channel /\
    memberships cs !! channelId = Some members /\
    Channel.memberCount channel = size members.

(** Joining: success, membership, and the second call as a no-op. *)
Definition JoinIdempotent (cs : t) (channelId agentId : string) : Prop :=
  exists cs1 calls,
    join channelId agentId cs = (Returned true, cs1, calls) /\
    isMember channelId agentId cs1 = true /\
    countConsistent cs1 channelId /\
    join channelId agentId cs1 = (Returned true, cs1, []).

(** Leaving: success without any access check, and a no-op for a non-member. *)
Definition LeaveIdempotent (cs : t) (channelId agentId : string) : Prop :=
  (isMember channelId agentId cs = false -> leave channelId agentId cs = (true, cs, [])) /\
  exists cs2 calls,
    leave channelId agentId cs = (true, cs2, calls) /\
    isMember channelId agentId cs2 = false /\
    countConsistent cs2 channelId /\
    leave channelId agentId cs2 = (true, cs2, []).

(** Whatever is joined or left next, on this channel or another, the count
    of [channelId] stays the size of its membership set. *)
Definition CountKept (cs : t) (channelId : string) : Prop :=
  forall target agentId,
    countConsistent (join target agentId cs).1.2 channelId /\
    countConsistent (leave target agentId cs).1.2 channelId.

End MembershipVocabulary.

Section Registries.
Import ChannelService.

(** The environment of a call: what [uuid()] returns and the time. *)
Definition at_ (u : string) (t : Z) : Env := {| uuid := u; now := t |}.

(** [new ChannelService('proj-1')] *)
Definition emptyRegistry : t := new "proj-1" false false.

(** Inputs of [create] for a direct and for a broadcast channel. *)
Definition directInput : ChannelCreateInput :=
  {| name := "pair"; type := Some DIRECT; topic := None; isPrivate := None;
     metadata := Metadata.none |}.

Definition broadcastInput : ChannelCreateInput :=
  {| name := "news"; type := Some BROADCAST; topic := None; isPrivate := None;
     metadata := Metadata.none |}.

(** A registry after a restart: the channel general comes back from storage
    with the three members it had been saved with; the broadcast channel is
    created anew. *)
Definition storedGeneral : StoredChannel.t :=
  StoredChannel.mk "ch-1" "general" "proj-1" PUBLIC
    [AccessRule.mk "*" PrincipalAll WRITE] (Some READ)
    (Metadata.mk "general" None false false) "system" 0 (Some 3%nat).

Definition restartedRegistry : t :=
  (initializeChannels [storedGeneral] (at_ "2" 10) (at_ "3" 10) (new "proj-1" false true)).1.

(** A registry started without storage: it holds the two default channels,
    general (ch-2) and announcements (ch-3). *)
Definition generalRegistry : t :=
  (initializeChannels [] (at_ "2" 10) (at_ "3" 10) (new "proj-1" false false)).1.

End Registries.

Section LedgerVocabulary.
Import MessageService.
Context (P : Platform).

(** The record [m'] is the record [m] in the delivery state [s]: it has
    that state, and every other field is the one of [m]. *)
Definition InState (s : MessageDeliveryStatus.t) (m m' : Message.t) : Prop :=
  Message.deliveryStatus m' = s /\
  Message.id m' = Message.id m /\
  Message.projectId m' = Message.projectId m /\
  Message.targetId m' = Message.targetId m /\
  Message.targetType m' = Message.targetType m /\
  Message.senderId m' = Message.senderId m /\
  Message.type m' = Message.type m /\
  Message.content m' = Message.content m /\
  Message.threadId m' = Message.threadId m /\
  Message.correlationId m' = Message.correlationId m /\
  Message.signature m' = Message.signature m /\
  Message.sentAt m' = Message.sentAt m /\
  Message.editedAt m' = Message.editedAt m /\
  Message.deletedAt m' = Message.deletedAt m.

(** The delivery state of the message stored under [messageId], if any. *)
Definition stateOf (messageId : string) (ms : t) : option MessageDeliveryStatus.t :=
  Message.deliveryStatus <$> messages ms !! messageId.

(** What [markDelivered] and [markRead] do to the message [message] stored
    under [messageId]:  [markDelivered] makes a sent message delivered and
    changes nothing when the message is delivered or read; [markRead] makes
    the message read whatever its state. *)
Definition Transitions (messageId recipientId readerId : string) (message : Message.t)
    (ms : t) : Prop :=
  match Message.deliveryStatus message with
  | MessageDeliveryStatus.SENT =>
    exists m', messages (markDelivered messageId recipientId ms) !! messageId = Some m' /\
               InState MessageDeliveryStatus.DELIVERED message m'
  | MessageDeliveryStatus.DELIVERED | MessageDeliveryStatus.READ =>
    markDelivered messageId recipientId ms = ms
  end /\
  (exists m', messages (markRead messageId readerId ms) !! messageId = Some m' /\
              InState MessageDeliveryStatus.READ message m') /\
  stateOf messageId (markDelivered messageId recipientId (markRead messageId readerId ms))
  = Some MessageDeliveryStatus.READ.

(** Nothing of the ledger [ms] changed in [ms']. *)
Definition NothingStored (ms ms' : t) : Prop :=
  messages ms' = messages ms /\
  channelMessages ms' = channelMessages ms /\
  threadMessages ms' = threadMessages ms /\
  forall channelId limit before,
    getChannelMessages channelId limit before ms'
    = getChannelMessages channelId limit before ms.

(** A send to a channel.  With a registry attached the first call is the
    access check, and a denial throws and stores nothing; without a registry
    no check is made and the message is stored. *)
Definition ChannelSendChecked (input : MessageSendInput) (senderId : string) (env : Env)
    (ms : t) : Prop :=
  match channelService ms with
  | Some cs =>
    (exists outcome ms' rest,
       send P input senderId env ms
       = (outcome, ms', CheckAccess (targetId input) senderId WRITE :: rest)) /\
    (ChannelService.checkAccess (targetId input) senderId (Some WRITE) cs = false ->
     exists ms' calls,
       send P input senderId env ms
       = (Thrown (PermissionDenied "cannot send to this channel"), ms', calls)
       /\ NothingStored ms ms')
  | None =>
    exists m ms',
      send P input senderId env ms
      = (Returned m, ms', (if storage ms then [SaveMessage m] else [])
                           ++ broadcastMessage ms m)
      /\ messages ms' !! Message.id m = Some m
  end.

(** The calls on the relay client that deliver a message, and the calls on
    the channel registry, among [calls]. *)
Definition relayCalls (calls : list Call) : list Call :=
  List.filter
    (fun c => match c with
              | BroadcastToChannel _ _ | SendToAgent _ _ | Broadcast _ => true
              | _ => false
              end) calls.

Definition accessChecks (calls : list Call) : list Call :=
  List.filter (fun c => match c with CheckAccess _ _ _ => true | _ => false end) calls.

(** A send to an agent or a broadcast send: no access check, the message
    stored, no channel index touched, the thread index extended when the input
    has a thread id, and the relay client, when attached, called once. *)
Definition DirectSendUnchecked (input : MessageSendInput) (senderId : string) (env : Env)
    (ms : t) : Prop :=
  exists m ms' calls,
    send P input senderId env ms = (Returned m, ms', calls) /\
    accessChecks calls = [] /\
    messages ms' !! Message.id m = Some m /\
    channelMessages ms' = channelMessages ms /\
    threadMessages ms' =
      match truthy (threadId input) with
      | Some thread => pushIndex thread (Message.id m) (threadMessages ms)
      | None => threadMessages ms
      end /\
    relayCalls calls =
      if relayClient ms then
        match targetType input with
        | TargetAgent => [SendToAgent (targetId input) m]
        | _ => [Broadcast m]
        end
      else [].

(** The record [m] after [m.content.text = text'], with no call to [edit]. *)
Definition tamper (text' : string) (m : Message.t) : Message.t :=
  Message.with_content (MessageContent.with_text text' (Message.content m)) m.

(** The signature of the record [m] with the text [text]: the keyed hash,
    under the key of the ledger, of the serialised id, sender, content and
    time of sending. *)
Definition signatureFor (ms : t) (m : Message.t) (text : string) : string :=
  hmacSha256Base64 P (signingKey ms)
    (JSON_stringify P
       (Build_SignedFields (Message.id m) (Message.senderId m)
          (MessageContent.with_text text (Message.content m)) (Message.sentAt m))).

(** The keyed hash tells the record [m] with the text [text'] from [m] as it
    is: the two payloads do not collide. *)
Definition Separates (ms : t) (m : Message.t) (text' : string) : Prop :=
  signatureFor ms m text' <> signatureFor ms m (MessageContent.text (Message.content m)).

(** An [edit] of [m] by its sender, with any new text: it succeeds, stores
    the text, sets [editedAt] and re-signs; the new signature is the
    original one when the text is the same, and another one when the hash
    separates the two. *)
Definition EditResigns (senderId : string) (m : Message.t) (ms1 : t) : Prop :=
  forall newText env2,
  exists m' ms2 calls2,
    edit P (Message.id m) newText senderId env2 ms1 = (Returned true, ms2, calls2) /\
    messages ms2 !! Message.id m = Some m' /\
    MessageContent.text (Message.content m') = newText /\
    Message.editedAt m' = Some (now env2) /\
    verifySignature P ms2 m' = true /\
    Message.signature m' = signatureFor ms1 m newText /\
    (newText = MessageContent.text (Message.content m) ->
     Message.signature m' = Message.signature m) /\
    (Separates ms1 m newText -> Message.signature m' <> Message.signature m).

(** The signature of a sent message [m], stored in [ms1]: valid as sent;
    on the record with its text overwritten, valid exactly when the hash
    does not separate the new text from the old, hence invalid when it does;
    valid again after an [edit]. *)
Definition SignatureRoundTrip (senderId : string) (m : Message.t) (ms1 : t) : Prop :=
  verifySignature P ms1 m = true /\
  Message.signature m = signatureFor ms1 m (MessageContent.text (Message.content m)) /\
  (forall text', Separates ms1 m text' -> verifySignature P ms1 (tamper text' m) = false) /\
  (forall text', verifySignature P ms1 (tamper text' m)
                 = bool_decide (Message.signature m = signatureFor ms1 m text')) /\
  EditResigns senderId m ms1.

End LedgerVocabulary.

Section MentionVocabulary.
Import MessageService.

(** The kind of a mention, in the words of the specification: the words all
    and here address everyone, any other identifier an identity. *)
Definition classify (word : string) : MentionType :=
  if bool_decide (word = "all" \/ word = "here") then MentionAll else MentionAgent.

(** The word of the token that starts at index [i] of [s], when one does:
    the character at [i] is an at-sign and at least one word character
    follows; the token runs over all the word characters that follow. *)
Definition tokenAt (s : string) (i : nat) : option string :=
  match String.get i s with
  | Some c =>
    if isAt c then
      match takeWord (dropString (S i) s) with
      | EmptyString => None
      | word => Some word
      end
    else None
  | None => None
  end.

(** One mention for every token, in the order of the text: it starts at the
    at-sign and is as long as the at-sign and the word together. *)
Definition mentionsOfTokens (s : string) : list Mention.t :=
  omap
    (fun i => (fun word => Mention.mk (classify word) i (S (String.length word))) <$> tokenAt s i)
    (seq 0 (String.length s)).

(** The same list, by recursion on the part [s] of the text from index [pos]. *)
Fixpoint tokenMentions (s : string) (pos : nat) : list Mention.t :=
  match s with
  | EmptyString => []
  | String c rest =>
    match isAt c, takeWord rest with
    | true, String w ws =>
      [Mention.mk (classify (String w ws)) pos (S (String.length (String w ws)))]
    | _, _ => []
    end ++ tokenMentions rest (S pos)
  end.

(** The send passes the access check, if one is made: the target is not a
    channel, or no registry is attached, or the registry grants the sender
    write access to the channel. *)
Definition SendAllowed (input : MessageSendInput) (senderId : string) (ms : t) : Prop :=
  match targetType input, channelService ms with
  | TargetChannel, Some cs =>
    ChannelService.checkAccess (targetId input) senderId (Some WRITE) cs = true
  | _, _ => True
  end.

End MentionVocabulary.

Section ListingVocabulary.
Import MessageService.
Context (P : Platform).

(** Newest first: no later element was sent after an earlier one. *)
Definition newestFirst (a b : Message.t) : Prop := Message.sentAt b <= Message.sentAt a.

(** The channel's messages that are not soft-deleted, in index order. *)
Definition channelVisible (channelId : string) (ms : t) : list Message.t :=
  List.filter notDeleted (lookupAll (default [] (channelMessages ms !! channelId)) ms).

(** Strictly older than the message the cursor resolves to; no restriction
    when the cursor is absent or resolves to nothing. *)
Definition olderThanCursor (before : option string) (ms : t) (m : Message.t) : bool :=
  match before ≫= (fun b => messages ms !! b) with
  | Some beforeMsg => Message.sentAt m <? Message.sentAt beforeMsg
  | None => true
  end.

(** Not soft-deleted, in the words of the specification: the record has no
    time of deletion. *)
Definition live (m : Message.t) : Prop := Message.deletedAt m = None.

(** The records stored for the ids of the channel's index, in index order,
    that are not soft-deleted. *)
Definition channelLive (channelId : string) (ms : t) : list Message.t :=
  List.filter (fun m => bool_decide (live m))
    (omap (fun id => messages ms !! id) (default [] (channelMessages ms !! channelId))).

(** The states of a ledger: the one the constructor makes, and those the
    operations make of a state. *)
Inductive Reached : t -> Prop :=
| Reached_new projectId relayClient channelService storage envKey env :
    Reached (new projectId relayClient channelService storage envKey env)
| Reached_send input senderId env ms :
    Reached ms -> Reached (send P input senderId env ms).1.2
| Reached_edit messageId newText editorId env ms :
    Reached ms -> Reached (edit P messageId newText editorId env ms).1.2
| Reached_delete messageId deleterId env ms :
    Reached ms -> Reached (delete messageId deleterId env ms).1.2
| Reached_markDelivered messageId recipientId ms :
    Reached ms -> Reached (markDelivered messageId recipientId ms)
| Reached_markRead messageId readerId ms :
    Reached ms -> Reached (markRead messageId readerId ms)
| Reached_registry channelService ms :
    Reached ms -> Reached (withRegistry channelService ms).

(** The general part of the statement on listings: the listing is the first
    [limit] entries of a list [full] that holds the channel's records that
    are not soft-deleted and are older than the cursor, each as often as
    the index lists it, newest first; and no listed record is
    soft-deleted. *)
Definition ListsNewestFirst (channelId : string) (limit : Z) (before : option string)
    (ms : t) : Prop :=
  (exists full,
     Permutation full (List.filter (olderThanCursor before ms) (channelLive channelId ms)) /\
     StronglySorted newestFirst full /\
     (getChannelMessages channelId (Some limit) before ms).1 = firstn (Z.to_nat limit) full) /\
  (forall m, In m (getChannelMessages channelId (Some limit) before ms).1 -> live m).

(** Three sends to one channel, at increasing times. *)
Definition ThreeSent (channelId : string) (ms0 : t) (e1 e2 e3 : Env)
    (m1 m2 m3 : Message.t) (ms3 : t) : Prop :=
  exists i1 i2 i3 s1 s2 s3 ms1 ms2 c1 c2 c3,
    channelMessages ms0 !! channelId = None /\
    (targetType i1 = TargetChannel /\ targetId i1 = channelId) /\
    (targetType i2 = TargetChannel /\ targetId i2 = channelId) /\
    (targetType i3 = TargetChannel /\ targetId i3 = channelId) /\
    send P i1 s1 e1 ms0 = (Returned m1, ms1, c1) /\
    send P i2 s2 e2 ms1 = (Returned m2, ms2, c2) /\
    send P i3 s3 e3 ms2 = (Returned m3, ms3, c3) /\
    now e1 < now e2 < now e3 /\
    uuid e1 <> uuid e2 /\ uuid e1 <> uuid e3 /\ uuid e2 <> uuid e3.

End ListingVocabulary.

Section Ledgers.
Import MessageService.

(** A stand-in platform: the serialisation keeps the text, the keyed hash
    prepends the key. *)
Definition toyPlatform : Platform :=
  {| JSON_stringify := fun f => MessageContent.text (signed_content f);
     hmacSha256Base64 := fun key payload => String.append key payload |}.

(** A registry with the default channels and a private channel ch-9. *)
Definition lockedRegistry : ChannelService.t :=
  (ChannelService.create
     {| ChannelService.name := "locked"; ChannelService.type := Some PRIVATE;
        ChannelService.topic := None; ChannelService.isPrivate := None;
        ChannelService.metadata := Metadata.none |}
     "agent-1" (at_ "9" 20) generalRegistry).1.2.

(** A ledger with the signing key of the unit tests, with or without a relay
    client and a channel registry. *)
Definition ledger (relay : bool) (registry : option ChannelService.t) : t :=
  new "proj-1" relay registry false (Some "test-signing-key") (at_ "k" 0).

(** Inputs of [send]: a text for a channel, a text for an agent. *)
Definition toChannel (channelId text : string) : MessageSendInput :=
  {| targetId := channelId; targetType := TargetChannel; type := None; text := text;
     data := None; threadId := None; correlationId := None |}.

Definition toAgent (agentId text : string) : MessageSendInput :=
  {| targetId := agentId; targetType := TargetAgent; type := None; text := text;
     data := None; threadId := None; correlationId := None |}.

(** The message of a send of hello to the channel general by agent-1, and the
    ledger after it. *)
Definition helloMessage : Message.t :=
  buildMessage toyPlatform (toChannel "ch-2" "hello") "agent-1" (at_ "1" 100)
    (ledger true (Some lockedRegistry)).

Definition helloLedger : t :=
  store (toChannel "ch-2" "hello") helloMessage (ledger true (Some lockedRegistry)).

End Ledgers.

Section ListingLedgers.
Import MessageService.

(** Three sends to the channel general, at the times 100, 200 and 300. *)
Definition ledger0 : t := ledger true (Some lockedRegistry).

Definition sentFirst : Message.t :=
  buildMessage toyPlatform (toChannel "ch-2" "first") "agent-1" (at_ "1" 100) ledger0.
Definition ledger1 : t := store (toChannel "ch-2" "first") sentFirst ledger0.

Definition sentSecond : Message.t :=
  buildMessage toyPlatform (toChannel "ch-2" "second") "agent-1" (at_ "2" 200) ledger1.
Definition ledger2 : t := store (toChannel "ch-2" "second") sentSecond ledger1.

Definition sentThird : Message.t :=
  buildMessage toyPlatform (toChannel "ch-2" "third") "agent-1" (at_ "3" 300) ledger2.
Definition ledger3 : t := store (toChannel "ch-2" "third") sentThird ledger2.

(** The same ledger after the sender has deleted the second message. *)
Definition ledgerDeleted : t := (delete "msg-2" "agent-1" (at_ "4" 400) ledger3).1.2.

End ListingLedgers.

Section RuleRegistries.
Import ChannelService.

(** The private channel ch-9 with two rules added, in this order: alice may
    administer, everyone may read. *)
Definition aliceRule : AccessRule.t := AccessRule.mk "alice" PrincipalAgent ADMIN.
Definition everyoneRule : AccessRule.t := AccessRule.mk "*" PrincipalAll READ.

Definition aliceRegistry : t :=
  (addAccessRule "ch-9" everyoneRule (addAccessRule "ch-9" aliceRule lockedRegistry).2).2.

End RuleRegistries.

Section Capabilities.
Import AuthService.

(** The capability set of the unit test on admin. *)
Definition generalAdmin : list Permission :=
  [ {| resource := "channel:general"; actions := [admin] |} ].

End Capabilities.

Section BuiltRegistries.
Import ChannelService.

(** The registries that the constructor and the synchronous operations build
    when no storage adapter is attached. *)
Inductive Built : t -> Prop :=
| Built_new projectId relayClient :
    Built (new projectId relayClient false)
| Built_create input createdBy env cs :
    Built cs -> Built (create input createdBy env cs).1.2
| Built_join channelId agentId cs :
    Built cs -> Built (join channelId agentId cs).1.2
| Built_leave channelId agentId cs :
    Built cs -> Built (leave channelId agentId cs).1.2
| Built_update channelId updates cs :
    Built cs -> Built (update channelId updates cs).2
| Built_addAccessRule channelId rule cs :
    Built cs -> Built (addAccessRule channelId rule cs).2
| Built_delete channelId cs :
    Built cs -> Built (delete channelId cs).2.

(** Every channel of the registry has a membership set, and its cached count
    is the size of that set. *)
Definition allConsistent (cs : t) : Prop :=
  forall channelId channel,
    channels cs !! channelId = Some channel -> countConsistent cs channelId.

(** A registry built by a create and a join. *)
Definition joinedRegistry : t :=
  (join "ch-5" "agent-2"
     (create
        {| name := "dev"; type := None; topic := None; isPrivate := None;
           metadata := Metadata.none |}
        "agent-1" (at_ "5" 40) (new "proj-1" true false)).1.2).1.2.

End BuiltRegistries.

Section RegistryInvariants.
Import ChannelService.

(** The registries that the constructor and the synchronous operations build
    when no storage adapter is attached and [uuid()] never returns an id that
    is in use. *)
Inductive BuiltFresh : t -> Prop :=
| BuiltFresh_new projectId relayClient :
    BuiltFresh (new projectId relayClient false)
| BuiltFresh_create input createdBy env cs :
    BuiltFresh cs ->
    channels cs !! String.append "ch-" (uuid env) = None ->
    BuiltFresh (create input createdBy env cs).1.2
| BuiltFresh_join channelId agentId cs :
    BuiltFresh cs -> BuiltFresh (join channelId agentId cs).1.2
| BuiltFresh_leave channelId agentId cs :
    BuiltFresh cs -> BuiltFresh (leave channelId agentId cs).1.2
| BuiltFresh_update channelId updates cs :
    BuiltFresh cs -> BuiltFresh (update channelId updates cs).2
| BuiltFresh_addAccessRule channelId rule cs :
    BuiltFresh cs -> BuiltFresh (addAccessRule channelId rule cs).2
| BuiltFresh_delete channelId cs :
    BuiltFresh cs -> BuiltFresh (delete channelId cs).2.

(** The name index and the channel map describe the same channels: a name
    leads to the channel that carries it, and every channel is entered under
    its own name and stored under its own, non-empty, id. *)
Definition NamesCoherent (cs : t) : Prop :=
  (forall name id,
     nameIndex cs !! name = Some id ->
     exists channel, channels cs !! id = Some channel /\ Channel.name channel = name) /\
  (forall id channel,
     channels cs !! id = Some channel ->
     nameIndex cs !! Channel.name channel = Some id /\
     Channel.id channel = id /\ id <> EmptyString).

(** What coherence gives the callers of [getByName] and [getById]. *)
Definition NamesIdentify (cs : t) : Prop :=
  (forall name channel, getByName name cs = Some channel -> Channel.name channel = name) /\
  (forall id channel,
     getById id cs = Some channel -> getByName (Channel.name channel) cs = Some channel) /\
  (forall id1 id2 channel1 channel2,
     getById id1 cs = Some channel1 -> getById id2 cs = Some channel2 ->
     Channel.name channel1 = Channel.name channel2 -> id1 = id2).

(** Every member of every membership set has read access to the channel. *)
Definition MembersCanRead (cs : t) : Prop :=
  forall channelId members agentId,
    memberships cs !! channelId = Some members ->
    agentId ∈ members ->
    checkAccess channelId agentId (Some READ) cs = true.

(** The answer of [checkAccess] after [rule] has been added to a channel
    with the rules [rules] and the default access [defaultAccess]. *)
Definition accessAfterRule (rules : list AccessRule.t) (defaultAccess : ChannelAccessLevelValue)
    (rule : AccessRule.t) (agentId : string) (required : AccessLevel) : bool :=
  match List.find (fun r => matchRule r agentId) rules with
  | Some earlier => satisfies (AccessRule.level earlier) required
  | None =>
    if matchRule rule agentId then satisfies (AccessRule.level rule) required
    else match defaultAccess with
         | Some d => satisfies d required
         | None => false
         end
  end.

(** The channel that [loadFromStorage] makes of the record that [create]
    hands to the storage adapter for [channel]. *)
Definition reloaded (channel : Channel.t) : Channel.t :=
  Channel.mk (Channel.id channel) (Channel.name channel) (Channel.projectId channel)
    (Channel.type channel) (Channel.accessRules channel)
    (Some (default READ (Channel.defaultAccess channel)))
    (Channel.metadata channel) (Channel.createdBy channel) (Channel.createdAt channel)
    (Channel.memberCount channel).

(** A private channel, as an input of [create]. *)
Definition privateInput : ChannelCreateInput :=
  {| name := "staff"; type := Some PRIVATE; topic := None; isPrivate := None;
     metadata := Metadata.none |}.

(** A registry with a storage adapter attached. *)
Definition storingRegistry : t := new "proj-1" false true.

End RegistryInvariants.

Section LedgerInvariants.
Import MessageService.
Context (P : Platform).

(** Oldest first: no later element was sent before an earlier one. *)
Definition oldestFirst (a b : Message.t) : Prop := Message.sentAt a <= Message.sentAt b.

(** The thread's messages that are not soft-deleted, in index order. *)
Definition threadVisible (threadId : string) (ms : t) : list Message.t :=
  List.filter notDeleted (lookupAll (default [] (threadMessages ms !! threadId)) ms).

(** The records stored for the ids of the thread's index, in index order,
    that are not soft-deleted. *)
Definition threadLive (threadId : string) (ms : t) : list Message.t :=
  List.filter (fun m => bool_decide (live m))
    (omap (fun id => messages ms !! id) (default [] (threadMessages ms !! threadId))).

(** Sent at the millisecond [t]. *)
Definition sentAtIs (t : Z) (m : Message.t) : bool := Message.sentAt m =? t.

(** One call on a ledger without storage adapter; [uuid()] returns an id
    that is not in use. *)
Inductive LedgerStep : t -> t -> Prop :=
| Step_send input senderId env ms :
    messages ms !! String.append "msg-" (uuid env) = None ->
    LedgerStep ms (send P input senderId env ms).1.2
| Step_edit messageId newText editorId env ms :
    LedgerStep ms (edit P messageId newText editorId env ms).1.2
| Step_delete messageId deleterId env ms :
    LedgerStep ms (delete messageId deleterId env ms).1.2
| Step_markDelivered messageId recipientId ms :
    LedgerStep ms (markDelivered messageId recipientId ms)
| Step_markRead messageId readerId ms :
    LedgerStep ms (markRead messageId readerId ms)
| Step_registry channelService ms :
    LedgerStep ms (withRegistry channelService ms).

(** The ledgers reached from a new one. *)
Definition BuiltLedger (ms : t) : Prop :=
  exists projectId relayClient channelService envKey env,
    rtc LedgerStep (new projectId relayClient channelService false envKey env) ms.

(** The order sent < delivered < read of the delivery states. *)
Definition deliveryRank (s : MessageDeliveryStatus.t) : nat :=
  match s with
  | MessageDeliveryStatus.SENT => 0
  | MessageDeliveryStatus.DELIVERED => 1
  | MessageDeliveryStatus.READ => 2
  end.

(** What a later state [m'] of a message keeps of an earlier state [m]. *)
Definition Kept (m m' : Message.t) : Prop :=
  Message.id m' = Message.id m /\
  Message.projectId m' = Message.projectId m /\
  Message.targetId m' = Message.targetId m /\
  Message.targetType m' = Message.targetType m /\
  Message.senderId m' = Message.senderId m /\
  Message.type m' = Message.type m /\
  Message.threadId m' = Message.threadId m /\
  Message.correlationId m' = Message.correlationId m /\
  Message.sentAt m' = Message.sentAt m /\
  MessageContent.data (Message.content m') = MessageContent.data (Message.content m) /\
  MessageContent.mentions (Message.content m') = MessageContent.mentions (Message.content m) /\
  MessageContent.attachments (Message.content m')
    = MessageContent.attachments (Message.content m) /\
  (deliveryRank (Message.deliveryStatus m) <= deliveryRank (Message.deliveryStatus m'))%nat /\
  (is_Some (Message.deletedAt m) -> is_Some (Message.deletedAt m')) /\
  (is_Some (Message.editedAt m) -> is_Some (Message.editedAt m')).

(** Nothing is forgotten between [ms] and [ms']: every message is still
    stored, with what [Kept] lists, and the index of every channel and of
    every thread has only grown at its end. *)
Definition History (ms ms' : t) : Prop :=
  (forall id m, messages ms !! id = Some m ->
     exists m', messages ms' !! id = Some m' /\ Kept m m') /\
  (forall channelId ids, channelMessages ms !! channelId = Some ids ->
     exists more, channelMessages ms' !! channelId = Some (ids ++ more)) /\
  (forall threadId ids, threadMessages ms !! threadId = Some ids ->
     exists more, threadMessages ms' !! threadId = Some (ids ++ more)).

(** Every stored record passes [verifySignature]. *)
Definition AllVerify (ms : t) : Prop :=
  forall id m, messages ms !! id = Some m -> verifySignature P ms m = true.

(** The complete listing of a channel below a cursor: the limit is the
    number of visible messages of the channel. *)
Definition completeListing (channelId : string) (before : option string) (ms : t)
  : list Message.t :=
  (getChannelMessages channelId
     (Some (Z.of_nat (List.length (channelVisible channelId ms)))) before ms).1.

End LedgerInvariants.

Section ThreadLedgers.
Import MessageService.

(** A reply in the thread thread-1 of a channel. *)
Definition inThread (channelId text : string) : MessageSendInput :=
  {| targetId := channelId; targetType := TargetChannel; type := None; text := text;
     data := None; threadId := Some "thread-1"; correlationId := None |}.

(** Two replies sent within the same millisecond. *)
Definition tiedFirst : Message.t :=
  buildMessage toyPlatform (inThread "ch-2" "one") "agent-1" (at_ "1" 100) ledger0.
Definition tiedLedger1 : t := store (inThread "ch-2" "one") tiedFirst ledger0.

Definition tiedSecond : Message.t :=
  buildMessage toyPlatform (inThread "ch-2" "two") "agent-1" (at_ "2" 100) tiedLedger1.
Definition tiedLedger : t := store (inThread "ch-2" "two") tiedSecond tiedLedger1.

(** The same ledger after the sender has deleted the first reply. *)
Definition threadDeleted : t := (delete "msg-1" "agent-1" (at_ "3" 300) tiedLedger).1.2.

End ThreadLedgers.

Section FramingVocabulary.
Import FrameParser.

(** The bytes that [sendEnvelope] hands to [socket.write] for the bytes
    [payload] of the serialised envelope; nothing when [writeUInt32BE]
    throws. *)
Definition frame (payload : list byte) : option (list byte) :=
  option_map (fun header => header ++ payload) (writeUInt32BE (N.of_nat (List.length payload))).

(** The frames of several payloads, one after the other, as a stream. *)
Fixpoint frames (payloads : list (list byte)) : option (list byte) :=
  match payloads with
  | [] => Some []
  | payload :: rest =>
    match frame payload, frames rest with
    | Some f, Some fs => Some (f ++ fs)
    | _, _ => None
    end
  end.

(** The error of an oversized length prefix. *)
Definition isFrameTooLarge {Envelope : Type} (event : Event Envelope) : bool :=
  match event with
  | OnError (FrameTooLarge _) => true
  | _ => false
  end.

(** Between two calls of [feed] the parser waits for bytes it does not have:
    fewer than four bytes of a length prefix, or fewer bytes than the frame
    whose length it has read, a length within the maximum. *)
Definition Waiting (p : t) : Prop :=
  match expectedLength p with
  | None => (List.length (buffer p) < 4)%nat
  | Some length =>
    (N.of_nat (List.length (buffer p)) < length)%N /\ (length <= MAX_FRAME_BYTES)%N
  end.

(** The JSON text [{}] and a parser that accepts every text as it is. *)
Definition emptyObject : list byte := [Byte.x7b; Byte.x7d].
Definition keepText (frameData : list byte) : option (list byte) := Some frameData.

End FramingVocabulary.

Section RelayVocabulary.
Import RelayDaemonClient.
Context (J : Json).

(** The call that the message service makes on its relay client, when that
    client is a daemon client: [timestamp] is the [Date.now()] of the
    caller, [env] what [uuid()] and [Date.now()] yield inside the client. *)
Definition relayLedgerCall (call : MessageService.Call) (timestamp : Z) (env : Env) (c : t)
  : list Call :=
  match call with
  | MessageService.BroadcastToChannel channelId m =>
    broadcastToChannel J channelId (WsMessage (Some m) timestamp) env c
  | MessageService.SendToAgent agentId m =>
    sendToAgent J agentId (WsMessage (Some m) timestamp) env c
  | MessageService.Broadcast m => (broadcast J (WsMessage (Some m) timestamp) env c).2
  | MessageService.EmitRelayEvent source target messageId action newText =>
    emitRelayEvent J
      (Build_RelayEvent source (Some target) messageId action newText timestamp) env c
  | _ => []
  end.

(** The call that the channel registry makes on its relay client. *)
Definition relayRegistryCall (call : ChannelService.Call) (c : t) : t :=
  match call with
  | ChannelService.SubscribeToChannel agentId channelId => subscribeToChannel agentId channelId c
  | ChannelService.UnsubscribeFromChannel agentId channelId =>
    unsubscribeFromChannel agentId channelId c
  | _ => c
  end.

Definition relayRegistryCalls (calls : list ChannelService.Call) (c : t) : t :=
  fold_left (fun acc call => relayRegistryCall call acc) calls c.

(** The relay lists for every channel the members that the registry has. *)
Definition Mirrors (cs : ChannelService.t) (c : t) : Prop :=
  forall channelId,
    getChannelSubscribers channelId c
    = default ∅ (ChannelService.memberships cs !! channelId).

(** Nothing goes out of a client in the state [c]: every sending method
    returns false, writes nothing and changes nothing, and the calls of the
    message service on its relay client have no effect. *)
Definition SendsNothing (c : t) : Prop :=
  (forall to body kind data thread env,
     sendMessage J to body kind data thread env c = (false, [])) /\
  (forall channel body thread mentions env,
     sendChannelMessage J channel body thread mentions env c = (false, [])) /\
  (forall message env, broadcast J message env c = (false, [])) /\
  (forall channel env, joinChannel J channel env c = (false, c, [])) /\
  (forall channel env, leaveChannel J channel env c = (false, c, [])) /\
  (forall topic env, subscribe J topic env c = (false, c, [])) /\
  (forall topic env, unsubscribe J topic env c = (false, c, [])) /\
  (forall call timestamp env, relayLedgerCall call timestamp env c = []).

(** A client whose connection has been lost: what [handleDisconnect] leaves
    and what the timer it set finds. *)
Definition lost (c : t) : t := (handleDisconnect c).1.
Definition afterTimer (c : t) : t := (reconnectTimerFired (lost c)).1.

End RelayVocabulary.

Section RelayClients.
Import RelayDaemonClient.

(** A stand-in for the serialisation: every envelope becomes the text of
    the empty object. *)
Definition toyJson : Json :=
  {| stringifyMessage := fun m => MessageContent.text (Message.content m);
     stringifyPresence := fun p => p;
     stringifyWSMessage := fun _ => "{}";
     stringifyEvent := fun e => event_action e;
     encode := fun _ => emptyObject |}.

(** [new RelayDaemonClient()] and the same client once it is connected and
    welcomed. *)
Definition defaultClient : t :=
  new (Build_RelayDaemonClientOptions None None None None None None None None).

Definition readyClient : t :=
  (handleWelcome (Some "session-1") (onConnect toyJson (at_ "h" 5) (start defaultClient).1).1).1.

(** A registry with a relay client attached, after the creation of one
    channel. *)
Definition createdRegistry : ChannelService.t :=
  (ChannelService.create
     {| ChannelService.name := "dev"; ChannelService.type := None;
        ChannelService.topic := None; ChannelService.isPrivate := None;
        ChannelService.metadata := Metadata.none |}
     "agent-1" (at_ "5" 40) (ChannelService.new "proj-1" true false)).1.2.

End RelayClients.

(** * Properties *)

Section ChannelProperties.
Import ChannelService.

Lemma accessLevelSatisfies_satisfies actual required :
  accessLevelSatisfies (Some actual) (Some required) = satisfies actual required.
Proof. destruct actual, required; reflexivity. Qed.

Lemma checkRules_find rules agentId required :
  checkRules rules agentId (Some required) =
  option_map (fun rule => satisfies (AccessRule.level rule) required)
    (List.find (fun rule => matchRule rule agentId) rules).
Proof.
  induction rules as [|rule rest IH]; simpl; [reflexivity|].
  destruct (matchRule rule agentId); simpl.
  - now rewrite accessLevelSatisfies_satisfies.
  - exact IH.
Qed.

Lemma checkAccess_channel cs channelId channel agentId required :
  channels cs !! channelId = Some channel ->
  checkAccess channelId agentId (Some required) cs = resolveAccess channel agentId required.
Proof.
  intros Hch. unfold checkAccess, resolveAccess. rewrite Hch, checkRules_find.
  destruct (List.find _ _); simpl; [reflexivity|].
  destruct (Channel.defaultAccess channel); [apply accessLevelSatisfies_satisfies|reflexivity].
Qed.

Lemma matchRule_principalMatches rule identity :
  matchRule rule identity = true <-> principalMatches rule identity.
Proof.
  unfold matchRule, principalMatches.
  destruct (AccessRule.principalType rule); split.
  - now left.
  - reflexivity.
  - intros H. right. split; [reflexivity|]. now apply bool_decide_eq_true in H.
  - intros [H|[_ H]]; [discriminate|]. now apply bool_decide_eq_true_2.
  - discriminate.
  - intros [H|[H _]]; discriminate.
Qed.

Lemma checkRules_firstMatch rules identity required rule :
  FirstMatch rules identity rule ->
  checkRules rules identity (Some required)
  = Some (levelRank required <=? levelRank (AccessRule.level rule))%nat.
Proof.
  intros (earlier & later & -> & Hearlier & Hrule).
  induction earlier as [|r earlier IH]; simpl.
  - apply matchRule_principalMatches in Hrule. rewrite Hrule.
    now rewrite accessLevelSatisfies_satisfies.
  - destruct (matchRule r identity) eqn:Hr.
    + exfalso. apply (Hearlier r); [now left|]. now apply matchRule_principalMatches.
    + apply IH. intros r' Hin. apply Hearlier. now right.
Qed.

Lemma checkRules_noMatch rules identity required :
  (forall r, In r rules -> ~ principalMatches r identity) ->
  checkRules rules identity required = None.
Proof.
  induction rules as [|r rules IH]; intros Hnone; simpl; [reflexivity|].
  destruct (matchRule r identity) eqn:Hr.
  - exfalso. apply (Hnone r); [now left|]. now apply matchRule_principalMatches.
  - apply IH. intros r' Hin. apply Hnone. now right.
Qed.

Lemma firstMatch_or_none rules identity :
  (exists rule, FirstMatch rules identity rule) \/
  (forall r, In r rules -> ~ principalMatches r identity).
Proof.
  induction rules as [|r rules IH]; [right; intros r []|].
  destruct (matchRule r identity) eqn:Hr.
  - left. exists r, [], rules. split; [reflexivity|]. split; [intros ? []|].
    now apply matchRule_principalMatches.
  - assert (Hnot : ~ principalMatches r identity).
    { intros H. apply matchRule_principalMatches in H. congruence. }
    destruct IH as [(rule & earlier & later & -> & Hearlier & Hrule)|Hnone].
    + left. exists rule, (r :: earlier), later. split; [reflexivity|].
      split; [|assumption]. intros r' [<-|Hin]; [assumption|now apply Hearlier].
    + right. intros r' [<-|Hin]; [assumption|now apply Hnone].
Qed.

(** C3. [checkAccess] follows the access-resolution order: on a known
    channel the first rule of the ordered list whose principal is everyone
    or is the identity itself decides, by comparing its level with the
    required one on read < write < admin; when no rule is about the
    identity the default access decides on the same ordering; a default of
    none denies.  (An unknown channel denies.) *)
Theorem checkAccess_resolution_order cs channelId agentId required :
  match channels cs !! channelId with
  | Some channel =>
    ResolvedInOrder channel agentId required
      (checkAccess channelId agentId (Some required) cs)
  | None => checkAccess channelId agentId (Some required) cs = false
  end.
Proof.
  unfold checkAccess.
  destruct (channels cs !! channelId) as [channel|] eqn:Hch; [|reflexivity].
  split; [|split].
  - intros rule Hfirst. now rewrite (checkRules_firstMatch _ _ _ _ Hfirst).
  - intros Hnone. rewrite (checkRules_noMatch _ _ _ Hnone).
    destruct (Channel.defaultAccess channel); [|reflexivity].
    apply accessLevelSatisfies_satisfies.
  - apply firstMatch_or_none.
Qed.

End ChannelProperties.

Section ChannelCreation.
Import ChannelService.

Lemma create_fresh input createdBy env cs :
  nameIndex cs !! name input = None ->
  exists channel cs' calls,
    create input createdBy env cs = (Returned channel, cs', calls) /\
    channels cs' !! Channel.id channel = Some channel /\
    memberships cs' !! Channel.id channel = Some ∅ /\
    Channel.memberCount channel = 0%nat /\
    Channel.type channel = default PUBLIC (type input) /\
    (Channel.accessRules channel, Channel.defaultAccess channel)
      = accessDefaults (default PUBLIC (type input)).
Proof.
  intros Hfree. unfold create. rewrite Hfree.
  eexists _, _, _. split; [reflexivity|]. simpl.
  rewrite !lookup_insert_eq. repeat split.
  destruct (type input) as [[]|]; reflexivity.
Qed.

(** C2, as amended.  [create] derives the access configuration from the
    channel kind: a restricted (private) channel has no rules and no default
    access, so it denies every identity; a direct channel has no rules and
    default access read, so an identity matched by no rule may read and
    nothing more; a broadcast channel has exactly the rule everyone-read and
    default access read. *)
Theorem create_access_by_kind input createdBy env cs kind :
  nameIndex cs !! name input = None ->
  type input = Some kind ->
  exists channel cs' calls,
    create input createdBy env cs = (Returned channel, cs', calls) /\
    channels cs' !! Channel.id channel = Some channel /\
    Channel.type channel = kind /\
    CreatedAccess kind channel cs'.
Proof.
  intros Hfree Hkind.
  destruct (create_fresh input createdBy env cs Hfree)
    as (channel & cs' & calls & Hc & Hlk & _ & _ & Hty & Hacc).
  exists channel, cs', calls. rewrite Hkind in Hty, Hacc. simpl in Hty, Hacc.
  repeat split; try assumption.
  unfold CreatedAccess.
  destruct kind; simpl in Hacc; injection Hacc as Hrules Hdef;
    (split; [exact Hrules|]; split; [exact Hdef|]);
    intros agentId required;
    rewrite (checkAccess_channel _ _ _ _ _ Hlk); unfold resolveAccess;
    rewrite Hrules, Hdef; simpl; destruct required; reflexivity.
Qed.

End ChannelCreation.

Section Membership.
Import ChannelService.

Lemma checkAccess_same_rules cs cs' channelId agentId required :
  (forall channel, channels cs !! channelId = Some channel ->
     exists channel', channels cs' !! channelId = Some channel' /\
       Channel.accessRules channel' = Channel.accessRules channel /\
       Channel.defaultAccess channel' = Channel.defaultAccess channel) ->
  checkAccess channelId agentId required cs = true ->
  checkAccess channelId agentId required cs' = true.
Proof.
  intros Hsame. unfold checkAccess.
  destruct (channels cs !! channelId) as [channel|] eqn:Hch; [|discriminate].
  destruct (Hsame channel eq_refl) as (channel' & -> & -> & ->). trivial.
Qed.

Lemma join_state channelId agentId cs :
  (join channelId agentId cs).1.2 = cs \/
  exists channel members,
    (join channelId agentId cs).1.2 =
    mk (<[channelId := Channel.with_memberCount (size (members ∪ {[agentId]})) channel]>
          (channels cs))
       (nameIndex cs) (<[channelId := members ∪ {[agentId]}]> (memberships cs))
       (projectId cs) (relayClient cs) (storage cs).
Proof.
  unfold join.
  destruct (channels cs !! channelId) as [channel|] eqn:Hch; [|now left].
  destruct (negb _); [now left|].
  destruct (memberships cs !! channelId) as [members|] eqn:Hm; [|now left].
  destruct (decide (agentId ∈ members)); [now left|].
  right. now exists channel, members.
Qed.

Lemma leave_state channelId agentId cs :
  (leave channelId agentId cs).1.2 = cs \/
  exists channel members,
    (leave channelId agentId cs).1.2 =
    mk (<[channelId := Channel.with_memberCount (size (members ∖ {[agentId]})) channel]>
          (channels cs))
       (nameIndex cs) (<[channelId := members ∖ {[agentId]}]> (memberships cs))
       (projectId cs) (relayClient cs) (storage cs).
Proof.
  unfold leave.
  destruct (channels cs !! channelId) as [channel|] eqn:Hch; [|now left].
  destruct (memberships cs !! channelId) as [members|] eqn:Hm; [|now left].
  destruct (decide (agentId ∈ members)); [|now left].
  right. now exists channel, members.
Qed.

Lemma countConsistent_update cs channelId target channel members' :
  countConsistent cs channelId ->
  countConsistent
    (mk (<[target := Channel.with_memberCount (size members') channel]> (channels cs))
        (nameIndex cs) (<[target := members']> (memberships cs))
        (projectId cs) (relayClient cs) (storage cs))
    channelId.
Proof.
  intros (c & m & Hc & Hm & Hn). unfold countConsistent. simpl.
  destruct (decide (target = channelId)) as [->|Hne].
  - eexists _, _. rewrite !lookup_insert_eq. repeat split.
  - exists c, m. rewrite !lookup_insert_ne by assumption. repeat split; assumption.
Qed.

(** Every [join] and every [leave], on any channel and for any identity,
    keeps the cached count of a channel equal to the size of its set. *)
Lemma join_countConsistent cs channelId target agentId :
  countConsistent cs channelId ->
  countConsistent (join target agentId cs).1.2 channelId.
Proof.
  intros Hc.
  destruct (join_state target agentId cs) as [->|(channel & members & ->)]; [assumption|].
  now apply countConsistent_update.
Qed.

Lemma leave_countConsistent cs channelId target agentId :
  countConsistent cs channelId ->
  countConsistent (leave target agentId cs).1.2 channelId.
Proof.
  intros Hc.
  destruct (leave_state target agentId cs) as [->|(channel & members & ->)]; [assumption|].
  now apply countConsistent_update.
Qed.

(** [create] establishes the agreement for the channel it makes. *)
Lemma create_countConsistent input createdBy env cs channel cs' calls :
  create input createdBy env cs = (Returned channel, cs', calls) ->
  countConsistent cs' (Channel.id channel).
Proof.
  unfold create. destruct (nameIndex cs !! name input); [discriminate|].
  intros H. injection H as <- <- _. unfold countConsistent. simpl.
  eexists _, _. rewrite !lookup_insert_eq. repeat split.
Qed.

Lemma join_member cs channelId agentId channel members :
  channels cs !! channelId = Some channel ->
  checkAccess channelId agentId (Some READ) cs = true ->
  memberships cs !! channelId = Some members ->
  agentId ∈ members ->
  join channelId agentId cs = (Returned true, cs, []).
Proof.
  intros Hch Hacc Hm Hin. unfold join. rewrite Hch, Hacc, Hm. simpl.
  destruct (decide (agentId ∈ members)); [reflexivity|contradiction].
Qed.

Lemma join_nonmember cs channelId agentId channel members :
  channels cs !! channelId = Some channel ->
  checkAccess channelId agentId (Some READ) cs = true ->
  memberships cs !! channelId = Some members ->
  agentId ∉ members ->
  join channelId agentId cs =
  (Returned true,
   mk (<[channelId := Channel.with_memberCount (size (members ∪ {[agentId]})) channel]>
         (channels cs))
      (nameIndex cs) (<[channelId := members ∪ {[agentId]}]> (memberships cs))
      (projectId cs) (relayClient cs) (storage cs),
   (if relayClient cs then [SubscribeToChannel agentId channelId] else [])
     ++ [Track agentId "channel_joined"]).
Proof.
  intros Hch Hacc Hm Hout. unfold join. rewrite Hch, Hacc, Hm. simpl.
  destruct (decide (agentId ∈ members)); [contradiction|reflexivity].
Qed.

Lemma leave_nonmember cs channelId agentId channel members :
  channels cs !! channelId = Some channel ->
  memberships cs !! channelId = Some members ->
  agentId ∉ members ->
  leave channelId agentId cs = (true, cs, []).
Proof.
  intros Hch Hm Hout. unfold leave. rewrite Hch, Hm.
  destruct (decide (agentId ∈ members)); [contradiction|reflexivity].
Qed.

Lemma leave_member cs channelId agentId channel members :
  channels cs !! channelId = Some channel ->
  memberships cs !! channelId = Some members ->
  agentId ∈ members ->
  leave channelId agentId cs =
  (true,
   mk (<[channelId := Channel.with_memberCount (size (members ∖ {[agentId]})) channel]>
         (channels cs))
      (nameIndex cs) (<[channelId := members ∖ {[agentId]}]> (memberships cs))
      (projectId cs) (relayClient cs) (storage cs),
   (if relayClient cs then [UnsubscribeFromChannel agentId channelId] else [])
     ++ [Track agentId "channel_left"]).
Proof.
  intros Hch Hm Hin. unfold leave. rewrite Hch, Hm.
  destruct (decide (agentId ∈ members)); [reflexivity|contradiction].
Qed.

(** X27.  On a channel that has a membership set whose size is its
    [memberCount] (which [create] establishes and [join] and [leave] keep):
    a [join] by an identity with read access returns true, and a second
    [join] returns true and changes nothing; [leave] returns true, and on a
    non-member it changes nothing; and after every [join] or [leave] the
    [memberCount] is again the size of the membership set. *)
Theorem join_leave_idempotent cs channelId agentId :
  countConsistent cs channelId ->
  (checkAccess channelId agentId (Some READ) cs = true ->
   JoinIdempotent cs channelId agentId) /\
  LeaveIdempotent cs channelId agentId /\
  CountKept cs channelId.
Proof.
  intros Hcons. pose proof Hcons as (channel & members & Hch & Hm & Hn).
  split; [|split].
  - intros Hacc. unfold JoinIdempotent.
    destruct (decide (agentId ∈ members)) as [Hin|Hout].
    + exists cs, []. rewrite (join_member _ _ _ _ _ Hch Hacc Hm Hin).
      repeat split; try assumption.
      unfold isMember. rewrite Hm. now apply bool_decide_eq_true_2.
    + eexists _, _. split; [apply (join_nonmember _ _ _ _ _ Hch Hacc Hm Hout)|].
      split; [|split].
      * unfold isMember. simpl. rewrite lookup_insert_eq.
        apply bool_decide_eq_true_2. set_solver.
      * now apply countConsistent_update.
      * eapply join_member; simpl; try apply lookup_insert_eq; [|set_solver].
        eapply checkAccess_same_rules; [|exact Hacc].
        intros c Hc. simpl. rewrite lookup_insert_eq. eexists. split; [reflexivity|].
        rewrite Hch in Hc. injection Hc as <-. split; reflexivity.
  - unfold LeaveIdempotent. split.
    + unfold isMember. rewrite Hm. intros Hnot.
      apply bool_decide_eq_false_1 in Hnot.
      apply (leave_nonmember _ _ _ _ _ Hch Hm Hnot).
    + destruct (decide (agentId ∈ members)) as [Hin|Hout].
      * eexists _, _. split; [apply (leave_member _ _ _ _ _ Hch Hm Hin)|].
        split; [|split].
        -- unfold isMember. simpl. rewrite lookup_insert_eq.
           apply bool_decide_eq_false_2. intros Hx.
           apply elem_of_difference in Hx as [_ Hx]. apply Hx. now apply elem_of_singleton.
        -- now apply countConsistent_update.
        -- eapply leave_nonmember; simpl; try apply lookup_insert_eq. intros Hx.
           apply elem_of_difference in Hx as [_ Hx]. apply Hx. now apply elem_of_singleton.
      * exists cs, []. rewrite (leave_nonmember _ _ _ _ _ Hch Hm Hout).
        repeat split; try assumption.
        unfold isMember. rewrite Hm. now apply bool_decide_eq_false_2.
  - intros target agent. split.
    + now apply join_countConsistent.
    + now apply leave_countConsistent.
Qed.

End Membership.

Section ChannelScenarios.
Import ChannelService.

(** C2, the claim as stated fails: a direct channel and a broadcast channel
    are created with default access read, not none, and on the direct
    channel an identity matched by no rule is allowed to read. *)
Lemma direct_and_broadcast_default_read :
  exists direct cs1 calls1 broadcast cs2 calls2,
    create directInput "agent-1" (at_ "d" 0) emptyRegistry = (Returned direct, cs1, calls1) /\
    Channel.accessRules direct = [] /\
    Channel.defaultAccess direct = Some READ /\
    checkAccess (Channel.id direct) "agent-2" (Some READ) cs1 = true /\
    create broadcastInput "agent-1" (at_ "b" 0) emptyRegistry
      = (Returned broadcast, cs2, calls2) /\
    Channel.defaultAccess broadcast = Some READ.
Proof. eexists _, _, _, _, _, _. repeat split; vm_compute; reflexivity. Qed.

Lemma create_access_by_kind_direct :
  nameIndex emptyRegistry !! name directInput = None /\
  type directInput = Some DIRECT /\
  exists channel cs' calls,
    create directInput "agent-1" (at_ "d" 0) emptyRegistry = (Returned channel, cs', calls) /\
    channels cs' !! Channel.id channel = Some channel /\
    Channel.type channel = DIRECT /\
    CreatedAccess DIRECT channel cs'.
Proof.
  split; [reflexivity|]. split; [reflexivity|].
  apply (create_access_by_kind directInput "agent-1" (at_ "d" 0) emptyRegistry DIRECT);
    reflexivity.
Defined.

(** On the channel ch-9 the rule about alice comes first: it decides for
    alice, and is passed over for bob, for whom the rule about everyone
    decides. *)
Lemma checkAccess_resolution_order_alice :
  checkAccess "ch-9" "alice" (Some ADMIN) aliceRegistry = true /\
  checkAccess "ch-9" "bob" (Some READ) aliceRegistry = true /\
  checkAccess "ch-9" "bob" (Some WRITE) aliceRegistry = false.
Proof.
  assert (Hrules : exists channel,
            channels aliceRegistry !! "ch-9" = Some channel /\
            Channel.accessRules channel = [aliceRule; everyoneRule]).
  { eexists. split; reflexivity. }
  destruct Hrules as (channel & Hch & Hrules).
  assert (Halice : FirstMatch (Channel.accessRules channel) "alice" aliceRule).
  { exists [], [everyoneRule]. split; [exact Hrules|]. split; [intros ? []|].
    right. split; reflexivity. }
  assert (Hbob : FirstMatch (Channel.accessRules channel) "bob" everyoneRule).
  { exists [aliceRule], []. split; [exact Hrules|]. split; [|now left].
    intros r [<-|[]] [H|[_ H]]; discriminate. }
  pose proof (checkAccess_resolution_order aliceRegistry "ch-9" "alice" ADMIN) as A.
  pose proof (checkAccess_resolution_order aliceRegistry "ch-9" "bob" READ) as R.
  pose proof (checkAccess_resolution_order aliceRegistry "ch-9" "bob" WRITE) as W.
  rewrite Hch in A, R, W.
  destruct A as (A & _). destruct R as (R & _). destruct W as (W & _).
  split; [exact (A _ Halice)|]. split; [exact (R _ Hbob)|exact (W _ Hbob)].
Defined.

(** C7.  The code on a channel that [loadFromStorage] restored.
    [loadFromStorage] enters the channel in [channels] and [nameIndex] but,
    unlike [create], makes no membership set for it.  So on the channel
    general as it comes back after a restart, an existing channel on which
    agent-2 has read access and is no member, [join] returns false and
    [leave] returns false, both without any effect, and the [memberCount] is
    the stored 3 with no membership set behind it. *)
Lemma join_leave_restored_channel :
  Channel.memberCount <$> channels restartedRegistry !! "ch-1" = Some 3%nat /\
  memberships restartedRegistry !! "ch-1" = None /\
  checkAccess "ch-1" "agent-2" (Some READ) restartedRegistry = true /\
  isMember "ch-1" "agent-2" restartedRegistry = false /\
  join "ch-1" "agent-2" restartedRegistry = (Returned false, restartedRegistry, []) /\
  leave "ch-1" "agent-2" restartedRegistry = (false, restartedRegistry, []).
Proof. repeat split; vm_compute; reflexivity. Qed.

Lemma join_leave_idempotent_general :
  countConsistent generalRegistry "ch-2" /\
  checkAccess "ch-2" "agent-2" (Some READ) generalRegistry = true /\
  JoinIdempotent generalRegistry "ch-2" "agent-2" /\
  LeaveIdempotent generalRegistry "ch-2" "agent-2" /\
  CountKept generalRegistry "ch-2".
Proof.
  assert (H : countConsistent generalRegistry "ch-2").
  { eexists _, _. repeat split; vm_compute; reflexivity. }
  assert (A : checkAccess "ch-2" "agent-2" (Some READ) generalRegistry = true)
    by (vm_compute; reflexivity).
  split; [exact H|]. split; [exact A|].
  destruct (join_leave_idempotent generalRegistry "ch-2" "agent-2" H) as (J & L & K).
  split; [exact (J A)|]. split; [exact L|exact K].
Defined.

End ChannelScenarios.

Section LedgerProperties.
Import MessageService.
Context (P : Platform).

(** C8. [markDelivered] moves a known message from sent to delivered, and
    leaves the ledger as it is when the message is already delivered or read
    or is unknown; [markRead] sets a known message to read whatever its
    state, and leaves the ledger as it is for an unknown one; after
    [markRead] a [markDelivered] changes nothing, so the state stays read.
    Neither touches another message or an index.  Both are total: they have
    no throwing path. *)
Theorem delivery_state_transitions ms messageId recipientId readerId :
  match messages ms !! messageId with
  | Some message => Transitions messageId recipientId readerId message ms
  | None =>
    markDelivered messageId recipientId ms = ms /\ markRead messageId readerId ms = ms
  end
  /\ (forall other, other <> messageId ->
        messages (markDelivered messageId recipientId ms) !! other = messages ms !! other
        /\ messages (markRead messageId readerId ms) !! other = messages ms !! other)
  /\ (channelMessages (markDelivered messageId recipientId ms) = channelMessages ms
      /\ threadMessages (markDelivered messageId recipientId ms) = threadMessages ms
      /\ channelMessages (markRead messageId readerId ms) = channelMessages ms
      /\ threadMessages (markRead messageId readerId ms) = threadMessages ms)
  /\ markDelivered messageId recipientId (markRead messageId readerId ms)
     = markRead messageId readerId ms.
Proof.
  assert (Hafter : markDelivered messageId recipientId (markRead messageId readerId ms)
                   = markRead messageId readerId ms).
  { unfold markRead. destruct (messages ms !! messageId) as [message|] eqn:Hm.
    - unfold markDelivered. simpl. rewrite lookup_insert_eq. reflexivity.
    - unfold markDelivered. now rewrite Hm. }
  split; [|split; [|split; [|exact Hafter]]].
  - destruct (messages ms !! messageId) as [message|] eqn:Hm.
    + unfold Transitions. split; [|split].
      * unfold markDelivered. rewrite Hm.
        destruct (Message.deliveryStatus message) eqn:Hs; try reflexivity.
        eexists. simpl. rewrite lookup_insert_eq. split; [reflexivity|].
        unfold InState. simpl. repeat split.
      * unfold markRead. rewrite Hm. eexists. simpl. rewrite lookup_insert_eq.
        split; [reflexivity|]. unfold InState. simpl. repeat split.
      * rewrite Hafter. unfold stateOf, markRead. rewrite Hm. simpl.
        now rewrite lookup_insert_eq.
    + unfold markDelivered, markRead. rewrite Hm. now split.
  - intros other Hne. unfold markDelivered, markRead.
    destruct (messages ms !! messageId) as [message|]; [|now split].
    destruct (Message.deliveryStatus message); simpl;
      rewrite ?lookup_insert_ne by congruence; auto.
  - unfold markDelivered, markRead.
    destruct (messages ms !! messageId) as [message|]; [|repeat split].
    destruct (Message.deliveryStatus message); repeat split.
Qed.

Lemma send_unchecked input senderId env ms :
  (targetType input <> TargetChannel \/ channelService ms = None) ->
  send P input senderId env ms =
  (Returned (buildMessage P input senderId env ms),
   store input (buildMessage P input senderId env ms) ms,
   (if storage ms then [SaveMessage (buildMessage P input senderId env ms)] else [])
     ++ broadcastMessage ms (buildMessage P input senderId env ms)).
Proof.
  unfold send. intros [Hne|Hnone].
  - destruct (targetType input); [contradiction| |]; reflexivity.
  - rewrite Hnone. destruct (targetType input); reflexivity.
Qed.

Lemma send_checked input senderId env ms cs :
  targetType input = TargetChannel ->
  channelService ms = Some cs ->
  send P input senderId env ms =
  if ChannelService.checkAccess (targetId input) senderId (Some WRITE) cs
  then (Returned (buildMessage P input senderId env ms),
        store input (buildMessage P input senderId env ms) ms,
        CheckAccess (targetId input) senderId WRITE
          :: (if storage ms then [SaveMessage (buildMessage P input senderId env ms)] else [])
          ++ broadcastMessage ms (buildMessage P input senderId env ms))
  else (Thrown (PermissionDenied "cannot send to this channel"), ms,
        [CheckAccess (targetId input) senderId WRITE]).
Proof.
  intros Ht Hcs. unfold send. rewrite Ht, Hcs.
  destruct (ChannelService.checkAccess _ _ _ _); reflexivity.
Qed.

(** A returned message is the one [send] built, stored under its id. *)
Lemma send_returned input senderId env ms m ms' calls :
  send P input senderId env ms = (Returned m, ms', calls) ->
  m = buildMessage P input senderId env ms /\ ms' = store input m ms /\
  messages ms' !! Message.id m = Some m.
Proof.
  intros H.
  assert (m = buildMessage P input senderId env ms /\ ms' = store input m ms) as [-> ->].
  { unfold send in H.
    destruct (targetType input), (channelService ms) as [cs|];
      try (injection H as <- <- _; now split).
    destruct (negb _); [discriminate|]. injection H as <- <- _. now split. }
  repeat split. simpl. apply lookup_insert_eq.
Qed.

(** C1, as amended.  For a send to a channel by a ledger that has a channel
    registry attached, [send] first asks the registry
    [checkAccess(targetId, senderId, write)]; when the answer is no it
    throws the permission error and nothing is stored: the message map, the
    channel index and the thread index are the same, and so is every
    channel listing.  A ledger without a registry asks nothing and stores
    the message. *)
Theorem send_channel_access_check input senderId env ms :
  targetType input = TargetChannel ->
  ChannelSendChecked P input senderId env ms.
Proof.
  intros Ht. unfold ChannelSendChecked.
  destruct (channelService ms) as [cs|] eqn:Hcs.
  - rewrite (send_checked _ _ _ _ _ Ht Hcs). split.
    + destruct (ChannelService.checkAccess _ _ _ _); eexists _, _, _; reflexivity.
    + intros ->. eexists _, _. split; [reflexivity|]. repeat split.
  - rewrite send_unchecked by now right. eexists _, _. split; [reflexivity|].
    simpl. apply lookup_insert_eq.
Qed.

(** C10, as amended.  A send to an agent or a broadcast send is never
    checked against the registry and never throws, whatever registry is
    attached and whoever the sender is: the message is stored; it is
    entered in the thread index when it carries a thread id, and in no
    channel index; and it is handed to the relay client when one is attached
    ([sendToAgent] for an agent, [broadcast] for a broadcast). *)
Theorem send_direct_or_broadcast input senderId env ms :
  targetType input = TargetAgent \/ targetType input = TargetBroadcast ->
  DirectSendUnchecked P input senderId env ms.
Proof.
  intros Ht. unfold DirectSendUnchecked.
  rewrite send_unchecked by (left; destruct Ht as [-> | ->]; discriminate).
  eexists _, _, _. split; [reflexivity|].
  assert (Hty : Message.targetType (buildMessage P input senderId env ms) = targetType input)
    by reflexivity.
  unfold broadcastMessage. rewrite Hty.
  repeat split.
  - destruct (storage ms), (relayClient ms), Ht as [-> | ->]; reflexivity.
  - simpl. apply lookup_insert_eq.
  - simpl. destruct Ht as [-> | ->]; reflexivity.
  - destruct (storage ms), (relayClient ms), Ht as [-> | ->]; reflexivity.
Qed.

Lemma verifySignature_signed ms id senderId content sentAt m :
  Message.id m = id -> Message.senderId m = senderId ->
  Message.content m = content -> Message.sentAt m = sentAt ->
  Message.signature m = signMessage P ms id senderId content sentAt ->
  verifySignature P ms m = true.
Proof.
  intros <- <- <- <- Hs. unfold verifySignature. now apply bool_decide_eq_true_2.
Qed.

(** C5, as amended.  For the message [m] that a [send] returns:
    [verifySignature] is true on the stored record; on the record with its
    text overwritten, without a call to [edit], it is false whenever the
    keyed hash tells the new payload from the original one; and an [edit] by
    the sender succeeds, stores the new text, sets [editedAt], and re-signs,
    so that [verifySignature] is true on the edited record, whose signature
    is the original one when the new text is the old text, and differs from
    it whenever the keyed hash tells the two payloads apart. *)
Theorem signature_round_trip input senderId env ms m ms1 calls :
  send P input senderId env ms = (Returned m, ms1, calls) ->
  SignatureRoundTrip P senderId m ms1.
Proof.
  intros Hsend. apply send_returned in Hsend as (-> & -> & Hstored).
  set (m := buildMessage P input senderId env ms) in *.
  set (ms1 := store input m ms) in *.
  split; [|split; [|split; [|split]]].
  - eapply verifySignature_signed; reflexivity.
  - reflexivity.
  - intros text' Hsep. unfold verifySignature. apply bool_decide_eq_false_2.
    intros Heq. apply Hsep. symmetry. exact Heq.
  - intros text'. reflexivity.
  - intros newText env2. unfold edit. rewrite Hstored.
    assert (Hs : bool_decide (Message.senderId m = senderId) = true)
      by now apply bool_decide_eq_true_2.
    rewrite Hs. eexists _, _, _. split; [reflexivity|]. simpl.
    rewrite lookup_insert_eq. split; [reflexivity|]. split; [reflexivity|].
    split; [reflexivity|]. split; [|split; [reflexivity|split]].
    + eapply verifySignature_signed; reflexivity.
    + intros ->. reflexivity.
    + intros Hsep Heq. apply Hsep. exact Heq.
Qed.

End LedgerProperties.

Section MentionProperties.
Import MessageService.

Lemma mentionOf_classify index word :
  mentionOf index word = Mention.mk (classify word) index (S (String.length word)).
Proof.
  unfold mentionOf, classify. f_equal.
  destruct (decide (word = "all")) as [->|Hall]; [reflexivity|].
  destruct (decide (word = "here")) as [->|Hhere]; [reflexivity|].
  rewrite !bool_decide_eq_false_2 by tauto. reflexivity.
Qed.

Lemma isWordChar_not_at c : isWordChar c = true -> isAt c = false.
Proof. destruct c as [[] [] [] [] [] [] [] []]; vm_compute; congruence. Qed.

Lemma dropString_dropString a b s : dropString a (dropString b s) = dropString (b + a) s.
Proof.
  revert s. induction b as [|b IH]; intros s; simpl; [reflexivity|].
  destruct s as [|c rest]; [|apply IH]. destruct a; reflexivity.
Qed.

(** The word characters after an at-sign start no token. *)
Lemma tokenMentions_skip_word s pos :
  tokenMentions s pos =
  tokenMentions (dropString (String.length (takeWord s)) s)
    (pos + String.length (takeWord s)).
Proof.
  revert pos. induction s as [|c rest IH]; intros pos; simpl.
  - reflexivity.
  - destruct (isWordChar c) eqn:Hw; simpl.
    + rewrite (isWordChar_not_at c Hw). simpl. rewrite IH. f_equal. lia.
    + rewrite Nat.add_0_r. reflexivity.
Qed.

Lemma findMatch_tokenMentions s pos :
  match findMatch s pos with
  | Some (index, word) =>
    tokenMentions s pos =
    mentionOf index word
      :: tokenMentions (dropString (index + S (String.length word) - pos) s)
           (index + S (String.length word))
  | None => tokenMentions s pos = []
  end.
Proof.
  revert pos. induction s as [|c rest IH]; intros pos; [reflexivity|].
  assert (Hnext :
    match findMatch rest (S pos) with
    | Some (index, word) =>
      tokenMentions rest (S pos) =
      mentionOf index word
        :: tokenMentions (dropString (index + S (String.length word) - pos) (String c rest))
             (index + S (String.length word))
    | None => tokenMentions rest (S pos) = []
    end).
  { specialize (IH (S pos)).
    destruct (findMatch rest (S pos)) as [[index word]|] eqn:Hf; [|exact IH].
    apply findMatch_bounds in Hf. rewrite IH.
    replace (index + S (String.length word) - pos)%nat
      with (S (index + S (String.length word) - S pos)) by lia.
    reflexivity. }
  simpl. destruct (isAt c); [|exact Hnext].
  destruct (takeWord rest) as [|w ws] eqn:Hw; [exact Hnext|].
  rewrite mentionOf_classify. simpl. f_equal.
  rewrite (tokenMentions_skip_word rest), Hw.
  replace (pos + S (S (String.length ws)) - pos)%nat with (S (S (String.length ws))) by lia.
  simpl. f_equal. lia.
Qed.

Lemma matchLoop_tokenMentions txt lastIndex :
  matchLoop txt lastIndex = tokenMentions (dropString lastIndex txt) lastIndex.
Proof.
  funelim (matchLoop txt lastIndex);
    match goal with
    | E : regexExec ?t ?k = _ |- _ =>
      pose proof (findMatch_tokenMentions (dropString k t) k) as Hf;
      pose proof E as E'; unfold regexExec in E'; rewrite E' in Hf
    end.
  - match goal with IH : matchLoop _ _ = tokenMentions _ _ |- _ => rewrite IH end.
    match goal with E : findMatch _ _ = Some _ |- _ =>
      pose proof (findMatch_bounds _ _ _ _ E) as Hb end.
    rewrite Hf, dropString_dropString.
    replace (lastIndex + (index + S (String.length word) - lastIndex))%nat
      with (index + S (String.length word))%nat by lia.
    reflexivity.
  - now rewrite Hf.
Qed.

Lemma tokenAt_head c rest :
  tokenAt (String c rest) 0 =
  if isAt c then match takeWord rest with EmptyString => None | word => Some word end
  else None.
Proof. reflexivity. Qed.

Lemma tokenAt_tail c rest i : tokenAt (String c rest) (S i) = tokenAt rest i.
Proof. reflexivity. Qed.

Lemma omap_tokenAt_tail c rest pos (l : list nat) :
  omap (fun i => (fun word => Mention.mk (classify word) (pos + i) (S (String.length word)))
                   <$> tokenAt (String c rest) i) (S <$> l)
  = omap (fun i => (fun word => Mention.mk (classify word) (S pos + i)
                                  (S (String.length word))) <$> tokenAt rest i) l.
Proof.
  induction l as [|i l IHl]; [reflexivity|].
  cbn [fmap list_fmap omap list_omap]. rewrite tokenAt_tail, IHl.
  replace (pos + S i)%nat with (S pos + i)%nat by lia. reflexivity.
Qed.

Lemma tokenMentions_positions s pos :
  tokenMentions s pos =
  omap
    (fun i =>
       (fun word => Mention.mk (classify word) (pos + i) (S (String.length word)))
         <$> tokenAt s i)
    (seq 0 (String.length s)).
Proof.
  revert pos. induction s as [|c rest IH]; intros pos; [reflexivity|].
  cbn [tokenMentions String.length seq omap list_omap]. rewrite tokenAt_head.
  rewrite <- fmap_S_seq, omap_tokenAt_tail, IH, Nat.add_0_r.
  destruct (isAt c); [|reflexivity].
  destruct (takeWord rest); reflexivity.
Qed.

Lemma extractMentions_tokens txt : extractMentions txt = mentionsOfTokens txt.
Proof.
  unfold extractMentions. rewrite matchLoop_tokenMentions. apply tokenMentions_positions.
Qed.

(** C6.  [send] records the mentions that [extractMentions] finds in the
    text: one for every token, that is, for every at-sign followed by a word,
    in the order of the text, starting at the at-sign and as long as the
    at-sign and the word together; the words all and here make an everyone
    mention, any other word an identity mention.  Every send that passes the
    access check returns a message, stored under its id, that carries the
    text and exactly these mentions; a send that does not pass throws and
    stores nothing.  The text Hello @all has the single mention
    (everyone, 6, 4). *)
Theorem send_extracts_mentions (P : Platform) input senderId env ms :
  extractMentions (text input) = mentionsOfTokens (text input)
  /\ (SendAllowed input senderId ms ->
      exists m ms' calls,
        send P input senderId env ms = (Returned m, ms', calls) /\
        messages ms' !! Message.id m = Some m /\
        MessageContent.text (Message.content m) = text input /\
        MessageContent.mentions (Message.content m) = mentionsOfTokens (text input))
  /\ (~ SendAllowed input senderId ms ->
      exists calls,
        send P input senderId env ms
        = (Thrown (PermissionDenied "cannot send to this channel"), ms, calls))
  /\ extractMentions "Hello @all" = [Mention.mk MentionAll 6 4].
Proof.
  split; [apply extractMentions_tokens|]. split; [|split; [|reflexivity]].
  - intros Hallowed.
    assert (Hsend : exists calls,
              send P input senderId env ms
              = (Returned (buildMessage P input senderId env ms),
                 store input (buildMessage P input senderId env ms) ms, calls)).
    { unfold SendAllowed in Hallowed. unfold send.
      destruct (targetType input), (channelService ms) as [cs|];
        try (eexists; reflexivity).
      rewrite Hallowed. eexists. reflexivity. }
    destruct Hsend as [calls Hsend]. eexists _, _, _. split; [exact Hsend|].
    split; [simpl; apply lookup_insert_eq|]. split; [reflexivity|].
    simpl. apply extractMentions_tokens.
  - intros Hdenied. unfold SendAllowed in Hdenied. unfold send.
    destruct (targetType input), (channelService ms) as [cs|];
      try (exfalso; apply Hdenied; exact I).
    destruct (ChannelService.checkAccess _ _ _ _); [exfalso; now apply Hdenied|].
    eexists. reflexivity.
Qed.

End MentionProperties.

Section ListingProperties.
Import MessageService.
Context (P : Platform).

Lemma insertSorted_Permutation {A : Type} (cmp : A -> A -> Z) x l :
  Permutation (insertSorted cmp x l) (x :: l).
Proof.
  induction l as [|y rest IH]; simpl; [reflexivity|].
  destruct (cmp x y <=? 0); [reflexivity|].
  rewrite IH. apply perm_swap.
Qed.

Lemma Array_sort_Permutation {A : Type} (cmp : A -> A -> Z) l :
  Permutation (Array_sort cmp l) l.
Proof.
  induction l as [|x rest IH]; simpl; [reflexivity|].
  rewrite insertSorted_Permutation. now apply perm_skip.
Qed.

Lemma insertSorted_newestFirst x l :
  StronglySorted newestFirst l ->
  StronglySorted newestFirst (insertSorted bySentAtDesc x l).
Proof.
  induction 1 as [|y rest Hs IH Hall]; simpl.
  - repeat constructor.
  - unfold bySentAtDesc at 1. destruct (Z.leb_spec (Message.sentAt y - Message.sentAt x) 0).
    + constructor; [now constructor|]. constructor; [unfold newestFirst; lia|].
      eapply Forall_impl; [exact Hall|]. unfold newestFirst. intros z Hz. simpl in Hz. lia.
    + constructor; [exact IH|].
      eapply Permutation_Forall; [symmetry; apply insertSorted_Permutation|].
      constructor; [unfold newestFirst; lia|exact Hall].
Qed.

Lemma Array_sort_newestFirst l : StronglySorted newestFirst (Array_sort bySentAtDesc l).
Proof.
  induction l as [|x rest IH]; simpl; [constructor|]. now apply insertSorted_newestFirst.
Qed.

Lemma filter_StronglySorted {A : Type} (R : A -> A -> Prop) (f : A -> bool) l :
  StronglySorted R l -> StronglySorted R (List.filter f l).
Proof.
  induction 1 as [|x rest Hs IH Hall]; simpl; [constructor|].
  destruct (f x); [|exact IH]. constructor; [exact IH|].
  apply List.Forall_forall. intros y Hy. apply filter_In in Hy as [Hy _].
  rewrite List.Forall_forall in Hall. now apply Hall.
Qed.

Lemma filter_Permutation_bool {A : Type} (f : A -> bool) l l' :
  Permutation l l' -> Permutation (List.filter f l) (List.filter f l').
Proof.
  induction 1 as [|x l l' _ IH|x y l|l l' l'' _ IH1 _ IH2]; simpl.
  - reflexivity.
  - destruct (f x); [now apply perm_skip|exact IH].
  - destruct (f x), (f y); try reflexivity. apply perm_swap.
  - now rewrite IH1.
Qed.

Lemma slice0_firstn {A : Type} (l : list A) (e : Z) :
  0 <= e -> slice0 l e = firstn (Z.to_nat e) l.
Proof. intros He. unfold slice0. destruct (Z.ltb_spec e 0); [lia|reflexivity]. Qed.

Lemma filter_true {A : Type} (l : list A) : List.filter (fun _ => true) l = l.
Proof. induction l as [|x rest IH]; simpl; congruence. Qed.

Lemma getChannelMessages_result channelId limit before ms :
  (getChannelMessages channelId limit before ms).1 =
  slice0
    (List.filter (olderThanCursor (truthy before) ms)
       (Array_sort bySentAtDesc (channelVisible channelId ms)))
    (default 50 limit).
Proof.
  unfold getChannelMessages, channelVisible. simpl. f_equal.
  assert (Hreload :
    (if match lookupAll (default [] (channelMessages ms !! channelId)) ms with
        | [] => storage ms | _ => false end
     then lookupAll (default [] (channelMessages ms !! channelId)) ms
     else lookupAll (default [] (channelMessages ms !! channelId)) ms)
    = lookupAll (default [] (channelMessages ms !! channelId)) ms)
    by now destruct (match lookupAll _ ms with [] => _ | _ => _ end).
  rewrite Hreload. unfold olderThanCursor.
  destruct (truthy before) as [b|]; simpl; [|now rewrite filter_true].
  destruct (messages ms !! b); [reflexivity|now rewrite filter_true].
Qed.

Lemma olderThanCursor_truthy before ms :
  messages ms !! "" = None ->
  olderThanCursor (truthy before) ms = olderThanCursor before ms.
Proof.
  intros Hempty. destruct before as [[|c b]|]; try reflexivity.
  unfold olderThanCursor. simpl. now rewrite Hempty.
Qed.

Lemma channelVisible_live channelId ms :
  channelVisible channelId ms = channelLive channelId ms.
Proof.
  unfold channelVisible, channelLive, lookupAll. apply filter_ext. intros m.
  unfold notDeleted, live. destruct (Message.deletedAt m); [|reflexivity].
  symmetry. now apply bool_decide_eq_false_2.
Qed.

Lemma In_firstn {A : Type} (x : A) n l : In x (firstn n l) -> In x l.
Proof.
  revert l. induction n as [|n IH]; intros [|y l]; simpl; try tauto.
  intros [->|H]; [now left|right; now apply IH].
Qed.

Lemma getChannelMessages_live channelId limit before ms m :
  In m (getChannelMessages channelId limit before ms).1 -> live m.
Proof.
  rewrite getChannelMessages_result. intros Hin.
  assert (Hfull : In m (Array_sort bySentAtDesc (channelVisible channelId ms))).
  { unfold slice0 in Hin. destruct (default 50 limit <? 0);
      apply In_firstn, filter_In in Hin; tauto. }
  eapply Permutation_in in Hfull; [|apply Array_sort_Permutation].
  rewrite channelVisible_live in Hfull. unfold channelLive in Hfull.
  apply filter_In in Hfull as [_ Hlive]. now apply bool_decide_eq_true in Hlive.
Qed.

Lemma getChannelMessages_newestFirst channelId limit before ms :
  0 <= limit -> messages ms !! "" = None ->
  ListsNewestFirst channelId limit before ms.
Proof.
  intros Hlimit Hempty. split; [|intros m; apply getChannelMessages_live].
  exists (List.filter (olderThanCursor before ms)
            (Array_sort bySentAtDesc (channelVisible channelId ms))).
  split; [|split].
  - rewrite <- channelVisible_live. apply filter_Permutation_bool, Array_sort_Permutation.
  - apply filter_StronglySorted, Array_sort_newestFirst.
  - rewrite getChannelMessages_result, olderThanCursor_truthy by assumption.
    now apply slice0_firstn.
Qed.

Lemma store_channel input m ms channelId :
  targetType input = TargetChannel ->
  targetId input = channelId ->
  channelMessages (store input m ms) !! channelId
    = Some (default [] (channelMessages ms !! channelId) ++ [Message.id m]).
Proof.
  intros Ht <-. unfold store. simpl. rewrite Ht.
  unfold pushIndex. apply lookup_insert_eq.
Qed.

Lemma buildMessage_fields input senderId env ms :
  Message.id (buildMessage P input senderId env ms) = String.append "msg-" (uuid env) /\
  Message.sentAt (buildMessage P input senderId env ms) = now env /\
  Message.deletedAt (buildMessage P input senderId env ms) = None.
Proof. repeat split. Qed.

Lemma message_id_inj u v : String.append "msg-" u = String.append "msg-" v -> u = v.
Proof.
  change (String.append "msg-" u) with (String "m" (String "s" (String "g" (String "-" u)))).
  change (String.append "msg-" v) with (String "m" (String "s" (String "g" (String "-" v)))).
  congruence.
Qed.

Lemma three_sends_listing channelId ms0 e1 e2 e3 m1 m2 m3 ms3 :
  ThreeSent P channelId ms0 e1 e2 e3 m1 m2 m3 ms3 ->
  (getChannelMessages channelId None None ms3).1 = [m3; m2; m1] /\
  (getChannelMessages channelId (Some 1) None ms3).1 = [m3] /\
  (getChannelMessages channelId None (Some (Message.id m2)) ms3).1 = [m1].
Proof.
  intros (i1 & i2 & i3 & s1 & s2 & s3 & ms1 & ms2 & c1 & c2 & c3 & Hnone
          & [Hk1 Ht1] & [Hk2 Ht2] & [Hk3 Ht3] & H1 & H2 & H3 & Htime & U12 & U13 & U23).
  apply send_returned in H1 as (Hm1 & -> & _).
  apply send_returned in H2 as (Hm2 & -> & _).
  apply send_returned in H3 as (Hm3 & -> & _).
  destruct (buildMessage_fields i1 s1 e1 ms0) as (I1 & T1 & D1). rewrite <- Hm1 in I1, T1, D1.
  match type of Hm2 with _ = buildMessage _ _ _ _ ?s =>
    destruct (buildMessage_fields i2 s2 e2 s) as (I2 & T2 & D2) end.
  rewrite <- Hm2 in I2, T2, D2.
  match type of Hm3 with _ = buildMessage _ _ _ _ ?s =>
    destruct (buildMessage_fields i3 s3 e3 s) as (I3 & T3 & D3) end.
  rewrite <- Hm3 in I3, T3, D3.
  clear Hm1 Hm2 Hm3.
  assert (N12 : Message.id m1 <> Message.id m2)
    by (rewrite I1, I2; intros E; now apply message_id_inj in E).
  assert (N13 : Message.id m1 <> Message.id m3)
    by (rewrite I1, I3; intros E; now apply message_id_inj in E).
  assert (N23 : Message.id m2 <> Message.id m3)
    by (rewrite I2, I3; intros E; now apply message_id_inj in E).
  set (ms3 := store i3 m3 (store i2 m2 (store i1 m1 ms0))).
  assert (Hidx : channelMessages ms3 !! channelId
                 = Some [Message.id m1; Message.id m2; Message.id m3]).
  { unfold ms3.
    rewrite (store_channel i3 m3 _ _ Hk3 Ht3), (store_channel i2 m2 _ _ Hk2 Ht2),
      (store_channel i1 m1 _ _ Hk1 Ht1), Hnone.
    reflexivity. }
  assert (Hmsgs : messages ms3
                  = <[Message.id m3 := m3]>
                      (<[Message.id m2 := m2]> (<[Message.id m1 := m1]> (messages ms0))))
    by reflexivity.
  clearbody ms3.
  assert (L1 : messages ms3 !! Message.id m1 = Some m1).
  { rewrite Hmsgs, !lookup_insert_ne by congruence. apply lookup_insert_eq. }
  assert (L2 : messages ms3 !! Message.id m2 = Some m2).
  { rewrite Hmsgs, lookup_insert_ne by congruence. apply lookup_insert_eq. }
  assert (L3 : messages ms3 !! Message.id m3 = Some m3).
  { rewrite Hmsgs. apply lookup_insert_eq. }
  assert (Hvis : channelVisible channelId ms3 = [m1; m2; m3]).
  { unfold channelVisible, lookupAll. rewrite Hidx. simpl. rewrite L1, L2, L3. simpl.
    unfold notDeleted. rewrite D1, D2, D3. reflexivity. }
  assert (Hsort : Array_sort bySentAtDesc [m1; m2; m3] = [m3; m2; m1]).
  { simpl. unfold bySentAtDesc.
    destruct (Z.leb_spec (Message.sentAt m3 - Message.sentAt m2) 0); [lia|]. simpl.
    destruct (Z.leb_spec (Message.sentAt m3 - Message.sentAt m1) 0); [lia|].
    destruct (Z.leb_spec (Message.sentAt m2 - Message.sentAt m1) 0); [lia|]. reflexivity. }
  rewrite !getChannelMessages_result, Hvis, Hsort.
  assert (Hcursor : truthy (Some (Message.id m2)) = Some (Message.id m2))
    by (rewrite I2; reflexivity).
  rewrite Hcursor. unfold olderThanCursor. simpl. rewrite L2.
  destruct (Z.ltb_spec (Message.sentAt m3) (Message.sentAt m2)); [lia|].
  destruct (Z.ltb_spec (Message.sentAt m2) (Message.sentAt m2)); [lia|].
  destruct (Z.ltb_spec (Message.sentAt m1) (Message.sentAt m2)); [|lia].
  repeat split.
Qed.

(** [send] keeps the ids of the ledger non-empty. *)
Lemma send_ids_not_empty input senderId env ms :
  messages ms !! "" = None ->
  messages (send P input senderId env ms).1.2 !! "" = None.
Proof.
  intros Hempty.
  destruct (send P input senderId env ms) as [[[m|e] ms'] calls] eqn:Hsend; simpl.
  - apply send_returned in Hsend as (-> & -> & _). simpl.
    rewrite lookup_insert_ne; [exact Hempty|discriminate].
  - unfold send in Hsend.
    destruct (targetType input), (channelService ms) as [cs|]; try discriminate Hsend.
    destruct (negb _); [|discriminate Hsend]. now injection Hsend as _ <- _.
Qed.

(** A state of the ledger has no message under the empty id: [send] makes
    ids that start with msg-, and the other operations store under an id
    that is in use. *)
Lemma Reached_ids ms : Reached P ms -> messages ms !! "" = None.
Proof.
  induction 1 as [projectId relayClient channelService storage envKey env
                 |input senderId env ms _ IH|messageId newText editorId env ms _ IH
                 |messageId deleterId env ms _ IH|messageId recipientId ms _ IH
                 |messageId readerId ms _ IH|channelService ms _ IH].
  - apply lookup_empty.
  - now apply send_ids_not_empty.
  - unfold edit. destruct (messages ms !! messageId) eqn:Hm; [|exact IH].
    destruct (bool_decide _); [|exact IH]. simpl.
    rewrite lookup_insert_ne; [exact IH|]. intros ->. congruence.
  - unfold delete. destruct (messages ms !! messageId) eqn:Hm; [|exact IH].
    destruct (bool_decide _); [|exact IH]. simpl.
    rewrite lookup_insert_ne; [exact IH|]. intros ->. congruence.
  - unfold markDelivered. destruct (messages ms !! messageId) as [message|] eqn:Hm;
      [|exact IH].
    destruct (Message.deliveryStatus message); try exact IH. simpl.
    rewrite lookup_insert_ne; [exact IH|]. intros ->. congruence.
  - unfold markRead. destruct (messages ms !! messageId) eqn:Hm; [|exact IH]. simpl.
    rewrite lookup_insert_ne; [exact IH|]. intros ->. congruence.
  - exact IH.
Qed.

(** C4, as amended.  In every state of the ledger and for every limit that
    is not negative, [getChannelMessages] returns the first [limit] (50 when
    no limit is given) of the channel's messages that are not soft-deleted,
    newest first by [sentAt], and, when the cursor resolves to a message,
    restricted to the messages strictly older than it; no listed message is
    soft-deleted; a cursor that resolves to nothing restricts nothing and
    raises nothing.  After three sends to a channel at times t1 < t2 < t3
    the listing is the third, second and first message; with limit 1 it is
    the third; with the second as cursor it is the first. *)
Theorem getChannelMessages_newest_first :
  (forall channelId limit before ms,
     Reached P ms -> 0 <= limit ->
     ListsNewestFirst channelId limit before ms)
  /\ (forall channelId before ms,
        getChannelMessages channelId None before ms
        = getChannelMessages channelId (Some 50) before ms)
  /\ (forall channelId limit before ms,
        before ≫= (fun b => messages ms !! b) = None ->
        (getChannelMessages channelId limit before ms).1
        = (getChannelMessages channelId limit None ms).1)
  /\ (forall channelId ms0 e1 e2 e3 m1 m2 m3 ms3,
        ThreeSent P channelId ms0 e1 e2 e3 m1 m2 m3 ms3 ->
        (getChannelMessages channelId None None ms3).1 = [m3; m2; m1] /\
        (getChannelMessages channelId (Some 1) None ms3).1 = [m3] /\
        (getChannelMessages channelId None (Some (Message.id m2)) ms3).1 = [m1]).
Proof.
  split; [|split; [|split]].
  - intros channelId limit before ms Hreached Hlimit.
    apply getChannelMessages_newestFirst; [exact Hlimit|now apply Reached_ids].
  - reflexivity.
  - intros channelId limit before ms Hnone.
    rewrite !getChannelMessages_result. do 2 f_equal.
    unfold olderThanCursor. destruct before as [[|c b]|]; try reflexivity.
    simpl in *. now rewrite Hnone.
  - intros. eapply three_sends_listing; eassumption.
Qed.

End ListingProperties.

Section CapabilityProperties.
Import AuthService.

Lemma matchAction_admin granted action :
  matchAction granted admin = true -> matchAction granted action = true.
Proof.
  unfold matchAction. intros H. apply orb_true_iff in H.
  assert (Ha : bool_decide (admin ∈ granted) = true) by (destruct H; assumption).
  rewrite Ha. apply orb_true_r.
Qed.

(** C9.  Admin subsumes read and write: a capability set that authorises
    admin on a resource authorises read and write on it; and the empty
    capability set authorises nothing. *)
Theorem admin_subsumes_read_write :
  (forall permissions resource action,
     checkPermissions permissions resource admin = true ->
     checkPermissions permissions resource action = true)
  /\ (forall permissions resource,
       checkPermissions permissions resource admin = true ->
       checkPermissions permissions resource read = true
       /\ checkPermissions permissions resource write = true)
  /\ (forall resource action, checkPermissions [] resource action = false).
Proof.
  assert (H : forall permissions resource action,
            checkPermissions permissions resource admin = true ->
            checkPermissions permissions resource action = true).
  { intros permissions resource action. unfold checkPermissions.
    rewrite !existsb_exists. intros (p & Hin & Hp).
    exists p. split; [exact Hin|].
    apply andb_true_iff in Hp as [Hr Ha]. rewrite Hr. simpl.
    now apply matchAction_admin. }
  split; [exact H|]. split; [|reflexivity].
  intros permissions resource Hadmin. split; now apply H.
Qed.

End CapabilityProperties.

Section LedgerScenarios.
Import MessageService.

(** C1, the claim as stated fails: a ledger constructed without a channel
    registry sends to a channel without any access check and stores the
    message, although the registry that holds the channel denies the sender
    write access. *)
Lemma send_without_registry_is_unchecked :
  ChannelService.checkAccess "ch-9" "agent-2" (Some WRITE) lockedRegistry = false /\
  targetType (toChannel "ch-9" "blocked") = TargetChannel /\
  forall P : Platform,
  exists m ms' calls,
    send P (toChannel "ch-9" "blocked") "agent-2" (at_ "1" 100) (ledger true None)
    = (Returned m, ms', calls) /\
    accessChecks calls = [] /\
    messages ms' !! Message.id m = Some m /\
    channelMessages ms' !! "ch-9" = Some [Message.id m].
Proof.
  split; [vm_compute; reflexivity|]. split; [reflexivity|]. intros P.
  eexists _, _, _. split; [reflexivity|]. repeat split.
Qed.

Lemma send_channel_access_check_locked :
  targetType (toChannel "ch-9" "blocked") = TargetChannel /\
  ChannelSendChecked toyPlatform (toChannel "ch-9" "blocked") "agent-2" (at_ "1" 100)
    (ledger true (Some lockedRegistry)) /\
  send toyPlatform (toChannel "ch-9" "blocked") "agent-2" (at_ "1" 100)
    (ledger true (Some lockedRegistry))
  = (Thrown (PermissionDenied "cannot send to this channel"),
     ledger true (Some lockedRegistry), [CheckAccess "ch-9" "agent-2" WRITE]).
Proof.
  split; [reflexivity|]. split; [|vm_compute; reflexivity].
  exact (send_channel_access_check toyPlatform (toChannel "ch-9" "blocked") "agent-2"
           (at_ "1" 100) (ledger true (Some lockedRegistry)) eq_refl).
Defined.

(** C10, the claim as stated fails: without a relay client a direct message
    is stored but handed to nobody, and without a thread id it enters no
    index. *)
Lemma direct_send_without_relay_not_dispatched :
  targetType (toAgent "agent-2" "ping") = TargetAgent /\
  forall P : Platform,
  exists m ms' calls,
    send P (toAgent "agent-2" "ping") "agent-1" (at_ "1" 100)
      (ledger false (Some lockedRegistry))
    = (Returned m, ms', calls) /\
    messages ms' !! Message.id m = Some m /\
    calls = [] /\
    channelMessages ms' = ∅ /\
    threadMessages ms' = ∅.
Proof.
  split; [reflexivity|]. intros P.
  eexists _, _, _. split; [reflexivity|]. repeat split.
Qed.

Lemma send_direct_or_broadcast_ping :
  (targetType (toAgent "agent-2" "ping") = TargetAgent
   \/ targetType (toAgent "agent-2" "ping") = TargetBroadcast) /\
  DirectSendUnchecked toyPlatform (toAgent "agent-2" "ping") "agent-1" (at_ "1" 100)
    (ledger true (Some lockedRegistry)).
Proof.
  split; [left; reflexivity|].
  exact (send_direct_or_broadcast toyPlatform (toAgent "agent-2" "ping") "agent-1"
           (at_ "1" 100) (ledger true (Some lockedRegistry)) (or_introl eq_refl)).
Defined.

(** C5, the claim as stated fails: an edit by the sender that keeps the text
    succeeds and sets [editedAt], and the signature is the original one,
    whatever the signing function. *)
Lemma edit_same_text_same_signature :
  text (toChannel "ch-2" "hello") = "hello" /\
  forall P : Platform,
  exists m ms1 calls m' ms2 calls2,
    send P (toChannel "ch-2" "hello") "agent-1" (at_ "1" 100)
      (ledger true (Some lockedRegistry))
    = (Returned m, ms1, calls) /\
    edit P (Message.id m) "hello" "agent-1" (at_ "2" 200) ms1 = (Returned true, ms2, calls2) /\
    messages ms2 !! Message.id m = Some m' /\
    Message.editedAt m' = Some 200 /\
    Message.signature m' = Message.signature m.
Proof.
  split; [reflexivity|]. intros P.
  eexists _, _, _, _, _, _. split; [reflexivity|]. split; [reflexivity|].
  split; [reflexivity|]. split; reflexivity.
Qed.

(** With the stand-in hash the text bye is told from the text hello, so
    the overwritten record fails the verification, and the edit to bye
    changes the signature. *)
Lemma signature_round_trip_hello :
  send toyPlatform (toChannel "ch-2" "hello") "agent-1" (at_ "1" 100)
    (ledger true (Some lockedRegistry))
  = (Returned helloMessage, helloLedger,
     [CheckAccess "ch-2" "agent-1" WRITE; BroadcastToChannel "ch-2" helloMessage]) /\
  SignatureRoundTrip toyPlatform "agent-1" helloMessage helloLedger /\
  Separates toyPlatform helloLedger helloMessage "bye" /\
  verifySignature toyPlatform helloLedger helloMessage = true /\
  verifySignature toyPlatform helloLedger (tamper "bye" helloMessage) = false.
Proof.
  assert (H : send toyPlatform (toChannel "ch-2" "hello") "agent-1" (at_ "1" 100)
                (ledger true (Some lockedRegistry))
              = (Returned helloMessage, helloLedger,
                 [CheckAccess "ch-2" "agent-1" WRITE; BroadcastToChannel "ch-2" helloMessage]))
    by reflexivity.
  assert (Hsep : Separates toyPlatform helloLedger helloMessage "bye")
    by (vm_compute; discriminate).
  pose proof (signature_round_trip toyPlatform _ _ _ _ _ _ _ H) as R.
  split; [exact H|]. split; [exact R|]. split; [exact Hsep|].
  destruct R as (Hvalid & _ & Htamper & _).
  split; [exact Hvalid|exact (Htamper "bye" Hsep)].
Defined.

(** The message hello goes from sent to delivered with [markDelivered], to
    read with [markRead], and stays read under a later [markDelivered]; an
    unknown id changes nothing. *)
Lemma delivery_state_transitions_hello :
  stateOf "msg-1" helloLedger = Some MessageDeliveryStatus.SENT /\
  stateOf "msg-1" (markDelivered "msg-1" "agent-2" helloLedger)
    = Some MessageDeliveryStatus.DELIVERED /\
  stateOf "msg-1" (markRead "msg-1" "agent-2" helloLedger)
    = Some MessageDeliveryStatus.READ /\
  stateOf "msg-1" (markDelivered "msg-1" "agent-2" (markRead "msg-1" "agent-2" helloLedger))
    = Some MessageDeliveryStatus.READ /\
  markDelivered "msg-0" "agent-2" helloLedger = helloLedger /\
  markRead "msg-0" "agent-2" helloLedger = helloLedger.
Proof.
  pose proof (delivery_state_transitions helloLedger "msg-1" "agent-2" "agent-2") as [T _].
  pose proof (delivery_state_transitions helloLedger "msg-0" "agent-2" "agent-2") as [U _].
  assert (Hknown : messages helloLedger !! "msg-1" = Some helloMessage) by reflexivity.
  assert (Hunknown : messages helloLedger !! "msg-0" = None) by reflexivity.
  rewrite Hknown in T. rewrite Hunknown in U.
  destruct T as (D & (r & Hr & Hread & _) & A).
  change (Message.deliveryStatus helloMessage) with MessageDeliveryStatus.SENT in D.
  destruct D as (d & Hd & Hdelivered & _).
  split; [reflexivity|].
  split; [unfold stateOf; rewrite Hd; simpl; now rewrite Hdelivered|].
  split; [unfold stateOf; rewrite Hr; simpl; now rewrite Hread|].
  split; [exact A|exact U].
Defined.

(** The send of Hello @all to the channel general returns a message with
    the single mention (everyone, 6, 4). *)
Lemma send_extracts_mentions_hello_all :
  SendAllowed (toChannel "ch-2" "Hello @all") "agent-1" (ledger true (Some lockedRegistry)) /\
  exists m ms' calls,
    send toyPlatform (toChannel "ch-2" "Hello @all") "agent-1" (at_ "1" 100)
      (ledger true (Some lockedRegistry))
    = (Returned m, ms', calls) /\
    messages ms' !! Message.id m = Some m /\
    MessageContent.mentions (Message.content m) = [Mention.mk MentionAll 6 4].
Proof.
  assert (Hallowed : SendAllowed (toChannel "ch-2" "Hello @all") "agent-1"
                       (ledger true (Some lockedRegistry))) by reflexivity.
  split; [exact Hallowed|].
  destruct (send_extracts_mentions toyPlatform (toChannel "ch-2" "Hello @all") "agent-1"
              (at_ "1" 100) (ledger true (Some lockedRegistry)))
    as (_ & Hsend & _ & _).
  destruct (Hsend Hallowed) as (m & ms' & calls & Hreturned & Hstored & _ & Hmentions).
  exists m, ms', calls. split; [exact Hreturned|]. split; [exact Hstored|].
  rewrite Hmentions. reflexivity.
Defined.

End LedgerScenarios.

Section ListingScenario.
Import MessageService.

Lemma three_sent :
  ThreeSent toyPlatform "ch-2" ledger0 (at_ "1" 100) (at_ "2" 200) (at_ "3" 300)
    sentFirst sentSecond sentThird ledger3.
Proof.
  exists (toChannel "ch-2" "first"), (toChannel "ch-2" "second"), (toChannel "ch-2" "third"),
    "agent-1", "agent-1", "agent-1", ledger1, ledger2.
  eexists _, _, _.
  split; [reflexivity|]. do 3 (split; [split; reflexivity|]).
  do 3 (split; [reflexivity|]).
  split; [simpl; lia|]. repeat split; discriminate.
Qed.

Lemma ledger3_Reached : Reached toyPlatform ledger3.
Proof.
  exact (Reached_send toyPlatform (toChannel "ch-2" "third") "agent-1" (at_ "3" 300) ledger2
           (Reached_send toyPlatform (toChannel "ch-2" "second") "agent-1" (at_ "2" 200) ledger1
              (Reached_send toyPlatform (toChannel "ch-2" "first") "agent-1" (at_ "1" 100)
                 ledger0
                 (Reached_new toyPlatform "proj-1" true (Some lockedRegistry) false
                    (Some "test-signing-key") (at_ "k" 0))))).
Qed.

(** The three sends of the specification, the listing with a limit and with
    a cursor, and the listing after the second message has been deleted. *)
Lemma listing_after_three_sends :
  (Reached toyPlatform ledger3 /\ 0 <= 2 /\ ListsNewestFirst "ch-2" 2 None ledger3)
  /\ (Reached toyPlatform ledgerDeleted /\ ListsNewestFirst "ch-2" 50 None ledgerDeleted
      /\ (getChannelMessages "ch-2" None None ledgerDeleted).1 = [sentThird; sentFirst])
  /\ (Some "msg-0" ≫= (fun b => messages ledger3 !! b) = None
      /\ (getChannelMessages "ch-2" None (Some "msg-0") ledger3).1
         = (getChannelMessages "ch-2" None None ledger3).1)
  /\ ThreeSent toyPlatform "ch-2" ledger0 (at_ "1" 100) (at_ "2" 200) (at_ "3" 300)
       sentFirst sentSecond sentThird ledger3
  /\ (getChannelMessages "ch-2" None None ledger3).1 = [sentThird; sentSecond; sentFirst]
  /\ (getChannelMessages "ch-2" (Some 1) None ledger3).1 = [sentThird]
  /\ (getChannelMessages "ch-2" None (Some (Message.id sentSecond)) ledger3).1 = [sentFirst].
Proof.
  destruct (getChannelMessages_newest_first toyPlatform) as (General & _ & Cursor & Scenario).
  assert (Hlimit : 0 <= 2) by lia.
  assert (Hdeleted : Reached toyPlatform ledgerDeleted)
    by (apply Reached_delete, ledger3_Reached).
  assert (Hmiss : Some "msg-0" ≫= (fun b => messages ledger3 !! b) = None)
    by (vm_compute; reflexivity).
  split; [split; [exact ledger3_Reached|split;
                  [exact Hlimit|exact (General _ _ _ _ ledger3_Reached Hlimit)]]|].
  split; [split; [exact Hdeleted|split;
                  [exact (General "ch-2" 50 None _ Hdeleted ltac:(lia))
                  |vm_compute; reflexivity]]|].
  split; [split; [exact Hmiss|exact (Cursor _ _ _ _ Hmiss)]|].
  split; [exact three_sent|].
  exact (Scenario _ _ _ _ _ _ _ _ _ three_sent).
Defined.

(** C4, the claim as stated fails for a negative limit: with the limit -1
    the listing of the three messages is not cut down to the limit, it holds
    the two newest. *)
Lemma negative_limit_is_not_a_truncation :
  (getChannelMessages "ch-2" (Some (-1)) None ledger3).1 = [sentThird; sentSecond] /\
  ~ (Z.of_nat (List.length (getChannelMessages "ch-2" (Some (-1)) None ledger3).1) <= -1).
Proof.
  assert (H : (getChannelMessages "ch-2" (Some (-1)) None ledger3).1 = [sentThird; sentSecond])
    by (vm_compute; reflexivity).
  split; [exact H|]. rewrite H. simpl. lia.
Qed.

End ListingScenario.

Section CapabilityScenario.
Import AuthService.

Lemma admin_subsumes_on_general :
  checkPermissions generalAdmin "channel:general" admin = true /\
  checkPermissions generalAdmin "channel:general" read = true /\
  checkPermissions generalAdmin "channel:general" write = true.
Proof.
  destruct admin_subsumes_read_write as (_ & Subsumes & _).
  assert (H : checkPermissions generalAdmin "channel:general" admin = true) by reflexivity.
  split; [exact H|]. exact (Subsumes _ _ H).
Defined.

(** The resource matching on the cases of the service's unit tests. *)
Example checkPermissions_wildcards :
  checkPermissions [ {| resource := "channel:*"; actions := [read; write] |} ]
    "channel:general" read = true /\
  checkPermissions [ {| resource := "channel:*"; actions := [read; write] |} ]
    "message:123" read = false /\
  checkPermissions [ {| resource := "*"; actions := [read] |} ] "anything" read = true /\
  checkPermissions [ {| resource := "message:*"; actions := [read] |} ] "message:" read = true /\
  checkPermissions [ {| resource := "message:*"; actions := [read] |} ]
    "messages:123" read = false /\
  checkPermissions [ {| resource := "channel:team:*"; actions := [read] |} ]
    "channel:other:general" read = false /\
  checkPermissions
    [ {| resource := "channel:private"; actions := [read] |};
      {| resource := "channel:*"; actions := [write] |} ] "channel:public" read = false /\
  checkPermissions [ {| resource := "channel:general"; actions := [] |} ]
    "channel:general" admin = false.
Proof. repeat split. Qed.

End CapabilityScenario.

(** ** Further properties of the registry and the ledger *)

Section RegistryFurther.
Import ChannelService.

Lemma satisfies_weaker actual required weaker :
  (levelRank weaker <= levelRank required)%nat ->
  satisfies actual required = true -> satisfies actual weaker = true.
Proof.
  unfold satisfies. intros Hle H. apply Nat.leb_le in H. apply Nat.leb_le. lia.
Qed.

(** X1.  Access is monotone in the required level: an identity that passes
    [checkAccess] for a level passes it for every lower level on
    read < write < admin. *)
Theorem checkAccess_weaker_level cs channelId agentId required weaker :
  (levelRank weaker <= levelRank required)%nat ->
  checkAccess channelId agentId (Some required) cs = true ->
  checkAccess channelId agentId (Some weaker) cs = true.
Proof.
  intros Hle. destruct (channels cs !! channelId) as [channel|] eqn:Hch.
  - rewrite !(checkAccess_channel _ _ _ _ _ Hch). unfold resolveAccess.
    destruct (List.find _ _) as [rule|]; [now apply satisfies_weaker|].
    destruct (Channel.defaultAccess channel); [now apply satisfies_weaker|trivial].
  - unfold checkAccess. now rewrite Hch.
Qed.

Lemma checkAccess_weaker_level_general :
  (levelRank READ <= levelRank WRITE)%nat /\
  checkAccess "ch-2" "agent-2" (Some WRITE) generalRegistry = true /\
  checkAccess "ch-2" "agent-2" (Some READ) generalRegistry = true.
Proof.
  assert (Hle : (levelRank READ <= levelRank WRITE)%nat) by (simpl; lia).
  assert (Hw : checkAccess "ch-2" "agent-2" (Some WRITE) generalRegistry = true)
    by (vm_compute; reflexivity).
  split; [exact Hle|]. split; [exact Hw|].
  exact (checkAccess_weaker_level generalRegistry "ch-2" "agent-2" WRITE READ Hle Hw).
Defined.

Lemma create_registers_name input createdBy env cs :
  is_Some (nameIndex (create input createdBy env cs).1.2 !! name input).
Proof.
  unfold create. destruct (nameIndex cs !! name input) as [id|] eqn:Hn; simpl.
  - rewrite Hn. eauto.
  - rewrite lookup_insert_eq. eauto.
Qed.

Lemma create_keeps_names input createdBy env cs other :
  is_Some (nameIndex cs !! other) ->
  is_Some (nameIndex (create input createdBy env cs).1.2 !! other).
Proof.
  intros Hother. unfold create. destruct (nameIndex cs !! name input) as [id|] eqn:Hn; simpl.
  - exact Hother.
  - destruct (decide (name input = other)) as [<-|Hne].
    + rewrite lookup_insert_eq. eauto.
    + now rewrite lookup_insert_ne.
Qed.

(** X2.  The bootstrap of the default channels is idempotent: run again, with
    whatever fresh ids and times, it creates nothing and calls nobody. *)
Theorem createDefaultChannels_idempotent env1 env2 env3 env4 cs :
  createDefaultChannels env3 env4 (createDefaultChannels env1 env2 cs).1
  = ((createDefaultChannels env1 env2 cs).1, []).
Proof.
  assert (Hboth : is_Some (nameIndex (createDefaultChannels env1 env2 cs).1 !! "general")
                  /\ is_Some (nameIndex (createDefaultChannels env1 env2 cs).1
                                !! "announcements")).
  { unfold createDefaultChannels.
    set (general := match nameIndex cs !! "general" with None => _ | Some _ => _ end).
    assert (Hg : is_Some (nameIndex general.1 !! "general")).
    { subst general. destruct (nameIndex cs !! "general") as [id|] eqn:Hn; simpl.
      - rewrite Hn. eauto.
      - apply (create_registers_name
                 {| name := "general"; type := Some PUBLIC;
                    topic := Some "General discussion for all agents";
                    isPrivate := None; metadata := Metadata.none |}). }
    destruct (nameIndex general.1 !! "announcements") as [id|] eqn:Ha; simpl.
    - split; [exact Hg|]. rewrite Ha. eauto.
    - split.
      + now apply create_keeps_names.
      + apply (create_registers_name
                 {| name := "announcements"; type := Some BROADCAST;
                    topic := Some "System-wide announcements";
                    isPrivate := None; metadata := Metadata.none |}). }
  destruct Hboth as [[g Hg] [a Ha]].
  generalize dependent (createDefaultChannels env1 env2 cs).1. intros cs1 Hg Ha.
  unfold createDefaultChannels. rewrite Hg. simpl. rewrite Ha. reflexivity.
Qed.

(** X3.  Deleting a channel frees its name: a [create] with the name of the
    deleted channel succeeds, and the new channel has the id the environment
    supplies, not the old one's record. *)
Theorem delete_frees_name cs channelId channel input createdBy env :
  channels cs !! channelId = Some channel ->
  name input = Channel.name channel ->
  exists channel' cs' calls,
    create input createdBy env (delete channelId cs).2 = (Returned channel', cs', calls) /\
    Channel.id channel' = String.append "ch-" (uuid env) /\
    channels cs' !! Channel.id channel' = Some channel'.
Proof.
  intros Hch Hname. unfold delete. rewrite Hch. simpl.
  unfold create. simpl. rewrite Hname, lookup_delete_eq.
  eexists _, _, _. split; [reflexivity|]. split; [reflexivity|].
  simpl. apply lookup_insert_eq.
Qed.

Lemma delete_frees_name_general :
  exists channel channel' cs' calls,
    channels generalRegistry !! "ch-2" = Some channel /\
    "general" = Channel.name channel /\
    create
      {| name := "general"; type := None; topic := None; isPrivate := None;
         metadata := Metadata.none |}
      "agent-1" (at_ "7" 30) (delete "ch-2" generalRegistry).2
    = (Returned channel', cs', calls) /\
    Channel.id channel' = "ch-7" /\
    channels cs' !! Channel.id channel' = Some channel'.
Proof.
  assert (Hch : { channel | channels generalRegistry !! "ch-2" = Some channel
                            /\ "general" = Channel.name channel }).
  { eexists. split; vm_compute; reflexivity. }
  destruct Hch as (channel & Hch & Hname).
  destruct (delete_frees_name generalRegistry "ch-2" channel
              {| name := "general"; type := None; topic := None; isPrivate := None;
                 metadata := Metadata.none |} "agent-1" (at_ "7" 30) Hch Hname)
    as (channel' & cs' & calls & Hc & Hid & Hlk).
  exists channel, channel', cs', calls. repeat split; assumption.
Defined.

Lemma allConsistent_members cs target channel members' :
  allConsistent cs ->
  allConsistent
    (mk (<[target := Channel.with_memberCount (size members') channel]> (channels cs))
        (nameIndex cs) (<[target := members']> (memberships cs))
        (projectId cs) (relayClient cs) (storage cs)).
Proof.
  intros Hall id c Hc. unfold countConsistent. simpl in *.
  destruct (decide (target = id)) as [->|Hne].
  - eexists _, _. rewrite !lookup_insert_eq. repeat split.
  - rewrite lookup_insert_ne in Hc by assumption.
    destruct (Hall id c Hc) as (c0 & m0 & Hc0 & Hm0 & Hn0).
    exists c0, m0. rewrite !lookup_insert_ne by assumption. repeat split; assumption.
Qed.

Lemma allConsistent_channel cs target channel' :
  allConsistent cs ->
  (forall channel, channels cs !! target = Some channel ->
     Channel.memberCount channel' = Channel.memberCount channel) ->
  is_Some (channels cs !! target) ->
  allConsistent (with_channels (<[target := channel']> (channels cs)) cs).
Proof.
  intros Hall Hcount [channel Hch] id c Hc. unfold countConsistent. simpl in *.
  destruct (decide (target = id)) as [->|Hne].
  - destruct (Hall id channel Hch) as (c0 & m0 & Hc0 & Hm0 & Hn0).
    exists channel', m0. rewrite lookup_insert_eq. repeat split; [assumption|].
    rewrite (Hcount _ Hch). congruence.
  - rewrite lookup_insert_ne in Hc by assumption.
    destruct (Hall id c Hc) as (c0 & m0 & Hc0 & Hm0 & Hn0).
    exists c0, m0. rewrite lookup_insert_ne by assumption. repeat split; assumption.
Qed.

(** X6.  In a registry built by the constructor and by [create], [join],
    [leave], [update], [addAccessRule] and [delete], with no storage adapter
    attached, every channel has a membership set and its [memberCount] is the
    size of that set. *)
Theorem built_registry_counts cs :
  Built cs -> allConsistent cs.
Proof.
  induction 1 as [projectId relay|input createdBy env cs _ IH|channelId agentId cs _ IH
                 |channelId agentId cs _ IH|channelId updates cs _ IH
                 |channelId rule cs _ IH|channelId cs _ IH].
  - intros id c Hc. unfold new in Hc. simpl in Hc. rewrite lookup_empty in Hc. discriminate.
  - unfold create. destruct (nameIndex cs !! name input); [exact IH|]. simpl.
    intros id c Hc. unfold countConsistent. simpl in *.
    destruct (decide (String.append "ch-" (uuid env) = id)) as [<-|Hne].
    + eexists _, _. rewrite !lookup_insert_eq. repeat split.
    + rewrite lookup_insert_ne in Hc by assumption.
      destruct (IH id c Hc) as (c0 & m0 & Hc0 & Hm0 & Hn0).
      exists c0, m0. rewrite !lookup_insert_ne by assumption. repeat split; assumption.
  - destruct (join_state channelId agentId cs) as [->|(channel & members & ->)];
      [exact IH|now apply allConsistent_members].
  - destruct (leave_state channelId agentId cs) as [->|(channel & members & ->)];
      [exact IH|now apply allConsistent_members].
  - unfold update. destruct (channels cs !! channelId) as [channel|] eqn:Hch; [|exact IH].
    simpl. apply allConsistent_channel; [exact IH| |eauto].
    intros c Hc. rewrite Hch in Hc. now injection Hc as <-.
  - unfold addAccessRule. destruct (channels cs !! channelId) as [channel|] eqn:Hch; [|exact IH].
    simpl. apply allConsistent_channel; [exact IH| |eauto].
    intros c Hc. rewrite Hch in Hc. now injection Hc as <-.
  - unfold delete. destruct (channels cs !! channelId) as [channel|] eqn:Hch; [|exact IH].
    simpl. intros id c Hc. unfold countConsistent. simpl in *.
    destruct (decide (channelId = id)) as [->|Hne].
    + rewrite lookup_delete_eq in Hc. discriminate.
    + rewrite lookup_delete_ne in Hc by assumption.
      destruct (IH id c Hc) as (c0 & m0 & Hc0 & Hm0 & Hn0).
      exists c0, m0. rewrite !lookup_delete_ne by assumption. repeat split; assumption.
Qed.

Lemma built_registry_counts_joined :
  Built joinedRegistry /\
  allConsistent joinedRegistry /\
  Channel.memberCount <$> channels joinedRegistry !! "ch-5" = Some 1%nat.
Proof.
  assert (B : Built joinedRegistry) by (apply Built_join, Built_create, Built_new).
  split; [exact B|]. split; [exact (built_registry_counts joinedRegistry B)|].
  vm_compute. reflexivity.
Defined.

End RegistryFurther.

Section LedgerFurther.
Import MessageService.

Lemma slice0_In {A : Type} (l : list A) (e : Z) x : In x (slice0 l e) -> In x l.
Proof.
  unfold slice0. intros H. apply list_elem_of_In. apply list_elem_of_In in H.
  destruct (e <? 0); eapply subseteq_take; exact H.
Qed.

Lemma getChannelMessages_visible channelId limit before ms r :
  In r (getChannelMessages channelId limit before ms).1 ->
  In r (channelVisible channelId ms).
Proof.
  rewrite getChannelMessages_result. intros H.
  apply slice0_In, filter_In in H as [H _].
  eapply Permutation_in; [apply Array_sort_Permutation|exact H].
Qed.

(** X4.  A [delete] by the sender is a soft delete: the message stays
    retrievable by id, with [deletedAt] set, and no channel listing returns
    a record that is soft-deleted, the deleted one included. *)
Theorem delete_is_soft messageId deleterId env ms message :
  messages ms !! messageId = Some message ->
  Message.senderId message = deleterId ->
  exists ms' calls,
    delete messageId deleterId env ms = (Returned true, ms', calls) /\
    getById messageId ms' = Some (Message.with_deletedAt (Some (now env)) message) /\
    forall channelId limit before r,
      In r (getChannelMessages channelId limit before ms').1 ->
      Message.deletedAt r = None /\
      r <> Message.with_deletedAt (Some (now env)) message.
Proof.
  intros Hm Hsender. unfold delete. rewrite Hm.
  rewrite (bool_decide_eq_true_2 _ Hsender).
  eexists _, _. split; [reflexivity|]. split; [apply lookup_insert_eq|].
  intros channelId limit before r Hr.
  apply getChannelMessages_visible in Hr. unfold channelVisible in Hr.
  apply filter_In in Hr as [_ Hvisible]. unfold notDeleted in Hvisible.
  destruct (Message.deletedAt r) eqn:Hd; [discriminate|].
  split; [reflexivity|]. intros ->. discriminate Hd.
Qed.

Lemma delete_is_soft_hello :
  messages helloLedger !! "msg-1" = Some helloMessage /\
  Message.senderId helloMessage = "agent-1" /\
  exists ms' calls,
    delete "msg-1" "agent-1" (at_ "2" 200) helloLedger = (Returned true, ms', calls) /\
    getById "msg-1" ms' = Some (Message.with_deletedAt (Some 200) helloMessage) /\
    forall channelId limit before r,
      In r (getChannelMessages channelId limit before ms').1 ->
      Message.deletedAt r = None /\
      r <> Message.with_deletedAt (Some 200) helloMessage.
Proof.
  assert (Hm : messages helloLedger !! "msg-1" = Some helloMessage) by (vm_compute; reflexivity).
  assert (Hs : Message.senderId helloMessage = "agent-1") by reflexivity.
  split; [exact Hm|]. split; [exact Hs|].
  exact (delete_is_soft "msg-1" "agent-1" (at_ "2" 200) helloLedger helloMessage Hm Hs).
Defined.

Lemma slice0_all {A : Type} (l : list A) (e : Z) :
  Z.of_nat (List.length l) <= e -> slice0 l e = l.
Proof.
  intros He. unfold slice0. destruct (Z.ltb_spec e 0); [lia|].
  apply firstn_all2. lia.
Qed.

Lemma channelVisible_length channelId ms :
  List.length (Array_sort bySentAtDesc (channelVisible channelId ms))
  = List.length (channelVisible channelId ms).
Proof. apply Permutation_length, Array_sort_Permutation. Qed.

(** X5.  A message that [send] returned for a channel is in the listing of
    that channel, whenever the limit is at least the number of messages of
    the channel that are not soft-deleted. *)
Theorem sent_message_is_listed (P : Platform) input senderId env ms m ms' calls limit :
  send P input senderId env ms = (Returned m, ms', calls) ->
  targetType input = TargetChannel ->
  Z.of_nat (List.length (channelVisible (targetId input) ms')) <= limit ->
  In m (getChannelMessages (targetId input) (Some limit) None ms').1.
Proof.
  intros Hsend Hkind Hlimit. apply send_returned in Hsend as (Hm & -> & Hstored).
  rewrite getChannelMessages_result. simpl.
  rewrite slice0_all.
  - unfold olderThanCursor. simpl. rewrite filter_true.
    eapply Permutation_in; [symmetry; apply Array_sort_Permutation|].
    unfold channelVisible. apply filter_In. split.
    + unfold lookupAll. apply list_elem_of_In, list_elem_of_omap.
      exists (Message.id m). split; [|exact Hstored].
      rewrite (store_channel input m ms _ Hkind eq_refl). simpl.
      apply list_elem_of_In, in_or_app. right. now left.
    + rewrite Hm. reflexivity.
  - unfold olderThanCursor. simpl. rewrite filter_true, channelVisible_length. exact Hlimit.
Qed.

Lemma sent_message_is_listed_hello :
  send toyPlatform (toChannel "ch-2" "hello") "agent-1" (at_ "1" 100)
    (ledger true (Some lockedRegistry))
  = (Returned helloMessage, helloLedger,
     [CheckAccess "ch-2" "agent-1" WRITE; BroadcastToChannel "ch-2" helloMessage]) /\
  targetType (toChannel "ch-2" "hello") = TargetChannel /\
  Z.of_nat (List.length (channelVisible "ch-2" helloLedger)) <= 50 /\
  In helloMessage (getChannelMessages "ch-2" (Some 50) None helloLedger).1.
Proof.
  assert (H : send toyPlatform (toChannel "ch-2" "hello") "agent-1" (at_ "1" 100)
                (ledger true (Some lockedRegistry))
              = (Returned helloMessage, helloLedger,
                 [CheckAccess "ch-2" "agent-1" WRITE; BroadcastToChannel "ch-2" helloMessage]))
    by reflexivity.
  assert (L : Z.of_nat (List.length (channelVisible "ch-2" helloLedger)) <= 50)
    by (vm_compute; discriminate).
  split; [exact H|]. split; [reflexivity|]. split; [exact L|].
  exact (sent_message_is_listed toyPlatform _ _ _ _ _ _ _ 50 H eq_refl L).
Defined.

End LedgerFurther.

Section RegistryInvariantProperties.
Import ChannelService.

Lemma NamesCoherent_insert_same cs channelId channel channel' :
  NamesCoherent cs ->
  channels cs !! channelId = Some channel ->
  Channel.name channel' = Channel.name channel ->
  Channel.id channel' = Channel.id channel ->
  forall ms,
  NamesCoherent
    (mk (<[channelId := channel']> (channels cs)) (nameIndex cs) ms
        (projectId cs) (relayClient cs) (storage cs)).
Proof.
  intros [Hn Hc] Hch Hname Hid ms. split; simpl.
  - intros name id Hi. destruct (Hn name id Hi) as (c & Hcid & Hcn).
    destruct (decide (channelId = id)) as [->|Hne].
    + exists channel'. rewrite lookup_insert_eq. split; [reflexivity|]. congruence.
    + exists c. now rewrite lookup_insert_ne.
  - intros id c. destruct (decide (channelId = id)) as [->|Hne].
    + rewrite lookup_insert_eq. intros [= <-]. rewrite Hname, Hid. now apply Hc.
    + rewrite lookup_insert_ne by assumption. apply Hc.
Qed.

Lemma create_NamesCoherent input createdBy env cs :
  NamesCoherent cs ->
  channels cs !! String.append "ch-" (uuid env) = None ->
  NamesCoherent (create input createdBy env cs).1.2.
Proof.
  intros [Hn Hc] Hfresh. unfold create.
  destruct (nameIndex cs !! name input) eqn:Hfree; [now split|].
  split; simpl.
  - intros name id. destruct (decide (ChannelService.name input = name)) as [->|Hne].
    + rewrite lookup_insert_eq. intros [= <-]. eexists. rewrite lookup_insert_eq.
      split; reflexivity.
    + rewrite lookup_insert_ne by assumption. intros Hi.
      destruct (Hn name id Hi) as (c & Hcid & Hcn). exists c. split; [|assumption].
      rewrite lookup_insert_ne; [assumption|]. intros <-. congruence.
  - intros id c. destruct (decide (String.append "ch-" (uuid env) = id)) as [<-|Hne].
    + rewrite lookup_insert_eq. intros [= <-]. simpl. rewrite lookup_insert_eq.
      repeat split. discriminate.
    + rewrite lookup_insert_ne by assumption. intros Hcid.
      destruct (Hc id c Hcid) as (Hi & Hid & Hnonempty). repeat split; try assumption.
      rewrite lookup_insert_ne; [assumption|]. intros Heq. congruence.
Qed.

Lemma delete_NamesCoherent channelId cs :
  NamesCoherent cs -> NamesCoherent (delete channelId cs).2.
Proof.
  intros [Hn Hc]. unfold delete.
  destruct (channels cs !! channelId) as [channel|] eqn:Hch; [|now split].
  destruct (Hc _ _ Hch) as (Hi & Hid & _).
  split; simpl.
  - intros name id. destruct (decide (Channel.name channel = name)) as [<-|Hne].
    + now rewrite lookup_delete_eq.
    + rewrite lookup_delete_ne by assumption. intros Hi'.
      destruct (Hn name id Hi') as (c & Hcid & Hcn). exists c. split; [|assumption].
      rewrite lookup_delete_ne; [assumption|]. intros <-. congruence.
  - intros id c. destruct (decide (channelId = id)) as [<-|Hne].
    + now rewrite lookup_delete_eq.
    + rewrite lookup_delete_ne by assumption. intros Hcid.
      destruct (Hc id c Hcid) as (Hi' & Hid' & Hnonempty). repeat split; try assumption.
      rewrite lookup_delete_ne; [assumption|]. intros Heq. rewrite Heq in Hi. congruence.
Qed.

Lemma BuiltFresh_NamesCoherent cs : BuiltFresh cs -> NamesCoherent cs.
Proof.
  induction 1 as [projectId relayClient|input createdBy env cs _ IH Hfresh
                 |channelId agentId cs _ IH|channelId agentId cs _ IH
                 |channelId updates cs _ IH|channelId rule cs _ IH|channelId cs _ IH].
  - split; simpl; intros ? ?; rewrite lookup_empty; discriminate.
  - now apply create_NamesCoherent.
  - unfold join.
    destruct (channels cs !! channelId) as [channel|] eqn:Hch; [|assumption].
    destruct (negb _); [assumption|].
    destruct (memberships cs !! channelId) as [members|]; [|assumption].
    destruct (decide (agentId ∈ members)); [assumption|].
    now apply (NamesCoherent_insert_same cs channelId channel).
  - unfold leave.
    destruct (channels cs !! channelId) as [channel|] eqn:Hch; [|assumption].
    destruct (memberships cs !! channelId) as [members|]; [|assumption].
    destruct (decide (agentId ∈ members)); [|assumption].
    now apply (NamesCoherent_insert_same cs channelId channel).
  - unfold update.
    destruct (channels cs !! channelId) as [channel|] eqn:Hch; [|assumption].
    now apply (NamesCoherent_insert_same cs channelId channel).
  - unfold addAccessRule.
    destruct (channels cs !! channelId) as [channel|] eqn:Hch; [|assumption].
    now apply (NamesCoherent_insert_same cs channelId channel).
  - now apply delete_NamesCoherent.
Qed.

(** X7. In a registry built by the operations of the service, with ids that
    are fresh at each [create], the name index and the channel map agree:
    [getByName] returns a channel of that name, every channel that [getById]
    returns is the one [getByName] returns for its name, and no two channels
    carry the same name.  [delete] and [create] keep this. *)
Theorem names_identify_channels cs : BuiltFresh cs -> NamesIdentify cs.
Proof.
  intros HB. destruct (BuiltFresh_NamesCoherent cs HB) as [Hn Hc].
  unfold NamesIdentify, getByName, getById. repeat split.
  - intros name channel. destruct (nameIndex cs !! name) as [id|] eqn:Hi; [|discriminate].
    destruct (Hn _ _ Hi) as (c & Hcid & Hcn).
    destruct id; [discriminate|]. rewrite Hcid. now intros [= <-].
  - intros id channel Hcid. destruct (Hc _ _ Hcid) as (Hi & _ & Hnonempty).
    rewrite Hi. destruct id; [congruence|assumption].
  - intros id1 id2 c1 c2 H1 H2 Hname.
    destruct (Hc _ _ H1) as (Hi1 & _). destruct (Hc _ _ H2) as (Hi2 & _).
    rewrite Hname in Hi1. congruence.
Qed.

Lemma names_identify_channels_joined : NamesIdentify joinedRegistry.
Proof.
  apply names_identify_channels. unfold joinedRegistry.
  apply BuiltFresh_join, BuiltFresh_create; [apply BuiltFresh_new|reflexivity].
Defined.

End RegistryInvariantProperties.

Section RegistryAccessProperties.
Import ChannelService.

Lemma satisfies_READ level : satisfies level READ = true.
Proof. now destruct level. Qed.

Lemma checkAccess_insert_ne cs channelId target channel' agentId required ni ms :
  target <> channelId ->
  checkAccess channelId agentId required
    (mk (<[target := channel']> (channels cs)) ni ms (projectId cs) (relayClient cs) (storage cs))
  = checkAccess channelId agentId required cs.
Proof. intros Hne. unfold checkAccess. simpl. now rewrite lookup_insert_ne. Qed.

Lemma checkAccess_insert_same cs channelId channel channel' agentId required ni ms :
  channels cs !! channelId = Some channel ->
  Channel.accessRules channel' = Channel.accessRules channel ->
  Channel.defaultAccess channel' = Channel.defaultAccess channel ->
  checkAccess channelId agentId required
    (mk (<[channelId := channel']> (channels cs)) ni ms (projectId cs) (relayClient cs) (storage cs))
  = checkAccess channelId agentId required cs.
Proof.
  intros Hch Hr Hd. unfold checkAccess. simpl. now rewrite lookup_insert_eq, Hch, Hr, Hd.
Qed.

Lemma find_app_one {A} (f : A -> bool) l x :
  List.find f (l ++ [x]) =
  match List.find f l with
  | Some y => Some y
  | None => if f x then Some x else None
  end.
Proof.
  induction l as [|y l IH]; simpl; [reflexivity|]. now destruct (f y).
Qed.

Lemma addAccessRule_access channelId channel rule agentId required cs :
  channels cs !! channelId = Some channel ->
  checkAccess channelId agentId (Some required) (addAccessRule channelId rule cs).2 =
  accessAfterRule (Channel.accessRules channel) (Channel.defaultAccess channel)
    rule agentId required.
Proof.
  intros Hch. unfold addAccessRule. rewrite Hch. simpl.
  erewrite checkAccess_channel by (simpl; apply lookup_insert_eq).
  unfold resolveAccess, accessAfterRule. simpl. rewrite find_app_one.
  destruct (List.find _ (Channel.accessRules channel)); [reflexivity|].
  now destruct (matchRule rule agentId).
Qed.

Lemma addAccessRule_keeps_read channelId rule agentId target cs :
  checkAccess channelId agentId (Some READ) cs = true ->
  checkAccess channelId agentId (Some READ) (addAccessRule target rule cs).2 = true.
Proof.
  intros Hread. destruct (decide (target = channelId)) as [->|Hne].
  - destruct (channels cs !! channelId) as [channel|] eqn:Hch.
    + rewrite (addAccessRule_access _ _ _ _ _ _ Hch). unfold accessAfterRule.
      rewrite (checkAccess_channel _ _ _ _ _ Hch) in Hread. unfold resolveAccess in Hread.
      destruct (List.find _ _); [apply satisfies_READ|].
      destruct (matchRule rule agentId); [apply satisfies_READ|assumption].
    + unfold addAccessRule. now rewrite Hch.
  - unfold addAccessRule. destruct (channels cs !! target); [|assumption].
    simpl. unfold with_channels. now rewrite checkAccess_insert_ne.
Qed.

Lemma Built_MembersCanRead cs : Built cs -> MembersCanRead cs.
Proof.
  induction 1 as [projectId relayClient|input createdBy env cs _ IH
                 |target agentId cs _ IH|target agentId cs _ IH
                 |target updates cs _ IH|target rule cs _ IH|target cs _ IH];
    intros channelId members a.
  - simpl. rewrite lookup_empty. discriminate.
  - unfold create. destruct (nameIndex cs !! name input); [apply IH|]. simpl.
    destruct (decide (String.append "ch-" (uuid env) = channelId)) as [<-|Hne].
    + rewrite lookup_insert_eq. intros [= <-] Hin. now apply not_elem_of_empty in Hin.
    + rewrite lookup_insert_ne by assumption. intros Hm Hin.
      rewrite checkAccess_insert_ne by assumption. now apply (IH _ members).
  - unfold join.
    destruct (channels cs !! target) as [channel|] eqn:Hch; [|apply IH].
    destruct (checkAccess target agentId (Some READ) cs) eqn:Hread; simpl; [|apply IH].
    destruct (memberships cs !! target) as [ms|] eqn:Hms; [|apply IH].
    destruct (decide (agentId ∈ ms)); [apply IH|]. simpl.
    destruct (decide (target = channelId)) as [->|Hne].
    + rewrite lookup_insert_eq. intros [= <-] Hin.
      rewrite (checkAccess_insert_same _ _ channel) by (assumption || reflexivity).
      apply elem_of_union in Hin as [Hin|Hin].
      * now apply (IH _ ms).
      * apply elem_of_singleton in Hin. now subst.
    + rewrite lookup_insert_ne by assumption. intros Hm Hin.
      rewrite checkAccess_insert_ne by assumption. now apply (IH _ members).
  - unfold leave.
    destruct (channels cs !! target) as [channel|] eqn:Hch; [|apply IH].
    destruct (memberships cs !! target) as [ms|] eqn:Hms; [|apply IH].
    destruct (decide (agentId ∈ ms)); [|apply IH]. simpl.
    destruct (decide (target = channelId)) as [->|Hne].
    + rewrite lookup_insert_eq. intros [= <-] Hin.
      rewrite (checkAccess_insert_same _ _ channel) by (assumption || reflexivity).
      apply elem_of_difference in Hin as [Hin _]. now apply (IH _ ms).
    + rewrite lookup_insert_ne by assumption. intros Hm Hin.
      rewrite checkAccess_insert_ne by assumption. now apply (IH _ members).
  - unfold update.
    destruct (channels cs !! target) as [channel|] eqn:Hch; [|apply IH]. simpl.
    intros Hm Hin. unfold with_channels.
    destruct (decide (target = channelId)) as [->|Hne].
    + rewrite (checkAccess_insert_same _ _ channel) by (assumption || reflexivity).
      now apply (IH _ members).
    + rewrite checkAccess_insert_ne by assumption. now apply (IH _ members).
  - intros Hm Hin. apply addAccessRule_keeps_read. apply (IH _ members); [|assumption].
    revert Hm. unfold addAccessRule. now destruct (channels cs !! target).
  - unfold delete.
    destruct (channels cs !! target) as [channel|] eqn:Hch; [|apply IH]. simpl.
    destruct (decide (target = channelId)) as [->|Hne].
    + now rewrite lookup_delete_eq.
    + rewrite lookup_delete_ne by assumption. intros Hm Hin.
      unfold checkAccess. simpl. rewrite lookup_delete_ne by assumption.
      now apply (IH _ members).
Qed.

(** X8. Membership implies read access.  In a registry built by the
    operations of the service an identity that [isMember] reports as a member
    of a channel passes [checkAccess] at the level read on it: [join] admits
    only readers, no rule has a level below read, and the first matching rule
    stays the first, so neither [addAccessRule] nor [update] can lock a
    member out. *)
Theorem members_can_read cs channelId agentId :
  Built cs ->
  isMember channelId agentId cs = true ->
  checkAccess channelId agentId (Some READ) cs = true.
Proof.
  intros HB. unfold isMember.
  destruct (memberships cs !! channelId) as [members|] eqn:Hm; [|discriminate].
  intros Hin. apply bool_decide_eq_true in Hin.
  exact (Built_MembersCanRead cs HB channelId members agentId Hm Hin).
Qed.

Lemma members_can_read_joined :
  isMember "ch-5" "agent-2" joinedRegistry = true /\
  checkAccess "ch-5" "agent-2" (Some READ) joinedRegistry = true.
Proof.
  split; [reflexivity|].
  apply members_can_read; [|reflexivity].
  unfold joinedRegistry. apply Built_join, Built_create, Built_new.
Defined.

(** X9. What [addAccessRule] changes.  After a rule is appended to a
    channel, [checkAccess] answers for an identity as follows: if a rule
    that was already there matches the identity, that rule still decides,
    at every level; otherwise the new rule decides if it matches; otherwise
    the default access decides as before. *)
Theorem addAccessRule_first_match_stays channelId channel rule agentId required cs :
  channels cs !! channelId = Some channel ->
  checkAccess channelId agentId (Some required) (addAccessRule channelId rule cs).2 =
  match List.find (fun r => matchRule r agentId) (Channel.accessRules channel) with
  | Some earlier => checkAccess channelId agentId (Some required) cs
  | None =>
    if matchRule rule agentId then satisfies (AccessRule.level rule) required
    else checkAccess channelId agentId (Some required) cs
  end.
Proof.
  intros Hch. rewrite (addAccessRule_access _ _ _ _ _ _ Hch).
  rewrite (checkAccess_channel _ _ _ _ _ Hch). unfold accessAfterRule, resolveAccess.
  destruct (List.find _ _); [reflexivity|]. now destruct (matchRule rule agentId).
Qed.

(** On the channel general, open to everyone at the level write, a rule
    that names an identity as admin gives that identity nothing. *)
Lemma addAccessRule_first_match_stays_general :
  (exists channel, channels generalRegistry !! "ch-2" = Some channel) /\
  checkAccess "ch-2" "agent-1" (Some ADMIN)
    (addAccessRule "ch-2" (AccessRule.mk "agent-1" PrincipalAgent ADMIN) generalRegistry).2
  = false.
Proof.
  split; [eexists; reflexivity|].
  now rewrite (addAccessRule_first_match_stays "ch-2" _
                 (AccessRule.mk "agent-1" PrincipalAgent ADMIN) "agent-1" ADMIN
                 generalRegistry eq_refl).
Defined.

End RegistryAccessProperties.

Section RegistryRoundTrips.
Import ChannelService.

Lemma with_memberCount_same channel n m :
  Channel.memberCount channel = m ->
  Channel.with_memberCount m (Channel.with_memberCount n channel) = channel.
Proof. intros <-. now destruct channel. Qed.

Lemma union_difference_singleton (members : gset string) agentId :
  agentId ∉ members -> (members ∪ {[agentId]}) ∖ {[agentId]} = members.
Proof.
  intros Hnot. apply set_eq. intros x.
  rewrite elem_of_difference, elem_of_union, elem_of_singleton.
  split; [intros [[?|?] ?]; [assumption|contradiction]|].
  intros Hin. split; [now left|]. intros ->. contradiction.
Qed.

(** X10. Leaving undoes joining.  On a channel whose cached count agrees
    with its membership set, an identity that has read access and is not a
    member joins and then leaves, and the registry is again what it was:
    the membership set, the cached count and every other field. *)
Theorem leave_undoes_join cs channelId agentId :
  countConsistent cs channelId ->
  checkAccess channelId agentId (Some READ) cs = true ->
  isMember channelId agentId cs = false ->
  (leave channelId agentId (join channelId agentId cs).1.2).1.2 = cs.
Proof.
  intros (channel & members & Hch & Hm & Hcount) Hread Hnot.
  unfold isMember in Hnot. rewrite Hm in Hnot. apply bool_decide_eq_false in Hnot.
  unfold join. rewrite Hch, Hread, Hm. simpl.
  destruct (decide (agentId ∈ members)) as [|_]; [contradiction|].
  unfold leave. simpl. rewrite !lookup_insert_eq.
  destruct (decide (agentId ∈ members ∪ {[agentId]})) as [_|Hout].
  - simpl. rewrite !insert_insert_eq, union_difference_singleton by assumption.
    rewrite with_memberCount_same by assumption.
    rewrite !insert_id by assumption. now destruct cs.
  - exfalso. apply Hout, elem_of_union. right. now apply elem_of_singleton.
Qed.

Lemma leave_undoes_join_general :
  countConsistent generalRegistry "ch-2" /\
  (leave "ch-2" "agent-1" (join "ch-2" "agent-1" generalRegistry).1.2).1.2 = generalRegistry.
Proof.
  assert (Hc : countConsistent generalRegistry "ch-2").
  { eexists _, _. repeat split; reflexivity. }
  split; [exact Hc|].
  apply leave_undoes_join; [exact Hc|reflexivity|reflexivity].
Defined.

(** X11. [delete] removes one channel and nothing else.  After a known
    channel is deleted, [getById] no longer finds it, [checkAccess] denies
    every identity at every level, nobody is a member, [join] and [leave]
    return false and change nothing, and the count of channels went down by
    one; for every other channel id the record, the members and the access
    answers are what they were. *)
Theorem delete_removes_one_channel cs channelId channel :
  channels cs !! channelId = Some channel ->
  let cs' := (delete channelId cs).2 in
  (delete channelId cs).1 = true /\
  getById channelId cs' = None /\
  (forall agentId required, checkAccess channelId agentId required cs' = false) /\
  (forall agentId, isMember channelId agentId cs' = false) /\
  (forall agentId, join channelId agentId cs' = (Returned false, cs', [])) /\
  (forall agentId, leave channelId agentId cs' = (false, cs', [])) /\
  S (getCount cs') = getCount cs /\
  (forall other agentId required,
     other <> channelId ->
     getById other cs' = getById other cs /\
     isMember other agentId cs' = isMember other agentId cs /\
     checkAccess other agentId required cs' = checkAccess other agentId required cs).
Proof.
  intros Hch. unfold delete. rewrite Hch. simpl.
  unfold getById, checkAccess, isMember, join, leave, getCount. simpl.
  rewrite !lookup_delete_eq. repeat split.
  - rewrite map_size_delete, Hch.
    assert (size (channels cs) <> 0%nat).
    { intros Hz. apply map_size_empty_inv in Hz. rewrite Hz, lookup_empty in Hch. discriminate. }
    lia.
  - now rewrite lookup_delete_ne.
  - now rewrite lookup_delete_ne.
  - now rewrite lookup_delete_ne.
Qed.

Lemma delete_removes_one_channel_general :
  getById "ch-2" generalRegistry <> None /\
  getById "ch-2" (delete "ch-2" generalRegistry).2 = None /\
  getById "ch-3" (delete "ch-2" generalRegistry).2 = getById "ch-3" generalRegistry.
Proof.
  split; [discriminate|].
  destruct (delete_removes_one_channel generalRegistry "ch-2" _ eq_refl)
    as (_ & Hgone & _ & _ & _ & _ & _ & Hother).
  split; [exact Hgone|]. now apply (Hother "ch-3" "agent-1" None).
Defined.

(** X12. What a channel looks like after a restart.  [create] with a
    storage adapter attached saves one record; [loadFromStorage] turns that
    record into the channel that was created, except that a default access
    of none comes back as read.  So a public, broadcast or direct channel
    is restored as it was, while a private channel, which denied everyone
    when it was created, grants read access to everyone once it has been
    loaded into a registry. *)
Theorem saved_channel_reloads input createdBy env cs cs0 :
  nameIndex cs !! name input = None ->
  storage cs = true ->
  storage cs0 = true ->
  exists channel cs' saved,
    create input createdBy env cs
      = (Returned channel, cs', [SaveChannel saved; Track createdBy "channel_created"]) /\
    getById (Channel.id channel) (loadFromStorage [saved] cs0) = Some (reloaded channel) /\
    (type input <> Some PRIVATE -> reloaded channel = channel) /\
    (type input = Some PRIVATE ->
     forall agentId,
       checkAccess (Channel.id channel) agentId (Some READ) cs' = false /\
       checkAccess (Channel.id channel) agentId (Some READ) (loadFromStorage [saved] cs0)
       = true).
Proof.
  intros Hfree Hst Hst0. unfold create. rewrite Hfree, Hst.
  eexists _, _, _. split; [reflexivity|].
  unfold loadFromStorage. rewrite Hst0. simpl. unfold getById. simpl.
  rewrite lookup_insert_eq. split; [reflexivity|]. split.
  - intros Hkind. unfold reloaded. simpl.
    destruct (decide (type input = Some PRIVATE)); [contradiction|reflexivity].
  - intros Hkind agentId. unfold checkAccess. simpl. rewrite !lookup_insert_eq. simpl.
    rewrite Hkind. simpl. split; reflexivity.
Qed.

Lemma saved_channel_reloads_private :
  exists channel cs' saved,
    create privateInput "agent-1" (at_ "7" 50) storingRegistry
      = (Returned channel, cs', [SaveChannel saved; Track "agent-1" "channel_created"]) /\
    checkAccess (Channel.id channel) "agent-9" (Some READ) cs' = false /\
    checkAccess (Channel.id channel) "agent-9" (Some READ)
      (loadFromStorage [saved] storingRegistry) = true.
Proof.
  destruct (saved_channel_reloads privateInput "agent-1" (at_ "7" 50)
              storingRegistry storingRegistry eq_refl eq_refl eq_refl)
    as (channel & cs' & saved & Hcreate & _ & _ & Hprivate).
  exists channel, cs', saved. split; [exact Hcreate|].
  exact (Hprivate eq_refl "agent-9").
Defined.

End RegistryRoundTrips.

Section ThreadProperties.
Import MessageService.
Context (P : Platform).

Lemma insertSorted_oldestFirst x l :
  StronglySorted oldestFirst l ->
  StronglySorted oldestFirst (insertSorted bySentAtAsc x l).
Proof.
  induction 1 as [|y rest Hs IH Hall]; simpl.
  - repeat constructor.
  - unfold bySentAtAsc at 1. destruct (Z.leb_spec (Message.sentAt x - Message.sentAt y) 0).
    + constructor; [now constructor|]. constructor; [unfold oldestFirst; lia|].
      eapply Forall_impl; [exact Hall|]. unfold oldestFirst. intros z Hz. simpl in Hz. lia.
    + constructor; [exact IH|].
      eapply Permutation_Forall; [symmetry; apply insertSorted_Permutation|].
      constructor; [unfold oldestFirst; lia|exact Hall].
Qed.

Lemma Array_sort_oldestFirst l : StronglySorted oldestFirst (Array_sort bySentAtAsc l).
Proof.
  induction l as [|x rest IH]; simpl; [constructor|]. now apply insertSorted_oldestFirst.
Qed.

(** X13. [getThreadMessages] returns the messages of the thread that are
    stored and not soft-deleted, each as often as the thread index lists it,
    oldest first; no listed message is soft-deleted.  An unknown thread
    gives the empty list. *)
Theorem getThreadMessages_oldest_first threadId ms :
  Permutation (getThreadMessages threadId ms) (threadLive threadId ms) /\
  (forall m, In m (getThreadMessages threadId ms) -> live m) /\
  StronglySorted oldestFirst (getThreadMessages threadId ms) /\
  match threadMessages ms !! threadId with
  | None => getThreadMessages threadId ms = []
  | Some _ => True
  end.
Proof.
  assert (Hlive : List.filter notDeleted
                    (lookupAll (default [] (threadMessages ms !! threadId)) ms)
                  = threadLive threadId ms).
  { unfold threadLive, lookupAll. apply filter_ext. intros m.
    unfold notDeleted, live. destruct (Message.deletedAt m); [|reflexivity].
    symmetry. now apply bool_decide_eq_false_2. }
  assert (Hperm : Permutation (getThreadMessages threadId ms) (threadLive threadId ms)).
  { unfold getThreadMessages. rewrite Hlive. apply Array_sort_Permutation. }
  split; [exact Hperm|]. split; [|split].
  - intros m Hin. eapply Permutation_in in Hin; [|exact Hperm].
    unfold threadLive in Hin. apply filter_In in Hin as [_ Hm].
    now apply bool_decide_eq_true in Hm.
  - unfold getThreadMessages. apply Array_sort_oldestFirst.
  - unfold getThreadMessages. now destruct (threadMessages ms !! threadId).
Qed.

(** X14. A message sent with a thread id is listed in that thread, and only
    there: [send] appends its id to the index of the thread and leaves the
    other threads alone; without a thread id, or with the empty string as
    thread id, it leaves the thread index as it was. *)
Theorem sent_reply_is_in_thread input senderId env ms m ms' calls :
  send P input senderId env ms = (Returned m, ms', calls) ->
  match truthy (threadId input) with
  | Some thread =>
    In m (getThreadMessages thread ms') /\
    forall other, other <> thread -> threadMessages ms' !! other = threadMessages ms !! other
  | None => threadMessages ms' = threadMessages ms
  end.
Proof.
  intros Hsend. apply send_returned in Hsend as (Hm & -> & Hstored).
  destruct (truthy (threadId input)) as [thread|] eqn:Hthread.
  - split.
    + eapply Permutation_in; [symmetry; apply Array_sort_Permutation|].
      apply filter_In. split.
      * unfold lookupAll. apply list_elem_of_In, list_elem_of_omap.
        exists (Message.id m). split; [|exact Hstored].
        unfold store. simpl. rewrite Hthread. unfold pushIndex. rewrite lookup_insert_eq.
        simpl. apply list_elem_of_In, in_or_app. right. now left.
      * rewrite Hm. reflexivity.
    + intros other Hne. unfold store. simpl. rewrite Hthread. unfold pushIndex.
      now rewrite lookup_insert_ne.
  - unfold store. simpl. now rewrite Hthread.
Qed.

End ThreadProperties.

Section ThreadScenario.
Import MessageService.

(** The thread of the two replies, before and after the first is deleted. *)
Lemma getThreadMessages_oldest_first_deleted :
  getThreadMessages "thread-1" tiedLedger = [tiedFirst; tiedSecond] /\
  getThreadMessages "thread-1" threadDeleted = [tiedSecond] /\
  Permutation (getThreadMessages "thread-1" threadDeleted)
    (threadLive "thread-1" threadDeleted) /\
  (live tiedSecond /\ forall m, In m (getThreadMessages "thread-1" threadDeleted) -> live m).
Proof.
  destruct (getThreadMessages_oldest_first "thread-1" threadDeleted)
    as (Hperm & Hlive & _ & _).
  split; [vm_compute; reflexivity|]. split; [vm_compute; reflexivity|].
  split; [exact Hperm|]. split; [reflexivity|exact Hlive].
Defined.

Lemma sent_reply_is_in_thread_tied :
  send toyPlatform (inThread "ch-2" "one") "agent-1" (at_ "1" 100) ledger0
  = (Returned tiedFirst, tiedLedger1,
     [CheckAccess "ch-2" "agent-1" WRITE; BroadcastToChannel "ch-2" tiedFirst]) /\
  In tiedFirst (getThreadMessages "thread-1" tiedLedger1).
Proof.
  assert (H : send toyPlatform (inThread "ch-2" "one") "agent-1" (at_ "1" 100) ledger0
              = (Returned tiedFirst, tiedLedger1,
                 [CheckAccess "ch-2" "agent-1" WRITE; BroadcastToChannel "ch-2" tiedFirst]))
    by reflexivity.
  split; [exact H|].
  exact (proj1 (sent_reply_is_in_thread toyPlatform _ _ _ _ _ _ _ H)).
Defined.

End ThreadScenario.

Section SortStability.
Import MessageService.

Lemma insertSorted_same_tick (cmp : Message.t -> Message.t -> Z) t x l :
  (forall a b, Message.sentAt a = Message.sentAt b -> cmp a b = 0) ->
  List.filter (sentAtIs t) (insertSorted cmp x l) = List.filter (sentAtIs t) (x :: l).
Proof.
  intros Hcmp. induction l as [|y rest IH]; [reflexivity|].
  simpl insertSorted. destruct (Z.leb_spec (cmp x y) 0) as [|Hgt]; [reflexivity|].
  change (List.filter (sentAtIs t) (y :: insertSorted cmp x rest))
    with (if sentAtIs t y then y :: List.filter (sentAtIs t) (insertSorted cmp x rest)
          else List.filter (sentAtIs t) (insertSorted cmp x rest)).
  rewrite IH. simpl. unfold sentAtIs.
  destruct (Z.eqb_spec (Message.sentAt x) t) as [Hx|Hx];
    destruct (Z.eqb_spec (Message.sentAt y) t) as [Hy|Hy]; try reflexivity.
  rewrite (Hcmp x y) in Hgt by congruence. lia.
Qed.

Lemma Array_sort_same_tick (cmp : Message.t -> Message.t -> Z) t l :
  (forall a b, Message.sentAt a = Message.sentAt b -> cmp a b = 0) ->
  List.filter (sentAtIs t) (Array_sort cmp l) = List.filter (sentAtIs t) l.
Proof.
  intros Hcmp. induction l as [|x rest IH]; [reflexivity|].
  simpl Array_sort. rewrite insertSorted_same_tick by assumption.
  simpl. now rewrite IH.
Qed.

(** X15. Messages sent within the same millisecond keep the order in which
    they were sent: the sort is stable and compares only [sentAt], so in the
    complete listing of a channel, and in the listing of a thread, the
    messages of any one instant appear in index order. *)
Theorem same_tick_keeps_send_order channelId threadId t ms :
  List.filter (sentAtIs t) (completeListing channelId None ms)
    = List.filter (sentAtIs t) (channelVisible channelId ms) /\
  List.filter (sentAtIs t) (getThreadMessages threadId ms)
    = List.filter (sentAtIs t) (threadVisible threadId ms).
Proof.
  split.
  - unfold completeListing. rewrite getChannelMessages_result. simpl.
    unfold olderThanCursor. simpl. rewrite filter_true.
    rewrite slice0_all by (rewrite channelVisible_length; lia).
    apply Array_sort_same_tick. intros a b Hab. unfold bySentAtDesc. lia.
  - unfold getThreadMessages, threadVisible.
    apply Array_sort_same_tick. intros a b Hab. unfold bySentAtAsc. lia.
Qed.

End SortStability.

Section LedgerHistory.
Import MessageService.
Context (P : Platform).

Lemma Kept_refl m : Kept m m.
Proof. unfold Kept. repeat split; auto. Qed.

Lemma Kept_trans m1 m2 m3 : Kept m1 m2 -> Kept m2 m3 -> Kept m1 m3.
Proof.
  unfold Kept. intros H1 H2.
  destruct H1 as (?&?&?&?&?&?&?&?&?&?&?&?&?&?&?).
  destruct H2 as (?&?&?&?&?&?&?&?&?&?&?&?&?&?&?).
  repeat split; try congruence; try lia; auto.
Qed.

Lemma History_refl ms : History ms ms.
Proof.
  repeat split.
  - intros id m Hm. exists m. split; [assumption|apply Kept_refl].
  - intros c ids H. exists []. now rewrite app_nil_r.
  - intros c ids H. exists []. now rewrite app_nil_r.
Qed.

Lemma History_trans ms1 ms2 ms3 : History ms1 ms2 -> History ms2 ms3 -> History ms1 ms3.
Proof.
  intros (Hm1 & Hc1 & Ht1) (Hm2 & Hc2 & Ht2). repeat split.
  - intros id m Hm. destruct (Hm1 _ _ Hm) as (m' & Hm' & K1).
    destruct (Hm2 _ _ Hm') as (m'' & Hm'' & K2). exists m''. split; [assumption|].
    eapply Kept_trans; eassumption.
  - intros c ids H. destruct (Hc1 _ _ H) as (more1 & H1).
    destruct (Hc2 _ _ H1) as (more2 & H2). exists (more1 ++ more2). now rewrite app_assoc.
  - intros c ids H. destruct (Ht1 _ _ H) as (more1 & H1).
    destruct (Ht2 _ _ H1) as (more2 & H2). exists (more1 ++ more2). now rewrite app_assoc.
Qed.

(** A stored record replaced by a later state of itself. *)
Lemma History_replace ms messageId message message' :
  messages ms !! messageId = Some message ->
  Kept message message' ->
  History ms (with_messages (<[messageId := message']> (messages ms)) ms).
Proof.
  intros Hm K. repeat split; simpl.
  - intros id m Hid. destruct (decide (messageId = id)) as [->|Hne].
    + exists message'. rewrite lookup_insert_eq. split; [reflexivity|]. congruence.
    + exists m. rewrite lookup_insert_ne by assumption. split; [assumption|apply Kept_refl].
  - intros c ids H. exists []. now rewrite app_nil_r.
  - intros c ids H. exists []. now rewrite app_nil_r.
Qed.

Lemma pushIndex_grows key id index k ids :
  index !! k = Some ids -> exists more, pushIndex key id index !! k = Some (ids ++ more).
Proof.
  intros H. unfold pushIndex. destruct (decide (key = k)) as [->|Hne].
  - rewrite lookup_insert_eq, H. simpl. now exists [id].
  - rewrite lookup_insert_ne by assumption. exists []. now rewrite app_nil_r.
Qed.

Lemma LedgerStep_History ms ms' : LedgerStep P ms ms' -> History ms ms'.
Proof.
  destruct 1 as [input senderId env ms Hfresh|messageId newText editorId env ms
                |messageId deleterId env ms|messageId recipientId ms
                |messageId readerId ms|channelService ms].
  - destruct (send P input senderId env ms) as [[[m|e] ms'] calls] eqn:Hsend.
    + apply send_returned in Hsend as (Hm & -> & _). simpl.
      assert (Hid : Message.id m = String.append "msg-" (uuid env)) by now rewrite Hm.
      repeat split; simpl.
      * intros id m0 H0. exists m0. split; [|apply Kept_refl].
        rewrite lookup_insert_ne; [assumption|]. intros Heq. congruence.
      * intros c ids H. destruct (targetType input);
          [now apply pushIndex_grows|exists []; now rewrite app_nil_r..].
      * intros c ids H. destruct (truthy (threadId input));
          [now apply pushIndex_grows|exists []; now rewrite app_nil_r].
    + assert (ms' = ms) as ->; [|apply History_refl].
      unfold send in Hsend.
      destruct (targetType input), (channelService ms) as [cs|]; try discriminate.
      destruct (negb _); [|discriminate]. now injection Hsend as _ <- _.
  - unfold edit. destruct (messages ms !! messageId) as [message|] eqn:Hm;
      [|apply History_refl].
    destruct (bool_decide _); [|apply History_refl]. simpl.
    apply (History_replace _ _ message); [assumption|].
    unfold Kept. simpl. repeat split; auto; intros _; now eexists.
  - unfold delete. destruct (messages ms !! messageId) as [message|] eqn:Hm;
      [|apply History_refl].
    destruct (bool_decide _); [|apply History_refl]. simpl.
    apply (History_replace _ _ message); [assumption|].
    unfold Kept. simpl. repeat split; auto; intros _; now eexists.
  - unfold markDelivered. destruct (messages ms !! messageId) as [message|] eqn:Hm;
      [|apply History_refl].
    destruct (Message.deliveryStatus message) eqn:Hs; try apply History_refl.
    apply (History_replace _ _ message); [assumption|].
    unfold Kept. simpl. rewrite Hs. repeat split; auto.
  - unfold markRead. destruct (messages ms !! messageId) as [message|] eqn:Hm;
      [|apply History_refl].
    apply (History_replace _ _ message); [assumption|].
    unfold Kept. simpl. repeat split; auto.
    destruct (Message.deliveryStatus message); simpl; lia.
  - repeat split; simpl.
    + intros id m Hm. exists m. split; [assumption|apply Kept_refl].
    + intros c ids H. exists []. now rewrite app_nil_r.
    + intros c ids H. exists []. now rewrite app_nil_r.
Qed.

(** X16. The ledger forgets nothing and rewrites little.  Across any
    sequence of [send] (with fresh ids), [edit], [delete], [markDelivered]
    and [markRead], a stored message stays stored under its id and keeps
    its id, project, target, sender, type, thread, correlation id, time of
    sending, data, attachments and mention list; its delivery state never
    moves back on sent < delivered < read; once soft-deleted it stays
    soft-deleted, once edited it stays marked as edited; and the index of a
    channel or a thread only grows at its end.  In particular [edit], which
    replaces the text, leaves the mention list as it was. *)
Theorem ledger_history_is_kept ms ms' :
  rtc (LedgerStep P) ms ms' -> History ms ms'.
Proof.
  induction 1 as [ms|ms1 ms2 ms3 Hstep _ IH]; [apply History_refl|].
  eapply History_trans; [|exact IH]. now apply LedgerStep_History.
Qed.

Lemma AllVerify_replace ms messageId message' :
  AllVerify P ms ->
  verifySignature P ms message' = true ->
  AllVerify P (with_messages (<[messageId := message']> (messages ms)) ms).
Proof.
  intros Hall Hv id m. simpl. destruct (decide (messageId = id)) as [->|Hne].
  - rewrite lookup_insert_eq. now intros [= <-].
  - rewrite lookup_insert_ne by assumption. apply Hall.
Qed.

Lemma LedgerStep_AllVerify ms ms' : LedgerStep P ms ms' -> AllVerify P ms -> AllVerify P ms'.
Proof.
  destruct 1 as [input senderId env ms Hfresh|messageId newText editorId env ms
                |messageId deleterId env ms|messageId recipientId ms
                |messageId readerId ms|channelService ms]; intros Hall.
  - destruct (send P input senderId env ms) as [[[m|e] ms'] calls] eqn:Hsend.
    + apply send_returned in Hsend as (Hm & -> & _). simpl.
      intros id m0. simpl. destruct (decide (Message.id m = id)) as [<-|Hne].
      * rewrite lookup_insert_eq. intros [= <-]. rewrite Hm.
        unfold verifySignature, signMessage. simpl. now apply bool_decide_eq_true_2.
      * rewrite lookup_insert_ne by assumption. apply Hall.
    + assert (ms' = ms) as ->; [|exact Hall].
      unfold send in Hsend.
      destruct (targetType input), (channelService ms) as [cs|]; try discriminate.
      destruct (negb _); [|discriminate]. now injection Hsend as _ <- _.
  - unfold edit. destruct (messages ms !! messageId) as [message|] eqn:Hm; [|exact Hall].
    destruct (bool_decide _); [|exact Hall]. simpl.
    apply AllVerify_replace; [assumption|].
    unfold verifySignature. simpl. now apply bool_decide_eq_true_2.
  - unfold delete. destruct (messages ms !! messageId) as [message|] eqn:Hm; [|exact Hall].
    destruct (bool_decide _); [|exact Hall]. simpl.
    apply AllVerify_replace; [assumption|]. exact (Hall _ _ Hm).
  - unfold markDelivered. destruct (messages ms !! messageId) as [message|] eqn:Hm;
      [|exact Hall].
    destruct (Message.deliveryStatus message); try exact Hall.
    apply AllVerify_replace; [assumption|]. exact (Hall _ _ Hm).
  - unfold markRead. destruct (messages ms !! messageId) as [message|] eqn:Hm; [|exact Hall].
    apply AllVerify_replace; [assumption|]. exact (Hall _ _ Hm).
  - exact Hall.
Qed.

(** X17. Every record of the ledger verifies.  In a ledger reached from a
    new one by [send], [edit], [delete], [markDelivered] and [markRead],
    [verifySignature] is true on every record that [getById] returns: [send]
    signs what it stores, [edit] signs again after it has changed the text,
    and the other operations touch neither the signed fields nor the key. *)
Theorem stored_messages_verify ms id m :
  BuiltLedger P ms -> getById id ms = Some m -> verifySignature P ms m = true.
Proof.
  intros (projectId & relayClient & channelService & envKey & env & Hrtc).
  revert id m. change (AllVerify P ms).
  remember (new projectId relayClient channelService false envKey env) as ms0 eqn:H0.
  assert (Hnew : AllVerify P ms0).
  { subst ms0. intros id m. simpl. rewrite lookup_empty. discriminate. }
  clear H0. induction Hrtc as [ms|ms1 ms2 ms3 Hstep _ IH]; [assumption|].
  apply IH. now apply (LedgerStep_AllVerify ms1).
Qed.

End LedgerHistory.

Section LedgerHistoryScenarios.
Import MessageService.

(** The edit of the text hello into a text with a mention, then the soft
    delete, keep the empty mention list of the record. *)
Lemma ledger_history_is_kept_hello :
  rtc (LedgerStep toyPlatform) helloLedger
    (delete "msg-1" "agent-1" (at_ "3" 300)
       (edit toyPlatform "msg-1" "hi @bob" "agent-1" (at_ "2" 200) helloLedger).1.2).1.2 /\
  History helloLedger
    (delete "msg-1" "agent-1" (at_ "3" 300)
       (edit toyPlatform "msg-1" "hi @bob" "agent-1" (at_ "2" 200) helloLedger).1.2).1.2.
Proof.
  assert (H : rtc (LedgerStep toyPlatform) helloLedger
    (delete "msg-1" "agent-1" (at_ "3" 300)
       (edit toyPlatform "msg-1" "hi @bob" "agent-1" (at_ "2" 200) helloLedger).1.2).1.2).
  { eapply rtc_l; [apply Step_edit|]. eapply rtc_l; [apply Step_delete|]. apply rtc_refl. }
  split; [exact H|]. exact (ledger_history_is_kept toyPlatform _ _ H).
Defined.

Lemma stored_messages_verify_hello :
  BuiltLedger toyPlatform helloLedger /\
  getById "msg-1" helloLedger = Some helloMessage /\
  verifySignature toyPlatform helloLedger helloMessage = true.
Proof.
  assert (H : BuiltLedger toyPlatform helloLedger).
  { exists "proj-1", true, (Some lockedRegistry), (Some "test-signing-key"), (at_ "k" 0).
    eapply rtc_l; [|apply rtc_refl].
    exact (Step_send toyPlatform (toChannel "ch-2" "hello") "agent-1" (at_ "1" 100)
             (ledger true (Some lockedRegistry)) eq_refl). }
  split; [exact H|]. split; [reflexivity|].
  exact (stored_messages_verify toyPlatform helloLedger "msg-1" helloMessage H eq_refl).
Defined.

End LedgerHistoryScenarios.

Section ListingLimits.
Import MessageService.

Lemma completeListing_all channelId before ms :
  completeListing channelId before ms =
  List.filter (olderThanCursor (truthy before) ms)
    (Array_sort bySentAtDesc (channelVisible channelId ms)).
Proof.
  unfold completeListing. rewrite getChannelMessages_result. simpl.
  apply slice0_all. rewrite <- channelVisible_length.
  apply inj_le. etransitivity; [apply filter_length_le|]. reflexivity.
Qed.

(** X18. A negative limit is not refused by [getChannelMessages], and it
    does not give the empty list: with the limit -k the method returns the
    complete listing of the channel (below the cursor, newest first)
    without its k oldest entries. *)
Theorem negative_limit_drops_oldest channelId limit before ms :
  limit < 0 ->
  (getChannelMessages channelId (Some limit) before ms).1
  = firstn (List.length (completeListing channelId before ms) - Z.to_nat (- limit))
      (completeListing channelId before ms).
Proof.
  intros Hneg. rewrite completeListing_all, getChannelMessages_result. simpl.
  unfold slice0. destruct (Z.ltb_spec limit 0); [|lia]. f_equal. lia.
Qed.

Lemma negative_limit_drops_oldest_three :
  (getChannelMessages "ch-2" (Some (-1)) None ledger3).1 = [sentThird; sentSecond] /\
  completeListing "ch-2" None ledger3 = [sentThird; sentSecond; sentFirst].
Proof.
  assert (Hfull : completeListing "ch-2" None ledger3 = [sentThird; sentSecond; sentFirst])
    by (vm_compute; reflexivity).
  split; [|exact Hfull].
  rewrite (negative_limit_drops_oldest "ch-2" (-1) None ledger3 eq_refl), Hfull.
  reflexivity.
Defined.

End ListingLimits.

Section FramingArithmetic.

Lemma to_N_byteOfN n : Byte.to_N (byteOfN n) = (n mod 256)%N.
Proof.
  unfold byteOfN. destruct (Byte.of_N (n mod 256)) as [b|] eqn:Hb.
  - now apply Byte.to_of_N.
  - apply Byte.of_N_None_iff in Hb.
    pose proof (N.mod_upper_bound n 256). lia.
Qed.

Lemma readUInt32BE_writeUInt32BE value :
  (value < 2 ^ 32)%N ->
  readUInt32BE (byteOfN (value / 2 ^ 24)) (byteOfN (value / 2 ^ 16))
    (byteOfN (value / 2 ^ 8)) (byteOfN value) = value.
Proof.
  intros Hlt. unfold readUInt32BE. rewrite !to_N_byteOfN.
  change (2 ^ 24)%N with (256 * (256 * 256))%N.
  change (2 ^ 16)%N with (256 * 256)%N.
  change (2 ^ 8)%N with 256%N.
  rewrite <- !N.Div0.div_div.
  set (q1 := (value / 256)%N). set (q2 := (q1 / 256)%N). set (q3 := (q2 / 256)%N).
  assert (H3 : (q3 mod 256 = q3)%N).
  { apply N.mod_small. unfold q3, q2, q1. rewrite !N.Div0.div_div.
    apply N.Div0.div_lt_upper_bound. exact Hlt. }
  rewrite H3.
  pose proof (N.div_mod value 256 ltac:(discriminate)) as E1. fold q1 in E1.
  pose proof (N.div_mod q1 256 ltac:(discriminate)) as E2. fold q2 in E2.
  pose proof (N.div_mod q2 256 ltac:(discriminate)) as E3. fold q3 in E3.
  lia.
Qed.

End FramingArithmetic.

Section FramingProperties.
Import FrameParser.
Context {Envelope : Type} (JSON_parse : list byte -> option Envelope).

Lemma parseFrames_unfold p :
  parseFrames JSON_parse p =
  match buffer p with
  | [] => (p, [])
  | _ :: _ =>
    match body JSON_parse p with
    | Return p' events => (p', events)
    | Again p' events =>
      ((parseFrames JSON_parse p').1, events ++ (parseFrames JSON_parse p').2)
    end
  end.
Proof.
  funelim (parseFrames JSON_parse p).
  - now rewrite e.
  - rewrite e. now rewrite e0.
  - rewrite e. now rewrite e0.
Qed.

Lemma parseFrames_nonempty p :
  buffer p <> [] ->
  parseFrames JSON_parse p =
  match body JSON_parse p with
  | Return p' events => (p', events)
  | Again p' events =>
    ((parseFrames JSON_parse p').1, events ++ (parseFrames JSON_parse p').2)
  end.
Proof. intros Hne. rewrite parseFrames_unfold. now destruct (buffer p). Qed.

Lemma app_nonempty {A : Type} (l more : list A) : l <> [] -> l ++ more <> [].
Proof. now destruct l. Qed.

(** One frame at the head of the buffer is cut off and dispatched; the
    loop goes on with what follows it. *)
Lemma parseFrames_frame payload f rest :
  (N.of_nat (List.length payload) <= MAX_FRAME_BYTES)%N ->
  frame payload = Some f ->
  parseFrames JSON_parse (mk (f ++ rest) None) =
  ((parseFrames JSON_parse (mk rest None)).1,
   dispatch JSON_parse payload :: (parseFrames JSON_parse (mk rest None)).2).
Proof.
  intros Hmax. unfold frame, writeUInt32BE.
  destruct (N.ltb_spec (N.of_nat (List.length payload)) (2 ^ 32)) as [Hlt|]; [|discriminate].
  simpl. intros [= <-]. rewrite parseFrames_unfold. simpl. unfold body. simpl.
  rewrite (readUInt32BE_writeUInt32BE _ Hlt).
  destruct (N.ltb_spec MAX_FRAME_BYTES (N.of_nat (List.length payload))); [lia|].
  unfold readFrameData. rewrite length_app.
  destruct (N.ltb_spec (N.of_nat (List.length payload + List.length rest))
              (N.of_nat (List.length payload))); [lia|].
  rewrite Nat2N.id, skipn_app, firstn_app, Nat.sub_diag, skipn_all, firstn_all.
  simpl. now rewrite app_nil_r.
Qed.

Lemma frames_parse payloads stream :
  Forall (fun payload => (N.of_nat (List.length payload) <= MAX_FRAME_BYTES)%N) payloads ->
  frames payloads = Some stream ->
  parseFrames JSON_parse (mk stream None) = (new, map (dispatch JSON_parse) payloads).
Proof.
  intros Hall. revert stream. induction Hall as [|payload rest Hmax _ IH]; intros stream.
  - intros [= <-]. now rewrite parseFrames_unfold.
  - simpl. destruct (frame payload) as [f|] eqn:Hf; [|discriminate].
    destruct (frames rest) as [fs|]; [|discriminate]. intros [= <-].
    rewrite (parseFrames_frame _ _ _ Hmax Hf), (IH fs eq_refl). reflexivity.
Qed.

Lemma frames_Some payloads :
  Forall (fun payload => (N.of_nat (List.length payload) <= MAX_FRAME_BYTES)%N) payloads ->
  exists stream, frames payloads = Some stream.
Proof.
  induction 1 as [|payload rest Hmax _ [fs IH]]; [now exists []|].
  simpl. rewrite IH. unfold frame, writeUInt32BE.
  destruct (N.ltb_spec (N.of_nat (List.length payload)) (2 ^ 32)) as [|Hge].
  - simpl. now eexists.
  - exfalso. unfold MAX_FRAME_BYTES in Hmax. change (2 ^ 32)%N with 4294967296%N in Hge. lia.
Qed.

(** The loop does not care where the bytes were cut: parsing a buffer and
    then, with more bytes appended to what is left, parsing again gives what
    parsing the whole gives, unless an oversized length prefix is met. *)
Lemma body_app buf len more p' events :
  body JSON_parse (mk buf len) = Again p' events ->
  body JSON_parse (mk (buf ++ more) len)
  = Again (mk (buffer p' ++ more) (expectedLength p')) events.
Proof.
  unfold body. simpl. destruct len as [len|].
  - unfold readFrameData. rewrite length_app.
    destruct (N.ltb_spec (N.of_nat (List.length buf)) len); [discriminate|].
    destruct (N.ltb_spec (N.of_nat (List.length buf + List.length more)) len); [lia|].
    intros [= <- <-]. simpl. rewrite skipn_app, firstn_app.
    replace (N.to_nat len - List.length buf)%nat with 0%nat by lia.
    simpl. now rewrite app_nil_r.
  - destruct buf as [|b0 [|b1 [|b2 [|b3 rest]]]]; try discriminate. simpl.
    destruct (MAX_FRAME_BYTES <? readUInt32BE b0 b1 b2 b3)%N; [discriminate|].
    unfold readFrameData. rewrite length_app.
    destruct (N.ltb_spec (N.of_nat (List.length rest)) (readUInt32BE b0 b1 b2 b3));
      [discriminate|].
    destruct (N.ltb_spec (N.of_nat (List.length rest + List.length more))
                (readUInt32BE b0 b1 b2 b3)); [lia|].
    intros [= <- <-]. simpl. rewrite skipn_app, firstn_app.
    replace (N.to_nat (readUInt32BE b0 b1 b2 b3) - List.length rest)%nat with 0%nat by lia.
    simpl. now rewrite app_nil_r.
Qed.

(** When the body returns without an error, it has consumed at most a
    length prefix, and the loop on the longer buffer does the same. *)
Lemma body_Return_app buf len more p' events :
  buf <> [] ->
  body JSON_parse (mk buf len) = Return p' events ->
  forallb (fun event => negb (isFrameTooLarge event)) events = true ->
  events = [] /\
  parseFrames JSON_parse (mk (buf ++ more) len)
  = parseFrames JSON_parse (mk (buffer p' ++ more) (expectedLength p')).
Proof.
  intros Hne. unfold body. simpl. destruct len as [len|].
  - unfold readFrameData. destruct (N.of_nat (List.length buf) <? len)%N; [|discriminate].
    intros [= <- <-] _. now split.
  - destruct buf as [|b0 [|b1 [|b2 [|b3 rest]]]];
      try (intros [= <- <-] _; now split).
    destruct (MAX_FRAME_BYTES <? readUInt32BE b0 b1 b2 b3)%N eqn:Hbig.
    + intros [= <- <-]. discriminate.
    + unfold readFrameData.
      destruct (N.of_nat (List.length rest) <? readUInt32BE b0 b1 b2 b3)%N eqn:Hshort;
        [|discriminate].
      intros [= <- <-] _. split; [reflexivity|]. simpl.
      rewrite (parseFrames_unfold (mk (b0 :: b1 :: b2 :: b3 :: rest ++ more) None)).
      unfold body. simpl. rewrite Hbig.
      rewrite (parseFrames_unfold (mk (rest ++ more) (Some _))). unfold body. simpl.
      destruct (rest ++ more) as [|c tail] eqn:Hrm; [|reflexivity].
      apply app_eq_nil in Hrm as [-> ->]. unfold readFrameData. simpl.
      simpl in Hshort. now rewrite Hshort.
Qed.

Lemma body_TooLarge_app buf len more p' events :
  body JSON_parse (mk buf len) = Return p' events ->
  forallb (fun event => negb (isFrameTooLarge event)) events = false ->
  body JSON_parse (mk (buf ++ more) len) = Return p' events.
Proof.
  unfold body. simpl. destruct len as [len|].
  - unfold readFrameData. destruct (N.of_nat (List.length buf) <? len)%N; [|discriminate].
    intros [= <- <-]. discriminate.
  - destruct buf as [|b0 [|b1 [|b2 [|b3 rest]]]];
      try (intros [= <- <-]; discriminate).
    simpl. destruct (MAX_FRAME_BYTES <? readUInt32BE b0 b1 b2 b3)%N; [easy|].
    unfold readFrameData.
    destruct (N.of_nat (List.length rest) <? readUInt32BE b0 b1 b2 b3)%N; [|discriminate].
    intros [= <- <-]. discriminate.
Qed.

(** The loop does not care where the bytes were cut: parsing a buffer and
    then, with more bytes appended to what is left, parsing again gives what
    parsing the whole gives, unless an oversized length prefix is met. *)
Lemma parseFrames_app p more :
  forallb (fun event => negb (isFrameTooLarge event))
    (parseFrames JSON_parse (mk (buffer p ++ more) (expectedLength p))).2 = true ->
  parseFrames JSON_parse (mk (buffer p ++ more) (expectedLength p)) =
  ((parseFrames JSON_parse
      (mk (buffer (parseFrames JSON_parse p).1 ++ more)
          (expectedLength (parseFrames JSON_parse p).1))).1,
   (parseFrames JSON_parse p).2 ++
   (parseFrames JSON_parse
      (mk (buffer (parseFrames JSON_parse p).1 ++ more)
          (expectedLength (parseFrames JSON_parse p).1))).2).
Proof.
  remember (fuel p) as n eqn:Hn. revert p Hn.
  induction n as [n IH] using lt_wf_ind. intros [buf len] Hn. simpl buffer. simpl expectedLength.
  intros Hok. destruct (decide (buf = [])) as [->|Hne].
  { rewrite (parseFrames_unfold (mk [] len)). simpl. apply surjective_pairing. }
  rewrite (parseFrames_nonempty (mk buf len)) by assumption.
  destruct (body JSON_parse (mk buf len)) as [p' events|p' events] eqn:Hbody.
  - destruct (forallb (fun event => negb (isFrameTooLarge event)) events) eqn:Hevents.
    + destruct (body_Return_app _ _ more _ _ Hne Hbody Hevents) as [-> Happ].
      simpl. rewrite Happ. apply surjective_pairing.
    + exfalso. pose proof (body_TooLarge_app _ _ more _ _ Hbody Hevents) as Hb.
      rewrite parseFrames_nonempty, Hb in Hok by now apply app_nonempty.
      simpl in Hok. congruence.
  - assert (Hfuel : (fuel p' < n)%nat).
    { subst n. eapply body_Again; [|eassumption]. exact Hne. }
    pose proof (body_app _ _ more _ _ Hbody) as Hb.
    rewrite parseFrames_nonempty, Hb in Hok |- * by now apply app_nonempty.
    simpl in Hok. rewrite forallb_app in Hok. apply andb_true_iff in Hok as [_ Hok].
    simpl. rewrite (IH (fuel p') Hfuel p' eq_refl Hok). simpl.
    now rewrite app_assoc.
Qed.

(** After the loop the parser is waiting, when it started with a pending
    length within the maximum. *)
Lemma parseFrames_Waiting p :
  match expectedLength p with
  | Some len => (len <= MAX_FRAME_BYTES)%N /\ (buffer p = [] -> (0 < len)%N)
  | None => True
  end ->
  Waiting (parseFrames JSON_parse p).1.
Proof.
  remember (fuel p) as n eqn:Hn. revert p Hn.
  induction n as [n IH] using lt_wf_ind. intros [buf len] Hn. simpl.
  intros Hpre. destruct (decide (buf = [])) as [->|Hne].
  { rewrite parseFrames_unfold. unfold Waiting. simpl. destruct len as [len|]; [|lia].
    destruct Hpre as [Hmax Hpos]. split; [|assumption]. simpl. specialize (Hpos eq_refl). lia. }
  rewrite parseFrames_nonempty by assumption.
  destruct (body JSON_parse (mk buf len)) as [p' events|p' events] eqn:Hbody.
  - simpl. unfold body in Hbody. simpl in Hbody. destruct len as [len|].
    + unfold readFrameData in Hbody.
      destruct (N.ltb_spec (N.of_nat (List.length buf)) len); [|discriminate].
      injection Hbody as <- _. unfold Waiting. simpl. split; [assumption|apply Hpre].
    + destruct buf as [|c0 [|c1 [|c2 [|c3 rest]]]];
        try (injection Hbody as <- _; unfold Waiting; simpl; lia).
      destruct (N.ltb_spec MAX_FRAME_BYTES (readUInt32BE c0 c1 c2 c3)).
      * injection Hbody as <- _. unfold Waiting. simpl. lia.
      * unfold readFrameData in Hbody.
        destruct (N.ltb_spec (N.of_nat (List.length rest)) (readUInt32BE c0 c1 c2 c3));
          [|discriminate].
        injection Hbody as <- _. unfold Waiting. simpl. now split.
  - simpl. assert (Hfuel : (fuel p' < n)%nat).
    { subst n. eapply body_Again; [|eassumption]. exact Hne. }
    apply (IH (fuel p') Hfuel p' eq_refl).
    assert (Hnone : expectedLength p' = None).
    { unfold body, readFrameData in Hbody. simpl in Hbody. destruct len as [len|].
      - destruct (_ <? _)%N; [discriminate|]. now injection Hbody as <- _.
      - destruct buf as [|c0 [|c1 [|c2 [|c3 rest]]]]; try discriminate.
        destruct (_ <? _)%N; [discriminate|]. destruct (_ <? _)%N; [discriminate|].
        now injection Hbody as <- _. }
    now rewrite Hnone.
Qed.

Lemma Waiting_settled p : Waiting p -> parseFrames JSON_parse p = (p, []).
Proof.
  destruct p as [buf [len|]]; unfold Waiting; simpl.
  - intros [Hshort Hmax]. rewrite parseFrames_unfold. simpl.
    destruct buf as [|b0 buf']; [reflexivity|].
    cbv beta iota delta [body readFrameData buffer expectedLength].
    destruct (N.ltb_spec (N.of_nat (List.length (b0 :: buf'))) len); [reflexivity|lia].
  - intros Hshort. rewrite parseFrames_unfold. simpl.
    destruct buf as [|b0 [|b1 [|b2 [|b3 rest]]]]; try reflexivity. simpl in Hshort. lia.
Qed.

Lemma feed_Waiting data p : Waiting p -> Waiting (feed JSON_parse data p).1.
Proof.
  intros Hw. unfold feed. apply parseFrames_Waiting. simpl.
  unfold Waiting in Hw. destruct (expectedLength p) as [len|]; [|exact I].
  destruct Hw as [Hshort Hmax]. split; [assumption|]. intros _. lia.
Qed.

Lemma feed_app a b p :
  forallb (fun event => negb (isFrameTooLarge event)) (feed JSON_parse (a ++ b) p).2 = true ->
  feed JSON_parse (a ++ b) p =
  ((feed JSON_parse b (feed JSON_parse a p).1).1,
   (feed JSON_parse a p).2 ++ (feed JSON_parse b (feed JSON_parse a p).1).2).
Proof.
  unfold feed. rewrite app_assoc. intros Hok.
  exact (parseFrames_app (mk (buffer p ++ a) (expectedLength p)) b Hok).
Qed.

Lemma feedAll_concat chunks p :
  Waiting p ->
  forallb (fun event => negb (isFrameTooLarge event))
    (feed JSON_parse (concat chunks) p).2 = true ->
  feedAll JSON_parse chunks p = feed JSON_parse (concat chunks) p.
Proof.
  revert p. induction chunks as [|data rest IH]; intros p Hw Hok.
  - simpl. unfold feed. rewrite app_nil_r.
    destruct p as [buf len]. simpl. symmetry. now apply Waiting_settled.
  - simpl concat in *. rewrite (feed_app _ _ _ Hok) in Hok |- *. simpl in Hok.
    rewrite forallb_app in Hok. apply andb_true_iff in Hok as [_ Hok].
    simpl. rewrite (IH _ (feed_Waiting data p Hw) Hok). reflexivity.
Qed.

(** X19. Framing round trip.  Payloads of at most 16 MiB each, framed as
    [sendEnvelope] frames them (a four-byte big-endian length, then the
    bytes) and written one after the other, are recovered by a new parser
    whatever the chunks in which the stream arrives: the parser calls its
    handlers once per payload, in order, with what [JSON.parse] makes of the
    payload, and ends empty. *)
Theorem frames_round_trip payloads :
  Forall (fun payload => (N.of_nat (List.length payload) <= MAX_FRAME_BYTES)%N) payloads ->
  exists stream,
    frames payloads = Some stream /\
    forall chunks,
      concat chunks = stream ->
      feedAll JSON_parse chunks new = (new, map (dispatch JSON_parse) payloads).
Proof.
  intros Hall. destruct (frames_Some _ Hall) as [stream Hs]. exists stream.
  split; [assumption|]. intros chunks Hc.
  assert (Hfeed : feed JSON_parse (concat chunks) new
                  = (new, map (dispatch JSON_parse) payloads)).
  { rewrite Hc. unfold feed. simpl. now apply frames_parse. }
  rewrite feedAll_concat, Hfeed; [reflexivity|unfold Waiting; simpl; lia|].
  rewrite Hfeed. simpl. clear. induction payloads as [|payload rest IH]; [reflexivity|].
  simpl. rewrite IH. unfold dispatch. now destruct (JSON_parse payload).
Qed.

(** X20. The parser is insensitive to chunk boundaries.  Feeding a waiting
    parser a sequence of chunks calls the handlers as feeding it their
    concatenation at once does, and leaves the same state, as long as no
    oversized length prefix is reported; so any two ways of cutting the same
    bytes into chunks give the same calls and the same state. *)
Theorem feed_ignores_chunking chunks chunks' p :
  Waiting p ->
  concat chunks' = concat chunks ->
  forallb (fun event => negb (isFrameTooLarge event))
    (feed JSON_parse (concat chunks) p).2 = true ->
  feedAll JSON_parse chunks p = feed JSON_parse (concat chunks) p /\
  feedAll JSON_parse chunks' p = feedAll JSON_parse chunks p.
Proof.
  intros Hw Hsame Hok.
  assert (H : feedAll JSON_parse chunks p = feed JSON_parse (concat chunks) p)
    by now apply feedAll_concat.
  split; [exact H|]. rewrite H, <- Hsame.
  apply feedAll_concat; [assumption|]. now rewrite Hsame.
Qed.

(** X21. Between two calls of [feed] the parser holds less than one
    frame: from a waiting state every [feed] ends in a waiting state, in
    which the buffer is shorter than four bytes or shorter than the frame
    announced, so that fewer than 16 MiB are buffered. *)
Theorem feed_keeps_waiting data p :
  Waiting p ->
  Waiting (feed JSON_parse data p).1 /\
  (N.of_nat (List.length (buffer (feed JSON_parse data p).1)) < MAX_FRAME_BYTES)%N.
Proof.
  intros Hw. pose proof (feed_Waiting data p Hw) as Hw'. split; [assumption|].
  unfold Waiting in Hw'. destruct (expectedLength _) as [len|].
  - lia.
  - unfold MAX_FRAME_BYTES. lia.
Qed.

(** X22. An oversized length prefix.  When the four bytes that a parser
    without a pending length reads as a prefix announce more than 16 MiB,
    [feed] reports one frame-too-large error, reports nothing of what
    follows the prefix in the chunk, whatever that is, and leaves the parser
    empty: the next bytes to arrive are read as a length prefix. *)
Theorem feed_oversized_prefix b0 b1 b2 b3 rest data p :
  expectedLength p = None ->
  buffer p ++ data = b0 :: b1 :: b2 :: b3 :: rest ->
  (MAX_FRAME_BYTES < readUInt32BE b0 b1 b2 b3)%N ->
  feed JSON_parse data p = (new, [OnError (FrameTooLarge (readUInt32BE b0 b1 b2 b3))]).
Proof.
  intros Hnone Hbuf Hbig. unfold feed. rewrite Hnone, Hbuf, parseFrames_unfold.
  unfold body. simpl. apply N.ltb_lt in Hbig. now rewrite Hbig.
Qed.

End FramingProperties.

Section FramingScenarios.
Import FrameParser.

(** Two frames holding the text of the empty object, arriving in three
    chunks that cut the first prefix and the second payload. *)
Lemma frames_round_trip_two :
  exists stream,
    frames [emptyObject; emptyObject] = Some stream /\
    feedAll keepText
      [ [Byte.x00; Byte.x00]; [Byte.x00; Byte.x02; Byte.x7b; Byte.x7d; Byte.x00; Byte.x00;
                               Byte.x00; Byte.x02; Byte.x7b]; [Byte.x7d] ] new
    = (new, [OnFrame emptyObject; OnFrame emptyObject]).
Proof.
  assert (Hall : Forall (fun payload => (N.of_nat (List.length payload) <= MAX_FRAME_BYTES)%N)
                   [emptyObject; emptyObject]).
  { repeat constructor; vm_compute; discriminate. }
  destruct (frames_round_trip keepText _ Hall) as (stream & Hs & Hfeed).
  exists stream. split; [exact Hs|]. apply Hfeed.
  vm_compute in Hs. injection Hs as <-. reflexivity.
Defined.

(** A length prefix and the first byte of its frame, cut in two ways. *)
Lemma feed_ignores_chunking_split :
  Waiting new /\
  feedAll keepText [ [Byte.x00; Byte.x00; Byte.x00]; [Byte.x02; Byte.x7b] ] new
  = feed keepText [Byte.x00; Byte.x00; Byte.x00; Byte.x02; Byte.x7b] new /\
  feedAll keepText [ [Byte.x00]; [Byte.x00; Byte.x00; Byte.x02]; [Byte.x7b] ] new
  = feedAll keepText [ [Byte.x00; Byte.x00; Byte.x00]; [Byte.x02; Byte.x7b] ] new.
Proof.
  assert (Hw : Waiting new) by (vm_compute; lia).
  split; [exact Hw|].
  exact (feed_ignores_chunking keepText
           [ [Byte.x00; Byte.x00; Byte.x00]; [Byte.x02; Byte.x7b] ]
           [ [Byte.x00]; [Byte.x00; Byte.x00; Byte.x02]; [Byte.x7b] ]
           new Hw eq_refl eq_refl).
Defined.

Lemma feed_keeps_waiting_prefix :
  Waiting new /\
  Waiting (feed keepText [Byte.x00; Byte.x00; Byte.x00; Byte.x02; Byte.x7b] new).1.
Proof.
  assert (Hw : Waiting new) by (vm_compute; lia).
  split; [exact Hw|].
  exact (proj1 (feed_keeps_waiting keepText
                  [Byte.x00; Byte.x00; Byte.x00; Byte.x02; Byte.x7b] new Hw)).
Defined.

(** The prefix ff ff ff ff, followed by a well-formed frame. *)
Lemma feed_oversized_prefix_ff :
  (MAX_FRAME_BYTES < readUInt32BE Byte.xff Byte.xff Byte.xff Byte.xff)%N /\
  feed keepText
    [Byte.xff; Byte.xff; Byte.xff; Byte.xff; Byte.x00; Byte.x00; Byte.x00; Byte.x02;
     Byte.x7b; Byte.x7d] new
  = (new, [OnError (FrameTooLarge 4294967295)]).
Proof.
  assert (Hbig : (MAX_FRAME_BYTES < readUInt32BE Byte.xff Byte.xff Byte.xff Byte.xff)%N)
    by reflexivity.
  split; [exact Hbig|].
  exact (feed_oversized_prefix keepText Byte.xff Byte.xff Byte.xff Byte.xff
           [Byte.x00; Byte.x00; Byte.x00; Byte.x02; Byte.x7b; Byte.x7d] _ new
           eq_refl eq_refl Hbig).
Defined.

End FramingScenarios.

Section RelayProperties.
Import RelayDaemonClient.
Context (J : Json).

Lemma start_not_disconnected c : state c <> DISCONNECTED -> start c = (c, []).
Proof. intros Hs. unfold start. now destruct (decide (state c = DISCONNECTED)). Qed.

(** X23. The reconnect timer does not reconnect.  When the connection of a
    client with automatic reconnection is lost (attempts left, no timer
    pending), [handleDisconnect] moves it to the state backoff and sets the
    timer; when the timer fires, [start] finds the state backoff, not
    disconnected, and returns at once: no connection is created, the state
    stays backoff with no timer pending, and a later [start] does nothing
    either.  Only [stop] brings the client back to disconnected, from where
    [start] connects. *)
Theorem reconnect_timer_does_not_reconnect c :
  reconnect c = true ->
  reconnectAttempts c < maxReconnectAttempts c ->
  reconnectTimer c = false ->
  state (lost c) = BACKOFF /\
  reconnectTimer (lost c) = true /\
  In (SetReconnectTimer (reconnectDelay c)) (handleDisconnect c).2 /\
  reconnectTimerFired (lost c) = (with_reconnectTimer false (lost c), []) /\
  state (afterTimer c) = BACKOFF /\
  reconnectTimer (afterTimer c) = false /\
  socket (afterTimer c) = socket c /\
  start (afterTimer c) = (afterTimer c, []) /\
  In (CreateConnection (socketPath c)) (start (stop (afterTimer c)).1).2.
Proof.
  intros Hre Hatt Htimer.
  assert (Hlost : state (lost c) = BACKOFF /\ reconnectTimer (lost c) = true /\
                  socket (lost c) = socket c /\ socketPath (lost c) = socketPath c /\
                  In (SetReconnectTimer (reconnectDelay c)) (handleDisconnect c).2).
  { unfold lost, handleDisconnect, scheduleReconnect, setState.
    destruct (decide (state c = DISCONNECTED)) as [Hd|Hd]; simpl;
      rewrite Hre; apply Z.ltb_lt in Hatt; rewrite Hatt; simpl; rewrite Htimer; simpl.
    - rewrite Hd. simpl. repeat split. repeat (apply in_or_app; right). simpl. auto.
    - repeat split. right. apply in_or_app. right. simpl. auto. }
  destruct Hlost as (Hstate & Hpending & Hsocket & Hpath & Hset).
  assert (Hfired : reconnectTimerFired (lost c) = (with_reconnectTimer false (lost c), [])).
  { unfold reconnectTimerFired. apply start_not_disconnected. simpl. now rewrite Hstate. }
  assert (Hidle : start (with_reconnectTimer false (lost c))
                  = (with_reconnectTimer false (lost c), [])).
  { apply start_not_disconnected. simpl. now rewrite Hstate. }
  assert (Hstop : In (CreateConnection (socketPath c))
                    (start (stop (with_reconnectTimer false (lost c))).1).2).
  { unfold stop, start, setState. simpl. rewrite Hstate. simpl. rewrite Hpath.
    destruct (socket (lost c)); simpl; auto. }
  assert (Hafter : afterTimer c = with_reconnectTimer false (lost c))
    by (unfold afterTimer; now rewrite Hfired).
  rewrite Hafter.
  split; [exact Hstate|]. split; [exact Hpending|]. split; [exact Hset|].
  split; [exact Hfired|]. split; [exact Hstate|]. split; [reflexivity|].
  split; [exact Hsocket|]. split; [exact Hidle|exact Hstop].
Qed.

(** X24. Outside the state ready nothing is sent.  In every other state
    [sendMessage], [sendChannelMessage], [broadcast], [joinChannel],
    [leaveChannel], [subscribe] and [unsubscribe] return false, write
    nothing to the socket and leave the client as it is, and the calls that
    the message service makes on its relay client for a stored message or an
    event ([broadcastToChannel], [sendToAgent], [broadcast],
    [emitRelayEvent]) write nothing and report nothing to the caller. *)
Theorem not_ready_sends_nothing c : state c <> READY -> SendsNothing J c.
Proof.
  intros Hs.
  assert (Hm : forall to body kind data thread env,
             sendMessage J to body kind data thread env c = (false, [])).
  { intros. unfold sendMessage. now destruct (decide (state c = READY)). }
  assert (Hc : forall channel body thread mentions env,
             sendChannelMessage J channel body thread mentions env c = (false, [])).
  { intros. unfold sendChannelMessage. now destruct (decide (state c = READY)). }
  assert (Hb : forall message env, broadcast J message env c = (false, [])).
  { intros [data ts|data ts|json] env; unfold broadcast; apply Hm. }
  unfold SendsNothing. repeat split; try assumption.
  - intros. unfold joinChannel. now destruct (decide (state c = READY)).
  - intros. unfold leaveChannel. now destruct (decide (state c = READY)).
  - intros. unfold subscribe. now destruct (decide (state c = READY)).
  - intros. unfold unsubscribe. now destruct (decide (state c = READY)).
  - intros call timestamp env. destruct call; unfold relayLedgerCall; try reflexivity.
    + unfold broadcastToChannel. now rewrite Hc.
    + unfold sendToAgent. now rewrite Hm.
    + now rewrite Hb.
    + unfold emitRelayEvent, broadcastText. destruct (truthy _); [now rewrite Hc|now rewrite Hm].
Qed.

(** X25. What [sendEnvelope] writes, [FrameParser] reads.  On a socket
    that is open, an envelope whose serialisation has at most 16 MiB is
    written as one frame, and a new parser fed that frame calls [onFrame]
    once, with what [JSON.parse] makes of the serialisation, and ends
    empty. *)
Theorem sendEnvelope_is_parsed {E : Type} (JSON_parse : list byte -> option E) envelope c :
  socket c = Some false ->
  (N.of_nat (List.length (encode J envelope)) <= MAX_FRAME_BYTES)%N ->
  exists bytes,
    sendEnvelope J envelope c = (true, [SocketWrite bytes]) /\
    FrameParser.feed JSON_parse bytes FrameParser.new
    = (FrameParser.new, [FrameParser.dispatch JSON_parse (encode J envelope)]).
Proof.
  intros Hsocket Hmax. unfold sendEnvelope. rewrite Hsocket.
  destruct (frames_Some [encode J envelope]) as [stream Hs]; [now repeat constructor|].
  simpl in Hs. unfold frame in Hs.
  destruct (writeUInt32BE _) as [lengthBuffer|] eqn:Hw; [|discriminate].
  exists (lengthBuffer ++ encode J envelope). split; [reflexivity|].
  unfold FrameParser.feed. simpl.
  rewrite <- (app_nil_r (lengthBuffer ++ encode J envelope)).
  rewrite (parseFrames_frame JSON_parse (encode J envelope) _ [] Hmax).
  - now rewrite parseFrames_unfold.
  - unfold frame. now rewrite Hw.
Qed.

End RelayProperties.

Section RelayMembership.
Import RelayDaemonClient.

Lemma getChannelSubscribers_subscribe agentId channelId other c :
  getChannelSubscribers other (subscribeToChannel agentId channelId c) =
  if decide (channelId = other) then getChannelSubscribers other c ∪ {[agentId]}
  else getChannelSubscribers other c.
Proof.
  unfold getChannelSubscribers, subscribeToChannel. simpl.
  destruct (decide (channelId = other)) as [->|Hne].
  - now rewrite lookup_insert_eq.
  - now rewrite lookup_insert_ne.
Qed.

Lemma getChannelSubscribers_unsubscribe agentId channelId other c :
  getChannelSubscribers other (unsubscribeFromChannel agentId channelId c) =
  if decide (channelId = other) then getChannelSubscribers other c ∖ {[agentId]}
  else getChannelSubscribers other c.
Proof.
  unfold getChannelSubscribers, unsubscribeFromChannel.
  destruct (channelMembers c !! channelId) as [members|] eqn:Hm; simpl.
  - destruct (decide (channelId = other)) as [->|Hne].
    + now rewrite lookup_insert_eq, Hm.
    + now rewrite lookup_insert_ne.
  - destruct (decide (channelId = other)) as [<-|Hne]; [|reflexivity].
    rewrite Hm. simpl. apply set_eq. intros x. rewrite elem_of_difference.
    split; [intros H; now apply not_elem_of_empty in H|now intros [H _]].
Qed.

(** X26. The relay mirrors the registry, until a channel is deleted.  When
    the registry has a relay client attached and that client lists, for
    every channel, the members the registry has, then it still does after a
    [join] and after a [leave], once the calls these methods make
    ([subscribeToChannel], [unsubscribeFromChannel]) have reached the client.
    [delete] makes no call on the relay: after the deletion of a channel
    that had members the client still lists them, and the two disagree. *)
Theorem relay_mirrors_registry cs c channelId agentId :
  ChannelService.relayClient cs = true ->
  Mirrors cs c ->
  Mirrors (ChannelService.join channelId agentId cs).1.2
    (relayRegistryCalls (ChannelService.join channelId agentId cs).2 c) /\
  Mirrors (ChannelService.leave channelId agentId cs).1.2
    (relayRegistryCalls (ChannelService.leave channelId agentId cs).2 c) /\
  (ChannelService.isMember channelId agentId cs = true ->
   ChannelService.getById channelId cs <> None ->
   agentId ∈ getChannelSubscribers channelId c /\
   ~ Mirrors (ChannelService.delete channelId cs).2 c).
Proof.
  intros Hrelay Hmirror. split; [|split].
  - unfold ChannelService.join.
    destruct (ChannelService.channels cs !! channelId); [|exact Hmirror].
    destruct (negb _); [exact Hmirror|].
    destruct (ChannelService.memberships cs !! channelId) as [members|] eqn:Hm;
      [|exact Hmirror].
    destruct (decide (agentId ∈ members)); [exact Hmirror|].
    rewrite Hrelay. intros other. simpl.
    rewrite getChannelSubscribers_subscribe, (Hmirror other).
    destruct (decide (channelId = other)) as [<-|Hne].
    + now rewrite lookup_insert_eq, Hm.
    + now rewrite lookup_insert_ne.
  - unfold ChannelService.leave.
    destruct (ChannelService.channels cs !! channelId); [|exact Hmirror].
    destruct (ChannelService.memberships cs !! channelId) as [members|] eqn:Hm;
      [|exact Hmirror].
    destruct (decide (agentId ∈ members)); [|exact Hmirror].
    rewrite Hrelay. intros other. simpl.
    rewrite getChannelSubscribers_unsubscribe, (Hmirror other).
    destruct (decide (channelId = other)) as [<-|Hne].
    + now rewrite lookup_insert_eq, Hm.
    + now rewrite lookup_insert_ne.
  - unfold ChannelService.isMember, ChannelService.getById. intros Hin Hch.
    destruct (ChannelService.memberships cs !! channelId) as [members|] eqn:Hm;
      [|discriminate].
    apply bool_decide_eq_true in Hin.
    assert (Hlisted : agentId ∈ getChannelSubscribers channelId c)
      by now rewrite (Hmirror channelId), Hm.
    split; [exact Hlisted|]. intros Hafter.
    rewrite (Hafter channelId) in Hlisted. unfold ChannelService.delete in Hlisted.
    destruct (ChannelService.channels cs !! channelId); [|contradiction].
    simpl in Hlisted. rewrite lookup_delete_eq in Hlisted. simpl in Hlisted.
    now apply not_elem_of_empty in Hlisted.
Qed.

End RelayMembership.

Section RelayScenarios.
Import RelayDaemonClient.

Lemma reconnect_timer_does_not_reconnect_ready :
  state readyClient = READY /\
  state (afterTimer readyClient) = BACKOFF /\
  start (afterTimer readyClient) = (afterTimer readyClient, []).
Proof.
  split; [reflexivity|].
  destruct (reconnect_timer_does_not_reconnect readyClient eq_refl eq_refl eq_refl)
    as (_ & _ & _ & _ & Hstate & _ & _ & Hstart & _).
  split; [exact Hstate|exact Hstart].
Defined.

Lemma not_ready_sends_nothing_new :
  state defaultClient = DISCONNECTED /\ SendsNothing toyJson defaultClient.
Proof.
  split; [reflexivity|]. apply not_ready_sends_nothing. discriminate.
Defined.

Lemma sendEnvelope_is_parsed_ack :
  exists bytes,
    sendAck toyJson "msg-1" "agent-2" (at_ "a" 7) readyClient = (true, [SocketWrite bytes]) /\
    FrameParser.feed keepText bytes FrameParser.new
    = (FrameParser.new, [FrameParser.OnFrame emptyObject]).
Proof.
  assert (Hmax : forall e, (N.of_nat (List.length (encode toyJson e)) <= MAX_FRAME_BYTES)%N)
    by (intros e; vm_compute; discriminate).
  exact (sendEnvelope_is_parsed toyJson keepText
           (Build_Envelope "a" PROTOCOL_VERSION ACK (Some "Moltslack") (Some "agent-2") 7
              (AckPayload "msg-1" "delivered"))
           readyClient eq_refl (Hmax _)).
Defined.

Lemma relay_mirrors_registry_created :
  Mirrors createdRegistry defaultClient /\
  Mirrors (ChannelService.join "ch-5" "agent-2" createdRegistry).1.2
    (relayRegistryCalls (ChannelService.join "ch-5" "agent-2" createdRegistry).2
       defaultClient).
Proof.
  assert (Hm : Mirrors createdRegistry defaultClient).
  { intros channelId. unfold getChannelSubscribers. simpl. rewrite lookup_empty.
    change (ChannelService.memberships createdRegistry)
      with (<["ch-5" := ∅]> (∅ : gmap string (gset string))).
    destruct (decide ("ch-5" = channelId)) as [<-|Hne].
    - now rewrite lookup_insert_eq.
    - now rewrite lookup_insert_ne, lookup_empty. }
  split; [exact Hm|].
  exact (proj1 (relay_mirrors_registry createdRegistry defaultClient "ch-5" "agent-2"
                  eq_refl Hm)).
Defined.

End RelayScenarios.
